(** * VS-FM-RADIO: the real-time audio pipeline

    A shallow embedding of the audio core of the player:

    - [Base64]: the platform functions [btoa] and [atob] used by the codec;
    - [Codec]: [encode], [createBlob], [decode] and [decodeAudioData] of
      [components/LiveVoiceAgent.tsx];
    - [AudioService]: the playback deck of [services/audioService.ts];
    - [LiveVoiceAgent]: the refs, [cleanup], [startSession] and the
      [onmessage] handler of the streaming session component;
    - [App]: the track buttons, the swipe gestures and the retry policy of
      the player.

    Conventions.  A JavaScript number that the code only compares, adds or
    scales by a power of two is a rational ([Q]); a [Float32Array] is a
    [list Q], an [Int16Array] a [list Z] of values in [-32768, 32767], a
    [Uint8Array] a [list byte].  Typed arrays share their buffer in the
    byte order of the platform, taken to be little-endian.  Browser objects
    (audio contexts, media streams, buffer sources, remote sessions) are
    identifiers, and what the code does to them is recorded in an effect
    log.  An [async] function is cut at its [await]s: each piece runs to
    its end, and the event that resumes it is an input of the model.  A
    callback handed to [then] on a promise is a job: it runs after the
    code that is running when the promise is fulfilled already, and when
    the promise is fulfilled otherwise. *)

From stdpp Require Import base option list gmap.
From Stdlib Require Import ZArith NArith QArith Qround Qabs Qminmax.
From Stdlib Require Import Ascii String Lia Lqa.
From Stdlib.Strings Require Import Byte.

Local Open Scope Z_scope.

(** ** Base64: the platform's [btoa] and [atob] *)

Module Base64.

Local Open Scope N_scope.

Definition alphabet : string :=
  "ABCDEFGHIJKLMNOPQRSTUVWXYZabcdefghijklmnopqrstuvwxyz0123456789+/".

(** The character of a sextet (a number below 64). *)
Definition char_of_sextet (n : N) : ascii :=
  match String.get (N.to_nat n) alphabet with
  | Some c => c
  | None => "="%char
  end.

(** The sextet of a character of the alphabet. *)
Definition sextet_of_char (c : ascii) : option N :=
  let n := N_of_ascii c in
  if (65 <=? n) && (n <=? 90) then Some (n - 65)
  else if (97 <=? n) && (n <=? 122) then Some (n - 71)
  else if (48 <=? n) && (n <=? 57) then Some (n + 4)
  else if n =? 43 then Some 62
  else if n =? 47 then Some 63
  else None.

(** Three octets make four sextets; a tail of one or two octets makes
    two or three, the unused low bits being zero. *)
Fixpoint sextets_of_octets (l : list N) : list N :=
  match l with
  | a :: b :: c :: rest =>
      a / 4 :: (a mod 4) * 16 + b / 16 :: (b mod 16) * 4 + c / 64 :: c mod 64
        :: sextets_of_octets rest
  | [a; b] => [a / 4; (a mod 4) * 16 + b / 16; (b mod 16) * 4]
  | [a] => [a / 4; (a mod 4) * 16]
  | [] => []
  end.

Definition padding (len : nat) : list ascii :=
  match (len mod 3)%nat with
  | 1%nat => ["="; "="]%char
  | 2%nat => ["="]%char
  | _ => []
  end.

(** [btoa(binary)]: every character of a [string] is below 256, so the
    call cannot raise. *)
Definition btoa (binary : string) : string :=
  let octets := map N_of_ascii (list_ascii_of_string binary) in
  string_of_list_ascii
    (map char_of_sextet (sextets_of_octets octets) ++ padding (List.length octets)).

(** Four sextets make three octets; a tail of two or three sextets makes
    one or two, the unused low bits being dropped. *)
Fixpoint octets_of_sextets (l : list N) : list N :=
  match l with
  | a :: b :: c :: d :: rest =>
      a * 4 + b / 16 :: (b mod 16) * 16 + c / 4 :: (c mod 4) * 64 + d
        :: octets_of_sextets rest
  | [a; b; c] => [a * 4 + b / 16; (b mod 16) * 16 + c / 4]
  | [a; b] => [a * 4 + b / 16]
  | _ => []
  end.

Definition is_whitespace (c : ascii) : bool :=
  let n := N_of_ascii c in
  (n =? 9) || (n =? 10) || (n =? 12) || (n =? 13) || (n =? 32).

(** A reversed text without its final [=], if it has one. *)
Definition drop_equals (r : list ascii) : option (list ascii) :=
  match r with
  | c :: r' => if (c =? "=")%char then Some r' else None
  | [] => None
  end.

(** When the length is a multiple of four, one or two final [=] go. *)
Definition strip_padding (l : list ascii) : list ascii :=
  if (List.length l mod 4 =? 0)%nat then
    match drop_equals (rev l) with
    | Some r1 =>
        match drop_equals r1 with
        | Some r2 => rev r2
        | None => rev r1
        end
    | None => l
    end
  else l.

Fixpoint sextets_of_chars (l : list ascii) : option (list N) :=
  match l with
  | [] => Some []
  | c :: r =>
      match sextet_of_char c, sextets_of_chars r with
      | Some n, Some ns => Some (n :: ns)
      | _, _ => None
      end
  end.

(** [atob(base64)], the forgiving decoder of the platform: [None] is the
    [InvalidCharacterError] it raises. *)
Definition atob (base64 : string) : option string :=
  let l := strip_padding
             (List.filter (fun c => negb (is_whitespace c))
                          (list_ascii_of_string base64)) in
  if (List.length l mod 4 =? 1)%nat then None
  else
    match sextets_of_chars l with
    | Some ns =>
        Some (string_of_list_ascii (map ascii_of_N (octets_of_sextets ns)))
    | None => None
    end.

End Base64.

(** ** The audio frame codec of [LiveVoiceAgent.tsx] *)

Module Codec.

(** [encode(bytes)]: the bytes become the characters of a binary string,
    which [btoa] encodes. *)
Definition encode (bytes : list byte) : string :=
  Base64.btoa (string_of_list_ascii (map ascii_of_byte bytes)).

(** Truncation toward zero, the first step of storing a number in an
    integer typed array. *)
Definition trunc (x : Q) : Z := Z.quot (Qnum x) (Z.pos (Qden x)).

(** What [int16[i] = x] stores for a finite [x]: the truncation, wrapped
    modulo 2^16 into the signed range.  There is no clamp. *)
Definition toInt16 (x : Q) : Z :=
  let m := trunc x mod 65536 in
  if m <? 32768 then m else m - 65536.

Definition u8 (n : Z) : byte :=
  match Byte.of_N (Z.to_N (n mod 256)) with
  | Some b => b
  | None => x00
  end.

(** [new Uint8Array(int16.buffer)]: two bytes for each element, low byte
    first. *)
Definition bytes_of_int16 (v : Z) : list byte :=
  let u := v mod 65536 in [u8 u; u8 (u / 256)].

Definition buffer_of_int16 (int16 : list Z) : list byte :=
  flat_map bytes_of_int16 int16.

Record Blob := { data : string; mimeType : string }.

(** [createBlob(data)]: [int16[i] = data[i] * 32768]; the product of a
    single-precision sample by a power of two is exact. *)
Definition createBlob (samples : list Q) : Blob :=
  let int16 := map (fun x => toInt16 (x * 32768)) samples in
  {| data := encode (buffer_of_int16 int16);
     mimeType := "audio/pcm;rate=16000" |}.

(** [decode(base64)]: [atob], then the character codes. *)
Definition decode (base64 : string) : option (list byte) :=
  match Base64.atob base64 with
  | Some binaryString =>
      Some (map byte_of_ascii (list_ascii_of_string binaryString))
  | None => None
  end.

Definition int16_of_bytes (lo hi : byte) : Z :=
  let u := Z.of_N (Byte.to_N lo) + 256 * Z.of_N (Byte.to_N hi) in
  if u <? 32768 then u else u - 65536.

(** [new Int16Array(data.buffer)]: a [RangeError] ([None]) when the byte
    length is odd. *)
Fixpoint int16_of_buffer (bytes : list byte) : option (list Z) :=
  match bytes with
  | [] => Some []
  | lo :: hi :: rest =>
      match int16_of_buffer rest with
      | Some l => Some (int16_of_bytes lo hi :: l)
      | None => None
      end
  | [_] => None
  end.

Record AudioBuffer := {
  numberOfChannels : nat;
  frames : nat;
  sampleRate : Q;
  channelData : list (list Q)
}.

Definition duration (b : AudioBuffer) : Q :=
  inject_Z (Z.of_nat (frames b)) / sampleRate b.

(** [ctx.createBuffer] raises [NotSupportedError] without channels,
    without frames, and outside the nominal ranges of the platform: here
    at most 32 channels and a rate from 3000 to 768000 Hz, the ranges of
    Chrome, which hold the range that every implementation has to
    support, 8000 to 96000 Hz. *)
Definition createBuffer_ok (numChannels frameCount : nat) (rate : Q) : bool :=
  negb (numChannels =? 0)%nat && (numChannels <=? 32)%nat
    && negb (frameCount =? 0)%nat
    && Qle_bool 3000 rate && Qle_bool rate 768000.

(** [decodeAudioData(data, ctx, sampleRate, numChannels)]: channel
    [channel] holds [dataInt16[i * numChannels + channel] / 32768] for
    every whole frame [i]. *)
Definition decodeAudioData (bytes : list byte) (rate : Q) (numChannels : nat)
  : option AudioBuffer :=
  match int16_of_buffer bytes with
  | None => None
  | Some dataInt16 =>
      let frameCount := (List.length dataInt16 / numChannels)%nat in
      if createBuffer_ok numChannels frameCount rate then
        Some {| numberOfChannels := numChannels;
                frames := frameCount;
                sampleRate := rate;
                channelData :=
                  map (fun channel =>
                         map (fun i =>
                                nth (i * numChannels + channel) dataInt16 0
                                  # 32768)
                             (seq 0 frameCount))
                      (seq 0 numChannels) |}
      else None
  end.

(** The quantizer as the specification words it: [round(sample * 32767)],
    clamped to the 16-bit range. *)
Definition round_half_up (x : Q) : Z := Qfloor (x + (1 # 2)).

Definition spec_quantize (sample : Q) : Z :=
  Z.max (-32768) (Z.min 32767 (round_half_up (sample * 32767))).

End Codec.

(** ** The playback deck of [services/audioService.ts] *)

Module AudioService.

(** A JavaScript number: a finite value or one of the three others. *)
Inductive JSNumber :=
| Finite (q : Q)
| NaN
| PosInfinity
| NegInfinity.

(** [Number.isFinite(time)] *)
Definition isFinite (n : JSNumber) : bool :=
  match n with Finite _ => true | _ => false end.

(** The [HTMLAudioElement] as far as the service reads and writes it.
    [src] is what the getter reports: the resolved URL of the source, or
    the empty string when there is none. *)
Record AudioElement := {
  src : string;
  crossOrigin : option string;
  currentTime : Q;
  mediaDuration : Q;
  readyState : nat;
  paused : bool;
  volume : Q
}.

(** Which callbacks the caller has registered. *)
Record AudioCallbacks := {
  onTimeUpdate : bool;
  onDurationChange : bool;
  onPlay : bool;
  onPause : bool;
  onEnded : bool;
  onVolumeChange : bool;
  onError : bool
}.

(** What the service does to the outside, in order. *)
Inductive Effect :=
| SetSrc (url : string)     (* [audioElement.src = url]: a load starts *)
| Load                      (* [audioElement.load()] *)
| Play                      (* [audioElement.play()] *)
| Pause                     (* [audioElement.pause()] *)
| ResumeContext             (* [audioContext.resume()] *)
| Warn                      (* [console.warn] *)
| CallOnError               (* [callbacks.onError(err)] *)
| CallOnDurationChange (d : Q)
| CallOnTimeUpdate (t : Q)
| CallOnVolumeChange (v : Q).

Record State := {
  audioContext : bool;
  analyser : bool;
  source : bool;
  audioElement : AudioElement;
  callbacks : AudioCallbacks;
  isCorsRestricted : bool;
  effects : list Effect
}.

(** What the browser answers. *)
Record Platform := {
  hasAudioCtor : bool;          (* [window.AudioContext] exists *)
  contextSuspended : bool;      (* [audioContext.state === 'suspended'] *)
  createSourceThrows : bool;    (* [createMediaElementSource] raises *)
  seekBeforeMetadataThrows : bool;
                                (* [currentTime = t] raises at readyState 0 *)
  frequencyData : list byte;    (* what the analyser reports *)
  resolveUrl : string -> string;
                                (* what [src] reports once [src = url] is
                                   done: the URL resolved against the
                                   document and serialized *)
  fadd : Q -> Q -> JSNumber     (* the sum of two finite numbers, which is
                                   rounded and can overflow *)
}.

(** [a + b] *)
Definition jsadd (pf : Platform) (a b : JSNumber) : JSNumber :=
  match a, b with
  | Finite x, Finite y => fadd pf x y
  | NaN, _ | _, NaN => NaN
  | PosInfinity, NegInfinity | NegInfinity, PosInfinity => NaN
  | PosInfinity, _ | _, PosInfinity => PosInfinity
  | NegInfinity, _ | _, NegInfinity => NegInfinity
  end.

(** A call either returns or raises, with the state reached. *)
Inductive Outcome :=
| Returned (st : State)
| Threw (st : State).

Definition state_of (o : Outcome) : State :=
  match o with Returned st | Threw st => st end.

Definition no_callbacks : AudioCallbacks :=
  {| onTimeUpdate := false; onDurationChange := false; onPlay := false;
     onPause := false; onEnded := false; onVolumeChange := false;
     onError := false |}.

(** [new AudioService()] *)
Definition constructor : State :=
  {| audioContext := false; analyser := false; source := false;
     audioElement :=
       {| src := ""; crossOrigin := Some "anonymous"%string;
          currentTime := 0; mediaDuration := 0; readyState := 0;
          paused := true; volume := 1 |};
     callbacks := no_callbacks;
     isCorsRestricted := false;
     effects := [] |}.

Definition with_element (f : AudioElement -> AudioElement) (st : State) : State :=
  {| audioContext := audioContext st; analyser := analyser st;
     source := source st; audioElement := f (audioElement st);
     callbacks := callbacks st; isCorsRestricted := isCorsRestricted st;
     effects := effects st |}.

Definition with_isCorsRestricted (b : bool) (st : State) : State :=
  {| audioContext := audioContext st; analyser := analyser st;
     source := source st; audioElement := audioElement st;
     callbacks := callbacks st; isCorsRestricted := b;
     effects := effects st |}.

Definition with_callbacks (c : AudioCallbacks) (st : State) : State :=
  {| audioContext := audioContext st; analyser := analyser st;
     source := source st; audioElement := audioElement st;
     callbacks := c; isCorsRestricted := isCorsRestricted st;
     effects := effects st |}.

Definition with_graph (ctx an so : bool) (st : State) : State :=
  {| audioContext := ctx; analyser := an; source := so;
     audioElement := audioElement st; callbacks := callbacks st;
     isCorsRestricted := isCorsRestricted st; effects := effects st |}.

Definition emit (e : Effect) (st : State) : State :=
  {| audioContext := audioContext st; analyser := analyser st;
     source := source st; audioElement := audioElement st;
     callbacks := callbacks st; isCorsRestricted := isCorsRestricted st;
     effects := effects st ++ [e] |}.

Definition set_crossOrigin (c : option string) (el : AudioElement) : AudioElement :=
  {| src := src el; crossOrigin := c; currentTime := currentTime el;
     mediaDuration := mediaDuration el; readyState := readyState el;
     paused := paused el; volume := volume el |}.

(** Assigning [src] starts a load: the element has no data until the
    new metadata arrives.  [reported] is what the getter answers from
    then on. *)
Definition set_src (reported : string) (el : AudioElement) : AudioElement :=
  {| src := reported; crossOrigin := crossOrigin el; currentTime := 0;
     mediaDuration := 0; readyState := 0; paused := paused el;
     volume := volume el |}.

Definition set_position (t : Q) (el : AudioElement) : AudioElement :=
  {| src := src el; crossOrigin := crossOrigin el; currentTime := t;
     mediaDuration := mediaDuration el; readyState := readyState el;
     paused := paused el; volume := volume el |}.

Definition set_paused (b : bool) (el : AudioElement) : AudioElement :=
  {| src := src el; crossOrigin := crossOrigin el;
     currentTime := currentTime el; mediaDuration := mediaDuration el;
     readyState := readyState el; paused := b; volume := volume el |}.

Definition set_volume (v : Q) (el : AudioElement) : AudioElement :=
  {| src := src el; crossOrigin := crossOrigin el;
     currentTime := currentTime el; mediaDuration := mediaDuration el;
     readyState := readyState el; paused := paused el; volume := v |}.

Definition clamp (lo hi x : Q) : Q := Qmax lo (Qmin hi x).

(** The setter [audioElement.currentTime = t].  A value that is not
    finite is a [TypeError].  With data the element seeks, inside the
    media; without, the position is remembered, or the assignment raises
    where the platform says so. *)
Definition assign_currentTime (pf : Platform) (t : JSNumber) (st : State)
  : Outcome :=
  match t with
  | Finite q =>
      if (0 <? readyState (audioElement st))%nat then
        Returned
          (with_element
             (set_position (clamp 0 (mediaDuration (audioElement st)) q)) st)
      else if seekBeforeMetadataThrows pf then Threw st
      else Returned (with_element (set_position q) st)
  | _ => Threw st
  end.

(** [safePlay()]: the start call; its promise settles later. *)
Definition safePlay (st : State) : State :=
  emit Play (with_element (set_paused false) st).

(** The [catch] of [safePlay]'s promise, run when the start call is
    rejected with an error called [name]. *)
Definition playRejected (name : string) (st : State) : State :=
  if String.eqb name "NotAllowedError" then emit Warn st
  else if negb (String.eqb name "AbortError") then
    (if onError (callbacks st) then emit CallOnError st else st)
  else st.

(** The [onerror] handler bound in [bindEvents].  [currentSrc] is read
    from the getter, in resolved form, and is reported as it is once it
    is assigned again; what the element reports for the empty source in
    between is never read. *)
Definition onerror (st : State) : State :=
  let el := audioElement st in
  if negb (String.eqb (src el) "")
     && match crossOrigin el with
        | Some c => String.eqb c "anonymous"
        | None => false
        end
  then
    let st1 := with_element (set_crossOrigin None) st in
    let st2 := with_isCorsRestricted true st1 in
    let currentSrc := src (audioElement st2) in
    let st3 := emit (SetSrc "") (with_element (set_src "") st2) in
    let st4 := emit (SetSrc currentSrc) (with_element (set_src currentSrc) st3) in
    safePlay st4
  else
    if onError (callbacks st) then emit CallOnError st else st.

(** [init()] *)
Definition init (pf : Platform) (st : State) : State :=
  let st1 :=
    if negb (audioContext st) && hasAudioCtor pf
    then with_graph true true (source st) st
    else st in
  let st2 :=
    if audioContext st1 && contextSuspended pf
    then emit ResumeContext st1
    else st1 in
  if negb (source st2) && negb (isCorsRestricted st2)
     && audioContext st2 && analyser st2
  then
    if createSourceThrows pf
    then with_isCorsRestricted true (emit Warn st2)
    else with_graph (audioContext st2) (analyser st2) true st2
  else st2.

(** [play(url, startTime)] *)
Definition play (pf : Platform) (url : string) (startTime : option JSNumber)
    (st : State) : Outcome :=
  if String.eqb url "" then Returned st
  else
    let st1 :=
      if String.prefix "blob:" url
      then with_element (set_crossOrigin None) st
      else with_isCorsRestricted false
             (with_element (set_crossOrigin (Some "anonymous"%string)) st) in
    let st2 := init pf st1 in
    let st3 :=
      if negb (String.eqb (src (audioElement st2)) url)
      then emit Load (emit (SetSrc url)
                           (with_element (set_src (resolveUrl pf url)) st2))
      else st2 in
    let seeks :=
      match startTime with
      | Some (Finite q) => negb (Qle_bool q 0)
      | Some PosInfinity => true
      | _ => false
      end in
    if seeks then
      match assign_currentTime pf (default NaN startTime) st3 with
      | Returned st4 => Returned (safePlay st4)
      | Threw st4 => Threw st4
      end
    else Returned (safePlay st3).

(** [togglePlay()] *)
Definition togglePlay (pf : Platform) (st : State) : State :=
  if paused (audioElement st)
  then safePlay (init pf st)
  else emit Pause (with_element (set_paused true) st).

(** [seek(time)] *)
Definition seek (pf : Platform) (time : JSNumber) (st : State) : Outcome :=
  if negb (isFinite time) then Returned st
  else if (0 <? readyState (audioElement st))%nat
  then assign_currentTime pf time st
  else
    match assign_currentTime pf time st with
    | Returned st1 => Returned st1
    | Threw st1 => Returned st1
    end.

(** [skip(seconds)] *)
Definition skip (pf : Platform) (seconds : JSNumber) (st : State) : Outcome :=
  seek pf (jsadd pf (Finite (currentTime (audioElement st))) seconds) st.

(** [setVolume(val)]: [Math.max(0, Math.min(1, val))]; the volume setter
    refuses [NaN]. *)
Definition setVolume (val : JSNumber) (st : State) : Outcome :=
  match val with
  | Finite q =>
      Returned (with_element (set_volume (clamp 0 1 q)) st)
  | PosInfinity => Returned (with_element (set_volume 1) st)
  | NegInfinity => Returned (with_element (set_volume 0) st)
  | NaN => Threw st
  end.

(** [setCallbacks(c)] *)
Definition setCallbacks (c : AudioCallbacks) (st : State) : State :=
  let el := audioElement st in
  let st1 := with_callbacks c st in
  let st2 :=
    if negb (Qeq_bool (mediaDuration el) 0) && onDurationChange c
    then emit (CallOnDurationChange (mediaDuration el)) st1 else st1 in
  let st3 :=
    if negb (Qeq_bool (currentTime el) 0) && onTimeUpdate c
    then emit (CallOnTimeUpdate (currentTime el)) st2 else st2 in
  if onVolumeChange c then emit (CallOnVolumeChange (volume el)) st3 else st3.

(** [getFrequencyData()] *)
Definition getFrequencyData (pf : Platform) (st : State) : list byte :=
  if negb (analyser st) || isCorsRestricted st then []
  else frequencyData pf.

(** The calls and events the deck can receive. *)
Inductive Op :=
| OpInit
| OpPlay (url : string) (startTime : option JSNumber)
| OpTogglePlay
| OpSeek (time : JSNumber)
| OpSkip (seconds : JSNumber)
| OpSetVolume (val : JSNumber)
| OpSetCallbacks (c : AudioCallbacks)
| EvError                       (* the element's error event *)
| EvPlayRejected (name : string).

Definition step (pf : Platform) (op : Op) (st : State) : State :=
  match op with
  | OpInit => init pf st
  | OpPlay url startTime => state_of (play pf url startTime st)
  | OpTogglePlay => togglePlay pf st
  | OpSeek time => state_of (seek pf time st)
  | OpSkip seconds => state_of (skip pf seconds st)
  | OpSetVolume val => state_of (setVolume val st)
  | OpSetCallbacks c => setCallbacks c st
  | EvError => onerror st
  | EvPlayRejected name => playRejected name st
  end.

Definition run (pf : Platform) (ops : list Op) (st : State) : State :=
  fold_left (fun s op => step pf op s) ops st.

Definition count (e : Effect -> bool) (st : State) : nat :=
  List.length (List.filter e (effects st)).

Definition is_Play (e : Effect) : bool :=
  match e with Play => true | _ => false end.

End AudioService.

(** ** The streaming session component of [LiveVoiceAgent.tsx] *)

Module LiveVoiceAgent.

Inductive ListeningMode :=
| NIGHT_BRAIN | SUN_DAY | SILENT_COMPANION | CONTROL_FREE
| FOCUS_DRIFT | MEMORY_RECALL | BACKGROUND_LIFE.

Definition mode_name (m : ListeningMode) : string :=
  match m with
  | NIGHT_BRAIN => "NIGHT_BRAIN" | SUN_DAY => "SUN_DAY"
  | SILENT_COMPANION => "SILENT_COMPANION" | CONTROL_FREE => "CONTROL_FREE"
  | FOCUS_DRIFT => "FOCUS_DRIFT" | MEMORY_RECALL => "MEMORY_RECALL"
  | BACKGROUND_LIFE => "BACKGROUND_LIFE"
  end.

(** The voice of [HOST_CONFIG[mode]]. *)
Definition HOST_CONFIG (m : ListeningMode) : string :=
  match m with
  | NIGHT_BRAIN => "Kore" | SUN_DAY => "Fenrir"
  | SILENT_COMPANION => "Zephyr" | CONTROL_FREE => "Puck"
  | FOCUS_DRIFT => "Charon" | MEMORY_RECALL => "Kore"
  | BACKGROUND_LIFE => "Aoede"
  end.

Inductive Status := idle | connecting | connected | error.

(** Browser objects are known by a number. *)
Definition id := nat.

(** The values a tool handler can return. *)
Inductive JSValue :=
| VUndefined
| VNull
| VBool (b : bool)
| VNumber (q : Q)
| VNaN
| VString (s : string)
| VObject.

(** The test of [result || "done"]. *)
Definition truthy (v : JSValue) : bool :=
  match v with
  | VUndefined | VNull | VNaN => false
  | VBool b => b
  | VNumber q => negb (Qeq_bool q 0)
  | VString s => negb (String.eqb s "")
  | VObject => true
  end.

Record FunctionCall := {
  fc_id : string;
  fc_name : string;
  fc_args : JSValue
}.

(** The parts of a [LiveServerMessage] that the handler reads. *)
Record LiveServerMessage := {
  inputTranscription : option string;
  audioData : option string;
  interrupted : bool;
  toolCall : option (list FunctionCall)
}.

(** What the component does to the outside, in order. *)
Inductive Effect :=
| AIResponse (text : string)              (* [onAIResponse(text)] *)
| UserTranscript (text : string)          (* [onUserTranscript(text)] *)
| Deactivate                              (* [onDeactivate()] *)
| DeactivateLater                         (* [setTimeout(onDeactivate, 3000)] *)
| GetUserMedia (task : id)                (* the microphone is asked for *)
| StreamOpened (stream : id)              (* ... and delivered *)
| NewAudioContext (ctx : id) (rate : Z)
| ResumeContext (ctx : id)
| LiveConnect (session : id) (voice : string)
| NewProcessor (processor : id)
| SessionClose (session : id)             (* [s.close()] *)
| TrackStop (stream : id)                 (* every track of the stream stops *)
| ProcessorDisconnect (processor : id)
| ContextClose (ctx : id)
| SourceStart (source : id) (buffer : Codec.AudioBuffer) (when : Q)
                                          (* [source.buffer = buffer;
                                              source.start(when)] *)
| SourceStop (source : id)                (* [source.stop()] *)
| SendRealtimeInput (session : id) (media : Codec.Blob)
| ToolCall (name : string) (args : JSValue)
                                          (* [onToolCall(name, args)] *)
| SendToolResponse (session : id) (call name : string) (result : JSValue)
| ConsoleError.

(** The refs of the component.  [audioQueueRef] is a [Set], which
    JavaScript iterates in insertion order. *)
Record Refs := {
  status : Status;
  sessionRef : option id;
  isConnectingRef : bool;
  inputContextRef : option id;
  outputContextRef : option id;
  streamRef : option id;
  processorRef : option id;
  nextStartTimeRef : Q;
  audioQueueRef : list id
}.

Definition initial_refs : Refs :=
  {| status := idle; sessionRef := None; isConnectingRef := false;
     inputContextRef := None; outputContextRef := None; streamRef := None;
     processorRef := None; nextStartTimeRef := 0; audioQueueRef := [] |}.

Definition set_status (x : Status) (r : Refs) : Refs :=
  {| status := x; sessionRef := sessionRef r;
     isConnectingRef := isConnectingRef r;
     inputContextRef := inputContextRef r;
     outputContextRef := outputContextRef r; streamRef := streamRef r;
     processorRef := processorRef r; nextStartTimeRef := nextStartTimeRef r;
     audioQueueRef := audioQueueRef r |}.

Definition set_sessionRef (x : option id) (r : Refs) : Refs :=
  {| status := status r; sessionRef := x;
     isConnectingRef := isConnectingRef r;
     inputContextRef := inputContextRef r;
     outputContextRef := outputContextRef r; streamRef := streamRef r;
     processorRef := processorRef r; nextStartTimeRef := nextStartTimeRef r;
     audioQueueRef := audioQueueRef r |}.

Definition set_isConnectingRef (x : bool) (r : Refs) : Refs :=
  {| status := status r; sessionRef := sessionRef r; isConnectingRef := x;
     inputContextRef := inputContextRef r;
     outputContextRef := outputContextRef r; streamRef := streamRef r;
     processorRef := processorRef r; nextStartTimeRef := nextStartTimeRef r;
     audioQueueRef := audioQueueRef r |}.

Definition set_inputContextRef (x : option id) (r : Refs) : Refs :=
  {| status := status r; sessionRef := sessionRef r;
     isConnectingRef := isConnectingRef r; inputContextRef := x;
     outputContextRef := outputContextRef r; streamRef := streamRef r;
     processorRef := processorRef r; nextStartTimeRef := nextStartTimeRef r;
     audioQueueRef := audioQueueRef r |}.

Definition set_outputContextRef (x : option id) (r : Refs) : Refs :=
  {| status := status r; sessionRef := sessionRef r;
     isConnectingRef := isConnectingRef r;
     inputContextRef := inputContextRef r; outputContextRef := x;
     streamRef := streamRef r; processorRef := processorRef r;
     nextStartTimeRef := nextStartTimeRef r;
     audioQueueRef := audioQueueRef r |}.

Definition set_streamRef (x : option id) (r : Refs) : Refs :=
  {| status := status r; sessionRef := sessionRef r;
     isConnectingRef := isConnectingRef r;
     inputContextRef := inputContextRef r;
     outputContextRef := outputContextRef r; streamRef := x;
     processorRef := processorRef r; nextStartTimeRef := nextStartTimeRef r;
     audioQueueRef := audioQueueRef r |}.

Definition set_processorRef (x : option id) (r : Refs) : Refs :=
  {| status := status r; sessionRef := sessionRef r;
     isConnectingRef := isConnectingRef r;
     inputContextRef := inputContextRef r;
     outputContextRef := outputContextRef r; streamRef := streamRef r;
     processorRef := x; nextStartTimeRef := nextStartTimeRef r;
     audioQueueRef := audioQueueRef r |}.

Definition set_nextStartTimeRef (x : Q) (r : Refs) : Refs :=
  {| status := status r; sessionRef := sessionRef r;
     isConnectingRef := isConnectingRef r;
     inputContextRef := inputContextRef r;
     outputContextRef := outputContextRef r; streamRef := streamRef r;
     processorRef := processorRef r; nextStartTimeRef := x;
     audioQueueRef := audioQueueRef r |}.

Definition set_audioQueueRef (x : list id) (r : Refs) : Refs :=
  {| status := status r; sessionRef := sessionRef r;
     isConnectingRef := isConnectingRef r;
     inputContextRef := inputContextRef r;
     outputContextRef := outputContextRef r; streamRef := streamRef r;
     processorRef := processorRef r; nextStartTimeRef := nextStartTimeRef r;
     audioQueueRef := x |}.

(** Where a call of [startSession] is suspended. *)
Inductive Await :=
| AwaitUserMedia
| AwaitResumeInput (stream inputCtx outputCtx : id) (outputSuspended : bool)
| AwaitResumeOutput (stream inputCtx outputCtx : id).

(** A suspended call: the effect run it belongs to, whose [mounted] and
    [mode] it closes over. *)
Record Task := {
  t_run : id;
  t_mode : ListeningMode;
  t_await : Await
}.

(** What the callbacks of a session close over. *)
Record Closure := {
  c_run : id;
  c_stream : id;
  c_inputCtx : id
}.

Record World := {
  refs : Refs;
  mounted : gmap id bool;      (* the [mounted] variable of each effect run *)
  current : option id;         (* the run whose cleanup React holds *)
  tasks : gmap id Task;
  sessions : gmap id Closure;
  fulfilled : list id;         (* the sessions whose promise is fulfilled *)
  reactions : list (id * Effect);
                               (* the [then] callbacks of the session
                                  promises that are still pending *)
  microtasks : list Effect;    (* the jobs queued behind the running code *)
  fresh : id;
  log : list Effect
}.

Definition initial : World :=
  {| refs := initial_refs; mounted := ∅; current := None; tasks := ∅;
     sessions := ∅; fulfilled := []; reactions := []; microtasks := [];
     fresh := 0%nat; log := [] |}.

Definition with_refs (f : Refs -> Refs) (w : World) : World :=
  {| refs := f (refs w); mounted := mounted w; current := current w;
     tasks := tasks w; sessions := sessions w; fulfilled := fulfilled w;
     reactions := reactions w; microtasks := microtasks w;
     fresh := fresh w; log := log w |}.

Definition emit (es : list Effect) (w : World) : World :=
  {| refs := refs w; mounted := mounted w; current := current w;
     tasks := tasks w; sessions := sessions w; fulfilled := fulfilled w;
     reactions := reactions w; microtasks := microtasks w;
     fresh := fresh w; log := log w ++ es |}.

Definition set_mounted (run : id) (b : bool) (w : World) : World :=
  {| refs := refs w; mounted := <[run := b]> (mounted w);
     current := current w; tasks := tasks w; sessions := sessions w;
     fulfilled := fulfilled w; reactions := reactions w;
     microtasks := microtasks w; fresh := fresh w; log := log w |}.

Definition set_current (run : option id) (w : World) : World :=
  {| refs := refs w; mounted := mounted w; current := run;
     tasks := tasks w; sessions := sessions w; fulfilled := fulfilled w;
     reactions := reactions w; microtasks := microtasks w;
     fresh := fresh w; log := log w |}.

Definition set_tasks (t : gmap id Task) (w : World) : World :=
  {| refs := refs w; mounted := mounted w; current := current w;
     tasks := t; sessions := sessions w; fulfilled := fulfilled w;
     reactions := reactions w; microtasks := microtasks w;
     fresh := fresh w; log := log w |}.

Definition set_sessions (s : gmap id Closure) (w : World) : World :=
  {| refs := refs w; mounted := mounted w; current := current w;
     tasks := tasks w; sessions := s; fulfilled := fulfilled w;
     reactions := reactions w; microtasks := microtasks w;
     fresh := fresh w; log := log w |}.

Definition set_fulfilled (f : list id) (w : World) : World :=
  {| refs := refs w; mounted := mounted w; current := current w;
     tasks := tasks w; sessions := sessions w; fulfilled := f;
     reactions := reactions w; microtasks := microtasks w;
     fresh := fresh w; log := log w |}.

Definition set_reactions (r : list (id * Effect)) (w : World) : World :=
  {| refs := refs w; mounted := mounted w; current := current w;
     tasks := tasks w; sessions := sessions w; fulfilled := fulfilled w;
     reactions := r; microtasks := microtasks w;
     fresh := fresh w; log := log w |}.

Definition set_microtasks (m : list Effect) (w : World) : World :=
  {| refs := refs w; mounted := mounted w; current := current w;
     tasks := tasks w; sessions := sessions w; fulfilled := fulfilled w;
     reactions := reactions w; microtasks := m;
     fresh := fresh w; log := log w |}.

(** A new object. *)
Definition alloc (w : World) : id * World :=
  (fresh w,
   {| refs := refs w; mounted := mounted w; current := current w;
      tasks := tasks w; sessions := sessions w; fulfilled := fulfilled w;
      reactions := reactions w; microtasks := microtasks w;
      fresh := S (fresh w); log := log w |}).

Definition is_mounted (run : id) (w : World) : bool :=
  default false (mounted w !! run).

Definition mem (x : id) (l : list id) : bool := existsb (Nat.eqb x) l.

(** *** The session promise and the job queue *)

(** [ai.live.connect] returns a promise, which the component keeps in
    [sessionRef] and never awaits: every call on the session goes through
    [sessionPromise.then(s => ...)].  The promise is fulfilled with the
    session when the connection has opened, after [onopen] has run; when
    the handshake fails it is never fulfilled, and the callbacks waiting
    for it never run. *)

(** [sessionPromise.then(s => job)], where [job] is one call on the
    session.  On a fulfilled promise the job is queued behind the code
    that is running; on a pending one it waits for the fulfilment. *)
Definition then_ (session : id) (job : Effect) (w : World) : World :=
  if mem session (fulfilled w)
  then set_microtasks (microtasks w ++ [job]) w
  else set_reactions (reactions w ++ [(session, job)]) w.

(** The queued jobs run, in order: at the end of a task, and at every
    [await] on the way. *)
Definition drain (w : World) : World :=
  emit (microtasks w) (set_microtasks [] w).

(** The connection of [session] has opened: its promise is fulfilled and
    the callbacks that waited for it are queued, in the order in which
    they were registered. *)
Definition fulfil (session : id) (w : World) : World :=
  match sessions w !! session with
  | Some _ =>
      if mem session (fulfilled w) then w
      else
        let mine :=
          List.filter (fun r => (fst r =? session)%nat) (reactions w) in
        let others :=
          List.filter (fun r => negb (fst r =? session)%nat) (reactions w) in
        set_microtasks (microtasks w ++ map snd mine)
          (set_reactions others
             (set_fulfilled (session :: fulfilled w) w))
  | None => w
  end.

(** *** The teardown *)

(** [if (ref.current) { release(ref.current); ref.current = null; }] *)
Definition release (held : option id) (e : id -> Effect)
    (clear : Refs -> Refs) (w : World) : World :=
  match held with
  | Some x => with_refs clear (emit [e x] w)
  | None => w
  end.

(** [cleanup()], in the closure of effect run [run].  The session is
    closed through its promise,
    [sessionRef.current.then(s => s.close()).catch(() => {})]: after the
    code that is running, or when the connection opens, or never. *)
Definition cleanup (run : id) (w : World) : World :=
  let w := set_mounted run false w in
  let w := with_refs (set_isConnectingRef false) w in
  let w := match sessionRef (refs w) with
           | Some s =>
               with_refs (set_sessionRef None) (then_ s (SessionClose s) w)
           | None => w
           end in
  let w := release (streamRef (refs w)) TrackStop (set_streamRef None) w in
  let w := release (processorRef (refs w)) ProcessorDisconnect
                   (set_processorRef None) w in
  let w := release (inputContextRef (refs w)) ContextClose
                   (set_inputContextRef None) w in
  let w := release (outputContextRef (refs w)) ContextClose
                   (set_outputContextRef None) w in
  let w := emit (map SourceStop (audioQueueRef (refs w))) w in
  let w := with_refs (set_audioQueueRef []) w in
  with_refs (set_status idle) w.

(** *** The activation *)

(** [startSession()] up to its first [await]. *)
Definition startSession (run : id) (mode : ListeningMode) (apiKey : bool)
    (w : World) : World :=
  if negb apiKey then emit [AIResponse "Error: No API Key"; Deactivate] w
  else if isConnectingRef (refs w) then w
  else
    let w := with_refs (set_isConnectingRef true) w in
    let w := with_refs (set_status connecting) w in
    let w := emit [AIResponse ("Connecting (" ++ mode_name mode ++ ")...")] w in
    let '(task, w) := alloc w in
    let w := emit [GetUserMedia task] w in
    set_tasks
      (<[task := {| t_run := run; t_mode := mode; t_await := AwaitUserMedia |}]>
         (tasks w)) w.

(** The end of the [try] block: [ai.live.connect], which is not awaited,
    [sessionRef.current = sessionPromise], and the [finally]. *)
Definition connectSession (task : id) (t : Task)
    (stream inputCtx outputCtx : id) (w : World) : World :=
  let '(session, w) := alloc w in
  let w := emit [LiveConnect session (HOST_CONFIG (t_mode t))] w in
  let w := set_sessions
             (<[session := {| c_run := t_run t; c_stream := stream;
                              c_inputCtx := inputCtx |}]> (sessions w)) w in
  let w := with_refs (set_sessionRef (Some session)) w in
  let w := with_refs (set_isConnectingRef false) w in
  set_tasks (delete task (tasks w)) w.

Definition suspend (task : id) (t : Task) (a : Await) (w : World) : World :=
  set_tasks
    (<[task := {| t_run := t_run t; t_mode := t_mode t; t_await := a |}]>
       (tasks w)) w.

(** [getUserMedia] has delivered a stream; the two contexts are created
    and, when suspended, resumed. *)
Definition userMediaResolved (task : id)
    (inputSuspended outputSuspended : bool) (w : World) : World :=
  match tasks w !! task with
  | Some t =>
      match t_await t with
      | AwaitUserMedia =>
          let '(stream, w) := alloc w in
          let w := emit [StreamOpened stream] w in
          let w := with_refs (set_streamRef (Some stream)) w in
          let '(inputCtx, w) := alloc w in
          let w := emit [NewAudioContext inputCtx 16000] w in
          let w := with_refs (set_inputContextRef (Some inputCtx)) w in
          let '(outputCtx, w) := alloc w in
          let w := emit [NewAudioContext outputCtx 24000] w in
          let w := with_refs (set_outputContextRef (Some outputCtx)) w in
          if inputSuspended then
            suspend task t
              (AwaitResumeInput stream inputCtx outputCtx outputSuspended)
              (emit [ResumeContext inputCtx] w)
          else if outputSuspended then
            suspend task t (AwaitResumeOutput stream inputCtx outputCtx)
              (emit [ResumeContext outputCtx] w)
          else connectSession task t stream inputCtx outputCtx w
      | _ => w
      end
  | None => w
  end.

(** A [resume()] has completed. *)
Definition resumeResolved (task : id) (w : World) : World :=
  match tasks w !! task with
  | Some t =>
      match t_await t with
      | AwaitResumeInput stream inputCtx outputCtx outputSuspended =>
          if outputSuspended then
            suspend task t (AwaitResumeOutput stream inputCtx outputCtx)
              (emit [ResumeContext outputCtx] w)
          else connectSession task t stream inputCtx outputCtx w
      | AwaitResumeOutput stream inputCtx outputCtx =>
          connectSession task t stream inputCtx outputCtx w
      | AwaitUserMedia => w
      end
  | None => w
  end.

(** An awaited call has failed: the [catch], then the [finally]. *)
Definition setupRejected (task : id) (w : World) : World :=
  match tasks w !! task with
  | Some t =>
      let w := emit [ConsoleError] w in
      let w :=
        if is_mounted (t_run t) w
        then emit [AIResponse "Network Error"; DeactivateLater]
                  (with_refs (set_status error) w)
        else w in
      let w := with_refs (set_isConnectingRef false) w in
      set_tasks (delete task (tasks w)) w
  | None => w
  end.

(** The effect of [useEffect(..., [isActive, mode])]: React cleans the
    previous run up, then runs the effect anew. *)
Definition runEffect (isActive : bool) (mode : ListeningMode) (apiKey : bool)
    (w : World) : World :=
  let w := match current w with Some old => cleanup old w | None => w end in
  let '(run, w) := alloc w in
  let w := set_current (Some run) (set_mounted run true w) in
  if isActive then startSession run mode apiKey w else cleanup run w.

Definition unmount (w : World) : World :=
  match current w with
  | Some old => set_current None (cleanup old w)
  | None => w
  end.

(** *** The callbacks of a session *)

Definition onopen (session : id) (w : World) : World :=
  match sessions w !! session with
  | Some c =>
      if negb (is_mounted (c_run c) w) then w
      else
        let w := with_refs (set_status connected) w in
        let w := emit [AIResponse "VS FM Live"] w in
        let '(processor, w) := alloc w in
        let w := emit [NewProcessor processor] w in
        with_refs (set_processorRef (Some processor)) w
  | None => w
  end.

Definition onaudioprocess (session : id) (inputData : list Q) (w : World)
  : World :=
  match sessions w !! session with
  | Some c =>
      if negb (is_mounted (c_run c) w) then w
      else
        then_ session
          (SendRealtimeInput session (Codec.createBlob inputData)) w
  | None => w
  end.

Definition onclose (session : id) (w : World) : World :=
  match sessions w !! session with
  | Some c =>
      if is_mounted (c_run c) w
      then emit [Deactivate] (with_refs (set_status idle) w)
      else w
  | None => w
  end.

Definition onerror (session : id) (w : World) : World :=
  match sessions w !! session with
  | Some c =>
      if is_mounted (c_run c) w
      then emit [AIResponse "Connection Error"; DeactivateLater]
                (with_refs (set_status error) w)
      else w
  | None => w
  end.

(** [source.onended]: the source leaves the queue. *)
Definition onended (source : id) (w : World) : World :=
  with_refs
    (fun r => set_audioQueueRef
                (List.filter (fun s => negb (s =? source)%nat) (audioQueueRef r)) r)
    w.

(** *** The inbound message handler *)

(** The scheduling of one decoded buffer, at the reading [clock] of
    [ctx.currentTime].  The planned end of a buffer is the very sum that
    the accumulator receives. *)
Definition scheduleBuffer (clock : Q) (buffer : Codec.AudioBuffer)
    (w : World) : World :=
  let w := with_refs
             (fun r => set_nextStartTimeRef (Qmax (nextStartTimeRef r) clock) r)
             w in
  let '(source, w) := alloc w in
  let w := emit [SourceStart source buffer (nextStartTimeRef (refs w))] w in
  let w := with_refs
             (fun r => set_nextStartTimeRef
                         (nextStartTimeRef r + Codec.duration buffer) r) w in
  let w := with_refs
             (fun r => set_audioQueueRef (audioQueueRef r ++ [source]) r) w in
  emit [AIResponse "Speaking..."] w.

(** The speech branch; [None] when decoding raises, which ends the
    handler. *)
Definition speech (audio : string) (clock : Q) (w : World) : option World :=
  if String.eqb audio "" then Some w
  else
    match outputContextRef (refs w) with
    | None => Some w
    | Some ctx =>
        match Codec.decode audio with
        | None => None
        | Some rawBytes =>
            match Codec.decodeAudioData rawBytes 24000 1 with
            | None => None
            | Some buffer => Some (scheduleBuffer clock buffer w)
            end
        end
    end.

(** The interruption branch. *)
Definition interruption (w : World) : World :=
  let w := emit (map SourceStop (audioQueueRef (refs w))) w in
  let w := with_refs (set_audioQueueRef []) w in
  let w := with_refs (set_nextStartTimeRef 0) w in
  emit [AIResponse "Listening..."] w.

Section Tools.

(** The caller's handler: it answers a value, or fails ([None]), and
    has a state [H] of its own. *)
Context {H : Type}.
Variable onToolCall : string -> JSValue -> H -> option JSValue * H.

(** The loop over [msg.toolCall.functionCalls].  The handler is called,
    and the loop waits for its answer: at this [await] the jobs queued so
    far run, the response to the call before among them.  Then the
    response is handed to the session promise, or the failure logged. *)
Fixpoint dispatch (session : id) (calls : list FunctionCall)
    (w : World) (h : H) : World * H :=
  match calls with
  | [] => (w, h)
  | fc :: rest =>
      let w := emit [AIResponse ("Running: " ++ fc_name fc);
                     ToolCall (fc_name fc) (fc_args fc)] w in
      let '(result, h) := onToolCall (fc_name fc) (fc_args fc) h in
      let w := drain w in
      let w :=
        match result with
        | Some v =>
            then_ session
              (SendToolResponse session (fc_id fc) (fc_name fc)
                 (if truthy v then v else VString "done")) w
        | None => emit [ConsoleError] w
        end in
      dispatch session rest w h
  end.

Definition onmessage (session : id) (msg : LiveServerMessage) (clock : Q)
    (w : World) (h : H) : World * H :=
  match sessions w !! session with
  | None => (w, h)
  | Some c =>
      if negb (is_mounted (c_run c) w) then (w, h)
      else
        let w := match inputTranscription msg with
                 | Some text => emit [UserTranscript text] w
                 | None => w
                 end in
        let spoken := match audioData msg with
                      | Some audio => speech audio clock w
                      | None => Some w
                      end in
        match spoken with
        | None => (w, h)
        | Some w =>
            let w := if interrupted msg then interruption w else w in
            match toolCall msg with
            | Some calls => dispatch session calls w h
            | None => (w, h)
            end
        end
  end.

(** Everything that can happen to the component. *)
Inductive Event :=
| Render (isActive : bool) (mode : ListeningMode) (apiKey : bool)
| Unmount
| UserMediaResolved (task : id) (inputSuspended outputSuspended : bool)
| ResumeResolved (task : id)
| SetupRejected (task : id)
| Opened (session : id)         (* the connection opens *)
| AudioProcess (session : id) (inputData : list Q)
| Message (session : id) (msg : LiveServerMessage) (clock : Q)
| Closed (session : id)
| Errored (session : id)
| Ended (source : id).

(** The handler of an event. *)
Definition handle (ev : Event) (wh : World * H) : World * H :=
  let '(w, h) := wh in
  match ev with
  | Render isActive mode apiKey => (runEffect isActive mode apiKey w, h)
  | Unmount => (unmount w, h)
  | UserMediaResolved task i o => (userMediaResolved task i o w, h)
  | ResumeResolved task => (resumeResolved task w, h)
  | SetupRejected task => (setupRejected task w, h)
  | Opened session => (fulfil session (onopen session w), h)
  | AudioProcess session inputData => (onaudioprocess session inputData w, h)
  | Message session msg clock => onmessage session msg clock w h
  | Closed session => (onclose session w, h)
  | Errored session => (onerror session w, h)
  | Ended source => (onended source w, h)
  end.

(** An event is one task of the event loop: its handler runs, then the
    jobs that are queued. *)
Definition step (ev : Event) (wh : World * H) : World * H :=
  let '(w, h) := handle ev wh in (drain w, h).

Definition run (evs : list Event) (wh : World * H) : World * H :=
  fold_left (fun s ev => step ev s) evs wh.

End Tools.

(** *** What a log says *)

Definition sessions_opened (l : list Effect) : list id :=
  flat_map (fun e => match e with LiveConnect s _ => [s] | _ => [] end) l.

Definition sessions_closed (l : list Effect) : list id :=
  flat_map (fun e => match e with SessionClose s => [s] | _ => [] end) l.

Definition streams_opened (l : list Effect) : list id :=
  flat_map (fun e => match e with StreamOpened s => [s] | _ => [] end) l.

Definition streams_stopped (l : list Effect) : list id :=
  flat_map (fun e => match e with TrackStop s => [s] | _ => [] end) l.

Definition contexts_opened (l : list Effect) : list id :=
  flat_map (fun e => match e with NewAudioContext c _ => [c] | _ => [] end) l.

Definition contexts_closed (l : list Effect) : list id :=
  flat_map (fun e => match e with ContextClose c => [c] | _ => [] end) l.

(** The plan of a log: for each buffer started, in order, its planned
    start and its planned end, the start plus the buffer's duration. *)
Definition plan (l : list Effect) : list (Q * Q) :=
  flat_map (fun e => match e with
                     | SourceStart _ buffer when =>
                         [(when, when + Codec.duration buffer)%Q]
                     | _ => []
                     end) l.

Definition sources_stopped (l : list Effect) : list id :=
  flat_map (fun e => match e with SourceStop s => [s] | _ => [] end) l.

(** The sessions, streams and contexts that are open after a log. *)
Definition live_sessions (w : World) : list id :=
  List.filter (fun s => negb (mem s (sessions_closed (log w))))
              (sessions_opened (log w)).

Definition live_streams (w : World) : list id :=
  List.filter (fun s => negb (mem s (streams_stopped (log w))))
              (streams_opened (log w)).

Definition live_contexts (w : World) : list id :=
  List.filter (fun c => negb (mem c (contexts_closed (log w))))
              (contexts_opened (log w)).

(** The releases of a log: what must not happen twice. *)
Definition is_release (e : Effect) : bool :=
  match e with
  | SessionClose _ | TrackStop _ | ProcessorDisconnect _ | ContextClose _
  | SourceStop _ => true
  | _ => false
  end.

Definition releases (l : list Effect) : list Effect := List.filter is_release l.

End LiveVoiceAgent.

(** ** The handlers of [App] that drive the deck *)

Module App.

(** Track navigation, the swipe gestures and the retry policy of the
    error callback.  Of the component's state the model keeps what these
    handlers read and write; [showToast], [playTrack],
    [audioService.setVolume] and [setTimeout(nextTrack, 1000)] are
    recorded in a log, in the order of the calls. *)

Inductive Toast :=
| NextTrackToast             (* "Next Track" *)
| PreviousTrackToast         (* "Previous Track" *)
| VolumeToast (newVol : Q)   (* `Volume: ${Math.round(newVol * 100)}%` *)
| RetryingToast              (* "Retrying Source..." *)
| SkippingToast.             (* "Source Unavailable - Skipping" *)

Section Handlers.

Context {Track : Type}.

Inductive Effect :=
| ShowToast (t : Toast)
| PlayTrack (t : option Track)      (* [playTrack(t)]; [None] is [undefined] *)
| AudioSetVolume (v : Q)            (* [audioService.setVolume(v)] *)
| NextTrackLater.                   (* [setTimeout(nextTrack, 1000)] *)

Record State := {
  currentPlaylist : option (list Track);
                        (* [currentPlaylist?.tracks], when there is one *)
  currentTrackIndex : Z;
  volume : Q;
  touchStartRef : option (Q * Q);
  retryCountRef : Z;
  log : list Effect
}.

Definition emit (es : list Effect) (st : State) : State :=
  {| currentPlaylist := currentPlaylist st;
     currentTrackIndex := currentTrackIndex st; volume := volume st;
     touchStartRef := touchStartRef st; retryCountRef := retryCountRef st;
     log := log st ++ es |}.

Definition setCurrentTrackIndex (i : Z) (st : State) : State :=
  {| currentPlaylist := currentPlaylist st; currentTrackIndex := i;
     volume := volume st; touchStartRef := touchStartRef st;
     retryCountRef := retryCountRef st; log := log st |}.

Definition setVolume (v : Q) (st : State) : State :=
  {| currentPlaylist := currentPlaylist st;
     currentTrackIndex := currentTrackIndex st; volume := v;
     touchStartRef := touchStartRef st; retryCountRef := retryCountRef st;
     log := log st |}.

Definition set_touchStartRef (t : option (Q * Q)) (st : State) : State :=
  {| currentPlaylist := currentPlaylist st;
     currentTrackIndex := currentTrackIndex st; volume := volume st;
     touchStartRef := t; retryCountRef := retryCountRef st; log := log st |}.

Definition set_retryCountRef (n : Z) (st : State) : State :=
  {| currentPlaylist := currentPlaylist st;
     currentTrackIndex := currentTrackIndex st; volume := volume st;
     touchStartRef := touchStartRef st; retryCountRef := n; log := log st |}.

(** [tracks[i]] for an integer [i]: [undefined] outside the array. *)
Definition at_index (tracks : list Track) (i : Z) : option Track :=
  if i <? 0 then None else nth_error tracks (Z.to_nat i).

(** [const currentTrack = currentPlaylist?.tracks[currentTrackIndex]] *)
Definition currentTrack (st : State) : option Track :=
  match currentPlaylist st with
  | Some tracks => at_index tracks (currentTrackIndex st)
  | None => None
  end.

(** [handleNextBtn()]; the remainder [%] has the sign of the dividend. *)
Definition handleNextBtn (st : State) : State :=
  let st := emit [ShowToast NextTrackToast] st in
  match currentPlaylist st with
  | None => st
  | Some tracks =>
      if (List.length tracks =? 0)%nat then st
      else
        let nextIdx :=
          Z.rem (currentTrackIndex st + 1) (Z.of_nat (List.length tracks)) in
        let st := setCurrentTrackIndex nextIdx st in
        emit [PlayTrack (at_index tracks nextIdx)] st
  end.

(** [handlePrevBtn()] *)
Definition handlePrevBtn (st : State) : State :=
  let st := emit [ShowToast PreviousTrackToast] st in
  match currentPlaylist st with
  | None => st
  | Some tracks =>
      if (List.length tracks =? 0)%nat then st
      else
        let prevIdx :=
          Z.rem (currentTrackIndex st - 1 + Z.of_nat (List.length tracks))
                (Z.of_nat (List.length tracks)) in
        let st := setCurrentTrackIndex prevIdx st in
        emit [PlayTrack (at_index tracks prevIdx)] st
  end.

(** The machine's subtraction and addition of two numbers, which round:
    the gestures are modelled for whatever they answer. *)
Variable fsub fadd : Q -> Q -> Q.

Definition gt (a b : Q) : bool := negb (Qle_bool a b).
Definition lt (a b : Q) : bool := negb (Qle_bool b a).

(** [handleTouchStart(e)], at the point [(x, y)]. *)
Definition handleTouchStart (x y : Q) (st : State) : State :=
  set_touchStartRef (Some (x, y)) st.

(** [handleTouchEnd(e)], at the point [(x, y)]. *)
Definition handleTouchEnd (x y : Q) (st : State) : State :=
  match touchStartRef st with
  | None => st
  | Some (x0, y0) =>
      let deltaX := fsub x x0 in
      let deltaY := fsub y y0 in
      let volume0 := volume st in
      let st :=
        if gt (Qabs deltaX) 50 && lt (Qabs deltaY) 50
        then if gt deltaX 0 then handlePrevBtn st else handleNextBtn st
        else st in
      let st :=
        if gt (Qabs deltaY) 50 && lt (Qabs deltaX) 50
        then
          let volChange := if gt deltaY 0 then (- (1 # 10))%Q else (1 # 10)%Q in
          let newVol := Qmax 0 (Qmin 1 (fadd volume0 volChange)) in
          emit [AudioSetVolume newVol; ShowToast (VolumeToast newVol)]
               (setVolume newVol st)
        else st in
      set_touchStartRef None st
  end.

(** The [onPlay] callback, as far as the retry counter goes. *)
Definition onPlay (st : State) : State := set_retryCountRef 0 st.

(** The [onError] callback. *)
Definition onError (st : State) : State :=
  if retryCountRef st <? 2 then
    let st := set_retryCountRef (retryCountRef st + 1) st in
    emit [ShowToast RetryingToast; PlayTrack (currentTrack st)] st
  else
    let st := emit [ShowToast SkippingToast] st in
    let st := set_retryCountRef 0 st in
    emit [NextTrackLater] st.

End Handlers.

Arguments Effect : clear implicits.
Arguments State : clear implicits.

End App.

(** * Properties *)

(** ** Base64 is reversible *)

Module Base64Facts.

Import Base64.
Local Open Scope N_scope.

Lemma list_ind3 {A} (P : list A -> Prop) :
  P [] -> (forall a, P [a]) -> (forall a b, P [a; b]) ->
  (forall a b c l, P l -> P (a :: b :: c :: l)) ->
  forall l, P l.
Proof.
  intros H0 H1 H2 H3.
  assert (forall l, P l /\ (forall a, P (a :: l)) /\ (forall a b, P (a :: b :: l)))
    as Hall.
  { induction l as [|x l (IH0 & IH1 & IH2)]; repeat split; auto. }
  intros l. apply Hall.
Qed.

(** The table, checked entry by entry. *)
Definition sextet_ok (n : N) : bool :=
  match sextet_of_char (char_of_sextet n) with
  | Some m => (m =? n)
  | None => false
  end
  && negb (is_whitespace (char_of_sextet n))
  && negb (char_of_sextet n =? "=")%char.

Lemma sextet_table_ok :
  forallb sextet_ok (map N.of_nat (seq 0 64)) = true.
Proof. vm_compute. reflexivity. Qed.

Lemma sextet_ok_lt n : n < 64 -> sextet_ok n = true.
Proof.
  intros Hn.
  pose proof sextet_table_ok as Ht.
  rewrite forallb_forall in Ht. apply Ht.
  apply in_map_iff. exists (N.to_nat n). split.
  - apply N2Nat.id.
  - apply in_seq. lia.
Qed.

Lemma sextet_of_char_of_sextet n :
  n < 64 -> sextet_of_char (char_of_sextet n) = Some n.
Proof.
  intros Hn. pose proof (sextet_ok_lt n Hn) as Hok.
  unfold sextet_ok in Hok.
  apply andb_prop in Hok as [Hok _]. apply andb_prop in Hok as [Hok _].
  destruct (sextet_of_char (char_of_sextet n)) as [m|]; [|discriminate].
  apply N.eqb_eq in Hok. congruence.
Qed.

Lemma char_of_sextet_not_space n :
  n < 64 -> is_whitespace (char_of_sextet n) = false.
Proof.
  intros Hn. pose proof (sextet_ok_lt n Hn) as Hok.
  unfold sextet_ok in Hok.
  apply andb_prop in Hok as [Hok _]. apply andb_prop in Hok as [_ Hok].
  now apply negb_true_iff in Hok.
Qed.

Lemma char_of_sextet_not_equals n :
  n < 64 -> (char_of_sextet n =? "=")%char = false.
Proof.
  intros Hn. pose proof (sextet_ok_lt n Hn) as Hok.
  unfold sextet_ok in Hok.
  apply andb_prop in Hok as [_ Hok].
  now apply negb_true_iff in Hok.
Qed.

Ltac euclid := Z.to_euclidean_division_equations; lia.

Lemma sextets_lt (l : list N) :
  Forall (fun a => a < 256) l -> Forall (fun n => n < 64) (sextets_of_octets l).
Proof.
  induction l as [|a|a b|a b c l IH] using list_ind3; intros Hl; simpl.
  - constructor.
  - inversion_clear Hl. repeat constructor; zify; euclid.
  - inversion_clear Hl as [|? ? ? Hb]. inversion_clear Hb.
    repeat constructor; zify; euclid.
  - inversion_clear Hl as [|? ? ? Hb]. inversion_clear Hb as [|? ? ? Hc].
    inversion_clear Hc.
    repeat (constructor; [zify; euclid|]). auto.
Qed.

Lemma octets_of_sextets_of_octets (l : list N) :
  Forall (fun a => a < 256) l -> octets_of_sextets (sextets_of_octets l) = l.
Proof.
  induction l as [|a|a b|a b c l IH] using list_ind3; intros Hl; simpl.
  - reflexivity.
  - inversion_clear Hl. f_equal. zify; euclid.
  - inversion_clear Hl as [|? ? ? Hb]. inversion_clear Hb.
    repeat f_equal; zify; euclid.
  - inversion_clear Hl as [|? ? ? Hb]. inversion_clear Hb as [|? ? ? Hc].
    inversion_clear Hc.
    rewrite IH by assumption.
    repeat f_equal; zify; euclid.
Qed.

Lemma sextets_of_chars_of_sextets (ns : list N) :
  Forall (fun n => n < 64) ns ->
  sextets_of_chars (map char_of_sextet ns) = Some ns.
Proof.
  induction 1 as [|n ns Hn _ IH]; simpl.
  - reflexivity.
  - now rewrite sextet_of_char_of_sextet, IH.
Qed.

(** The shape of an encoding: [k] full groups and a tail. *)
Lemma sextets_shape (l : list N) :
  exists k : nat,
    (List.length l = 3 * k + 0
     /\ List.length (sextets_of_octets l) = 4 * k + 0)%nat
    \/ (List.length l = 3 * k + 1
        /\ List.length (sextets_of_octets l) = 4 * k + 2)%nat
    \/ (List.length l = 3 * k + 2
        /\ List.length (sextets_of_octets l) = 4 * k + 3)%nat.
Proof.
  induction l as [|a|a b|a b c l IH] using list_ind3.
  - exists 0%nat. left. split; reflexivity.
  - exists 0%nat. right. left. split; reflexivity.
  - exists 0%nat. right. right. split; reflexivity.
  - destruct IH as [k IH]. exists (S k).
    cbn [sextets_of_octets List.length]. lia.
Qed.

Lemma mod_of_shape (k r m : nat) :
  (r < m)%nat -> ((m * k + r) mod m = r)%nat.
Proof.
  intros Hr.
  rewrite Nat.add_comm, Nat.mul_comm, Nat.Div0.mod_add.
  now apply Nat.mod_small.
Qed.

Lemma drop_equals_chars (cs : list ascii) :
  Forall (fun c => (c =? "=")%char = false) cs ->
  drop_equals (rev cs) = None.
Proof.
  intros Hcs. destruct (rev cs) as [|c r] eqn:Hr; [reflexivity|].
  simpl.
  assert (In c cs) as Hin.
  { apply in_rev. rewrite Hr. now left. }
  rewrite Forall_forall in Hcs. apply list_elem_of_In in Hin.
  now rewrite (Hcs c Hin).
Qed.

(** Padding goes, and what is left is a whole number of groups or a
    tail that decodes. *)
Lemma strip_padding_encoded (l : list N) :
  Forall (fun a => a < 256) l ->
  let cs := map char_of_sextet (sextets_of_octets l) in
  strip_padding (cs ++ padding (List.length l)) = cs
  /\ (List.length cs mod 4 =? 1)%nat = false.
Proof.
  intros Hl cs.
  assert (Forall (fun c => (c =? "=")%char = false) cs) as Hcs.
  { subst cs. apply Forall_map.
    eapply Forall_impl; [apply sextets_lt, Hl|].
    intros n Hn. now apply char_of_sextet_not_equals. }
  pose proof (drop_equals_chars cs Hcs) as Hdrop.
  assert (List.length cs = List.length (sextets_of_octets l)) as Hlen
    by (subst cs; apply length_map).
  unfold strip_padding, padding.
  destruct (sextets_shape l) as [k [[Hk Hs]|[[Hk Hs]|[Hk Hs]]]];
    rewrite Hk, length_app, Hlen, Hs.
  - rewrite (mod_of_shape k 0 3) by lia. simpl List.length.
    rewrite Nat.add_0_r, app_nil_r.
    rewrite (mod_of_shape k 0 4) by lia. simpl.
    now rewrite Hdrop.
  - rewrite (mod_of_shape k 1 3) by lia. simpl List.length.
    replace (4 * k + 2 + 2)%nat with (4 * (S k) + 0)%nat by lia.
    rewrite (mod_of_shape (S k) 0 4), (mod_of_shape k 2 4) by lia. simpl.
    rewrite rev_app_distr. simpl. now rewrite rev_involutive.
  - rewrite (mod_of_shape k 2 3) by lia. simpl List.length.
    replace (4 * k + 3 + 1)%nat with (4 * (S k) + 0)%nat by lia.
    rewrite (mod_of_shape (S k) 0 4), (mod_of_shape k 3 4) by lia. simpl.
    rewrite rev_app_distr. simpl. now rewrite Hdrop, rev_involutive.
Qed.

Lemma filter_all {A} (f : A -> bool) (l : list A) :
  Forall (fun x => f x = true) l -> List.filter f l = l.
Proof.
  induction 1 as [|x l Hx _ IH]; simpl; [reflexivity|].
  now rewrite Hx, IH.
Qed.

Lemma padding_not_space (n : nat) :
  Forall (fun c => negb (is_whitespace c) = true) (padding n).
Proof.
  unfold padding. destruct (n mod 3)%nat as [|[|[|?]]]; repeat constructor.
Qed.

(** [atob] undoes [btoa], on every binary string. *)
Lemma atob_btoa (binary : string) : atob (btoa binary) = Some binary.
Proof.
  unfold atob, btoa.
  set (octets := map N_of_ascii (list_ascii_of_string binary)).
  assert (Forall (fun a => a < 256) octets) as Hoct.
  { subst octets. apply Forall_map, Forall_forall. intros c _.
    apply N_ascii_bounded. }
  rewrite list_ascii_of_string_of_list_ascii.
  rewrite filter_all.
  2:{ apply Forall_app. split; [|apply padding_not_space].
      apply Forall_map.
      eapply Forall_impl; [apply sextets_lt, Hoct|].
      intros n Hn. simpl. now rewrite char_of_sextet_not_space. }
  destruct (strip_padding_encoded octets Hoct) as [-> ->].
  rewrite sextets_of_chars_of_sextets by now apply sextets_lt.
  rewrite octets_of_sextets_of_octets by assumption.
  subst octets. rewrite map_map.
  rewrite (map_ext _ (fun c => c)) by apply ascii_N_embedding.
  now rewrite map_id, string_of_list_ascii_of_string.
Qed.

End Base64Facts.

(** ** The codec *)

Module CodecFacts.

Import Codec.

Lemma decode_encode (bytes : list byte) : decode (encode bytes) = Some bytes.
Proof.
  unfold decode, encode. rewrite Base64Facts.atob_btoa.
  rewrite list_ascii_of_string_of_list_ascii, map_map.
  rewrite (map_ext _ (fun b => b)) by apply byte_of_ascii_of_byte.
  now rewrite map_id.
Qed.

Lemma u8_value (n : Z) : Z.of_N (Byte.to_N (u8 n)) = n mod 256.
Proof.
  unfold u8.
  destruct (Byte.of_N (Z.to_N (n mod 256))) as [b|] eqn:Hb.
  - apply Byte.to_of_N in Hb. rewrite Hb.
    apply Z2N.id. apply Z.mod_pos_bound. lia.
  - apply Byte.of_N_None_iff in Hb.
    pose proof (Z.mod_pos_bound n 256 ltac:(lia)). lia.
Qed.

Definition int16_range (v : Z) : Prop := -32768 <= v <= 32767.

Lemma int16_of_bytes_of_int16 (v : Z) :
  int16_range v ->
  int16_of_bytes (u8 (v mod 65536)) (u8 (v mod 65536 / 256)) = v.
Proof.
  unfold int16_range, int16_of_bytes. intros Hv.
  rewrite !u8_value.
  destruct (Z.ltb_spec
              ((v mod 65536) mod 256 + 256 * ((v mod 65536 / 256) mod 256))
              32768);
    Z.to_euclidean_division_equations; lia.
Qed.

Lemma int16_of_buffer_of_int16 (l : list Z) :
  Forall int16_range l -> int16_of_buffer (buffer_of_int16 l) = Some l.
Proof.
  induction 1 as [|v l Hv _ IH]; [reflexivity|].
  unfold buffer_of_int16 in *. cbn [flat_map bytes_of_int16 app].
  cbn [int16_of_buffer]. now rewrite IH, int16_of_bytes_of_int16.
Qed.

(** The low byte comes first, in two's complement. *)
Lemma bytes_of_int16_little_endian (v : Z) :
  bytes_of_int16 v = [u8 v; u8 (v / 256)].
Proof.
  unfold bytes_of_int16, u8.
  replace ((v mod 65536) mod 256) with (v mod 256)
    by (Z.to_euclidean_division_equations; lia).
  replace ((v mod 65536 / 256) mod 256) with ((v / 256) mod 256)
    by (Z.to_euclidean_division_equations; lia).
  reflexivity.
Qed.

Lemma toInt16_range (x : Q) : int16_range (toInt16 x).
Proof.
  unfold int16_range, toInt16.
  destruct (Z.ltb_spec (trunc x mod 65536) 32768);
    Z.to_euclidean_division_equations; lia.
Qed.

(** Truncation moves a number by less than one, toward zero. *)
Lemma trunc_close (x : Q) : (Qabs (inject_Z (trunc x) - x) < 1)%Q.
Proof.
  destruct x as [n d]. unfold trunc. cbn [Qnum Qden].
  apply Qabs_Qlt_condition.
  unfold Qlt, Qminus, Qplus, Qopp, inject_Z. cbn [Qnum Qden].
  split; Z.to_euclidean_division_equations; nia.
Qed.

(** In the half-open unit range the product is stored as it is
    truncated: the wrap does nothing. *)
Lemma toInt16_in_range (s : Q) :
  (-1 <= s)%Q -> (s < 1)%Q -> toInt16 (s * 32768) = trunc (s * 32768).
Proof.
  destruct s as [n d]. unfold Qle, Qlt, toInt16, trunc, Qmult.
  cbn [Qnum Qden]. intros Hlo Hhi.
  assert (-32768 <= n * 32768 ÷ Z.pos (d * 1) <= 32767) as Hq.
  { rewrite Pos.mul_1_r.
    split.
    - replace (-32768) with ((-32768 * Z.pos d) ÷ Z.pos d)
        by (rewrite Z.quot_mul; lia).
      apply Z.quot_le_mono; lia.
    - assert (n * 32768 ÷ Z.pos d < 32768); [|lia].
      destruct (Z_lt_le_dec n 0) as [Hneg|Hpos].
      + assert (n * 32768 ÷ Z.pos d <= 0 ÷ Z.pos d)
          by (apply Z.quot_le_mono; lia).
        rewrite Z.quot_0_l in *; lia.
      + apply Z.quot_lt_upper_bound; lia. }
  destruct (Z.ltb_spec ((n * 32768 ÷ Z.pos (d * 1)) mod 65536) 32768);
    Z.to_euclidean_division_equations; lia.
Qed.

Lemma map_nth_seq {A B} (f : A -> B) (d : A) (l : list A) :
  map (fun i => f (nth (i * 1 + 0) l d)) (seq 0 (List.length l)) = map f l.
Proof.
  apply (nth_ext _ _ (f d) (f d)).
  - now rewrite !length_map, length_seq.
  - intros i Hi. rewrite length_map, length_seq in Hi.
    rewrite (map_nth f l d).
    rewrite (nth_indep _ (f d) (f (nth (0 * 1 + 0) l d)))
      by now rewrite length_map, length_seq.
    rewrite (map_nth (fun i => f (nth (i * 1 + 0) l d)) (seq 0 (List.length l)) 0%nat).
    rewrite seq_nth by assumption.
    do 2 f_equal. lia.
Qed.

(** Decoding what [createBlob] packs, as one channel. *)
Lemma decode_createBlob (samples : list Q) (rate : Q) :
  samples <> [] -> (3000 <= rate)%Q -> (rate <= 768000)%Q ->
  exists bytes buffer,
    decode (data (createBlob samples)) = Some bytes
    /\ decodeAudioData bytes rate 1 = Some buffer
    /\ channelData buffer =
         [map (fun s => toInt16 (s * 32768) # 32768) samples]
    /\ frames buffer = List.length samples.
Proof.
  intros Hne Hlow Hhigh.
  exists (buffer_of_int16 (map (fun x => toInt16 (x * 32768)) samples)).
  unfold createBlob. cbn [data]. rewrite decode_encode.
  unfold decodeAudioData.
  rewrite int16_of_buffer_of_int16
    by (apply Forall_map, Forall_forall; intros; apply toInt16_range).
  rewrite Nat.div_1_r, length_map.
  assert (createBuffer_ok 1 (List.length samples) rate = true) as ->.
  { unfold createBuffer_ok.
    apply Qle_bool_iff in Hlow, Hhigh. rewrite Hlow, Hhigh.
    now destruct samples. }
  eexists. split; [reflexivity|]. split; [reflexivity|].
  cbn [channelData frames seq map]. split; [|reflexivity].
  f_equal.
  rewrite <- (length_map (fun x => toInt16 (x * 32768)) samples) at 1.
  rewrite (map_nth_seq (fun v => v # 32768) 0
             (map (fun x => toInt16 (x * 32768)) samples)).
  now rewrite map_map.
Qed.

Definition unit_range (s : Q) : Prop := (-1 <= s)%Q /\ (s <= 1)%Q.

Definition half_open_range (s : Q) : Prop := (-1 <= s)%Q /\ (s < 1)%Q.

Lemma trunc_int16_range (s : Q) :
  half_open_range s -> int16_range (trunc (s * 32768)).
Proof.
  intros [Hlo Hhi]. rewrite <- toInt16_in_range by assumption.
  apply toInt16_range.
Qed.

(** One sample, encoded and decoded, has moved by less than a quantum. *)
Lemma quantum_error (s : Q) :
  half_open_range s ->
  (Qabs ((toInt16 (s * 32768) # 32768) - s) < 1 # 32768)%Q.
Proof.
  intros [Hlo Hhi]. rewrite toInt16_in_range by assumption.
  pose proof (trunc_close (s * 32768)) as Hc.
  apply Qabs_Qlt_condition in Hc. apply Qabs_Qlt_condition.
  rewrite (Qmake_Qdiv (trunc (s * 32768)) 32768).
  set (t := inject_Z (trunc (s * 32768))) in *.
  change (inject_Z (Z.pos 32768)) with (32768 : Q).
  destruct Hc as [Hc1 Hc2]. clearbody t.
  unfold Qdiv. change (/ 32768)%Q with (1 # 32768)%Q.
  split; lra.
Qed.

(** Below full scale the round trip is within a quantum, sample by
    sample. *)
Lemma roundtrip_within_quantum (samples : list Q) (rate : Q) :
  samples <> [] -> (3000 <= rate)%Q -> (rate <= 768000)%Q ->
  Forall half_open_range samples ->
  exists bytes buffer decoded,
    decode (data (createBlob samples)) = Some bytes
    /\ decodeAudioData bytes rate 1 = Some buffer
    /\ channelData buffer = [decoded]
    /\ Forall2 (fun s r => (Qabs (r - s) < 1 # 32768)%Q) samples decoded.
Proof.
  intros Hne Hlow Hhigh Hall.
  destruct (decode_createBlob samples rate Hne Hlow Hhigh)
    as (bytes & buffer & Hd & Hb & Hc & _).
  exists bytes, buffer, (map (fun s => toInt16 (s * 32768) # 32768) samples).
  repeat split; try assumption.
  clear Hne Hd Hb Hc. induction Hall as [|s l Hs _ IH]; simpl.
  - constructor.
  - constructor; [now apply quantum_error|assumption].
Qed.

(** C2, at the failing input: the full-scale sample 1 is stored as
    -32768, for the product 32768 wraps around, and it comes back as -1,
    two units away from the original instead of 1/32768. *)
Theorem roundtrip_full_scale_wraps :
  exists bytes buffer,
    unit_range 1
    /\ decode (data (createBlob [1%Q])) = Some bytes
    /\ decodeAudioData bytes 16000 1 = Some buffer
    /\ channelData buffer = [[(-32768 # 32768)%Q]]
    /\ (Qabs ((-32768 # 32768) - 1) == 2)%Q
    /\ ~ (Qabs ((-32768 # 32768) - 1) <= 1 # 32768)%Q.
Proof.
  destruct (decode_createBlob [1%Q] 16000) as (bytes & buffer & Hd & Hb & Hc & _).
  - discriminate.
  - discriminate.
  - discriminate.
  - exists bytes, buffer. repeat split; try assumption; try discriminate.
    intros Hle. vm_compute in Hle. now apply Hle.
Qed.

(** The claim C3 as the specification words it: every sample of the unit
    range is stored as [round(sample * 32767)], clamped. *)
Definition quantizes_as_specified : Prop :=
  forall samples : list Q,
    Forall unit_range samples ->
    exists bytes,
      decode (data (createBlob samples)) = Some bytes
      /\ int16_of_buffer bytes = Some (map spec_quantize samples).

(** C3 fails as stated: the sample 3/4 is stored as 24576, which is
    [0.75 * 32768], where [round(0.75 * 32767)] is 24575. *)
Lemma quantizes_as_specified_fails : ~ quantizes_as_specified.
Proof.
  intros Hspec.
  destruct (Hspec [(3 # 4)%Q]) as (bytes & Hd & Hb).
  - repeat constructor; discriminate.
  - unfold createBlob in Hd. cbn [data] in Hd.
    rewrite decode_encode in Hd. injection Hd as <-.
    vm_compute in Hb. discriminate.
Qed.

(** C3, amended: every sample of [-1, 1) is stored as the truncation
    toward zero of [sample * 32768], a signed 16-bit integer; the
    integers are laid out low byte first, in base64, and the packet is
    tagged [audio/pcm;rate=16000]. *)
Theorem createBlob_quantizes (samples : list Q) :
  Forall half_open_range samples ->
  let int16 := map (fun s => trunc (s * 32768)) samples in
  Forall int16_range int16
  /\ decode (data (createBlob samples))
     = Some (flat_map (fun v => [u8 v; u8 (v / 256)]) int16)
  /\ int16_of_buffer (flat_map (fun v => [u8 v; u8 (v / 256)]) int16)
     = Some int16
  /\ mimeType (createBlob samples) = "audio/pcm;rate=16000"%string.
Proof.
  intros Hall int16.
  assert (Forall int16_range int16) as Hrange.
  { subst int16. apply Forall_map.
    eapply Forall_impl; [exact Hall|]. apply trunc_int16_range. }
  assert (map (fun x => toInt16 (x * 32768)) samples = int16) as Hq.
  { subst int16. apply map_ext_in. intros s Hs.
    rewrite Forall_forall in Hall. apply list_elem_of_In in Hs.
    destruct (Hall s Hs). now apply toInt16_in_range. }
  assert (flat_map (fun v => [u8 v; u8 (v / 256)]) int16
          = buffer_of_int16 int16) as Hbytes.
  { unfold buffer_of_int16. apply flat_map_ext.
    intros v. symmetry. apply bytes_of_int16_little_endian. }
  repeat split.
  - exact Hrange.
  - unfold createBlob. cbn [data]. now rewrite decode_encode, Hq, Hbytes.
  - rewrite Hbytes. now apply int16_of_buffer_of_int16.
Qed.

Lemma createBlob_quantizes_witness :
  Forall half_open_range [(3 # 4)%Q; (-1)%Q; 0%Q]
  /\ decode (data (createBlob [(3 # 4)%Q; (-1)%Q; 0%Q]))
     = Some (flat_map (fun v => [u8 v; u8 (v / 256)]) [24576; -32768; 0]).
Proof.
  assert (Forall half_open_range [(3 # 4)%Q; (-1)%Q; 0%Q]) as Hall.
  { repeat constructor; discriminate. }
  split; [exact Hall|].
  exact (proj1 (proj2 (createBlob_quantizes _ Hall))).
Defined.

End CodecFacts.

(** ** The playback deck *)

Module AudioServiceFacts.

Import AudioService.

(** Once the recovery has run, an error is only ever reported. *)
Lemma onerror_without_crossOrigin (st : State) :
  crossOrigin (audioElement st) <> Some "anonymous"%string ->
  onerror st = if onError (callbacks st) then emit CallOnError st else st.
Proof.
  intros Hc. unfold onerror.
  destruct (crossOrigin (audioElement st)) as [c|].
  - destruct (String.eqb_spec c "anonymous") as [->|_]; [congruence|].
    now rewrite andb_false_r.
  - now rewrite andb_false_r.
Qed.

Lemma onerror_recovers (st : State) :
  src (audioElement st) <> ""%string ->
  crossOrigin (audioElement st) = Some "anonymous"%string ->
  let st1 := onerror st in
  crossOrigin (audioElement st1) = None
  /\ isCorsRestricted st1 = true
  /\ src (audioElement st1) = src (audioElement st)
  /\ callbacks st1 = callbacks st
  /\ effects st1 =
       effects st ++ [SetSrc ""; SetSrc (src (audioElement st)); Play].
Proof.
  intros Hsrc Hc. unfold onerror. rewrite Hc.
  destruct (String.eqb_spec (src (audioElement st)) "") as [|_]; [easy|].
  cbn. rewrite <- !app_assoc. repeat split.
Qed.

Lemma iter_reports (n : nat) (st : State) :
  crossOrigin (audioElement st) = None ->
  onError (callbacks st) = true ->
  effects (Nat.iter n onerror st) = effects st ++ repeat CallOnError n
  /\ crossOrigin (audioElement (Nat.iter n onerror st)) = None
  /\ onError (callbacks (Nat.iter n onerror st)) = true.
Proof.
  intros Hc Hcb. induction n as [|n (IHe & IHc & IHcb)].
  - cbn. now rewrite app_nil_r.
  - rewrite Nat.iter_succ.
    rewrite onerror_without_crossOrigin by congruence.
    rewrite IHcb. cbn. rewrite IHe. repeat split; try assumption.
    rewrite <- app_assoc. f_equal.
    change [CallOnError] with (repeat CallOnError 1).
    rewrite <- repeat_app. now rewrite Nat.add_1_r.
Qed.

(** C6: an error on a loaded source that asks for anonymous
    cross-origin access drops the request, sets the restriction flag,
    reassigns the source and starts playback again, once, without telling
    the caller.  When that attempt fails too, by an error event or by a
    rejected start, the caller's [onError] is called and nothing is
    started again, however many errors follow; and an error on a source
    that does not ask for cross-origin access goes to [onError] at once. *)
Theorem cors_recovery_once (st other : State) (name : string) (n : nat) :
  src (audioElement st) <> ""%string ->
  crossOrigin (audioElement st) = Some "anonymous"%string ->
  onError (callbacks st) = true ->
  name <> "NotAllowedError"%string -> name <> "AbortError"%string ->
  crossOrigin (audioElement other) <> Some "anonymous"%string ->
  onError (callbacks other) = true ->
  let st1 := onerror st in
  (crossOrigin (audioElement st1) = None
   /\ isCorsRestricted st1 = true
   /\ src (audioElement st1) = src (audioElement st)
   /\ effects st1 =
        effects st ++ [SetSrc ""; SetSrc (src (audioElement st)); Play])
  /\ effects (onerror st1) = effects st1 ++ [CallOnError]
  /\ effects (playRejected name st1) = effects st1 ++ [CallOnError]
  /\ effects (Nat.iter n onerror st1) = effects st1 ++ repeat CallOnError n
  /\ count is_Play (Nat.iter n onerror st1) = S (count is_Play st)
  /\ effects (onerror other) = effects other ++ [CallOnError].
Proof.
  intros Hsrc Hc Hcb Hn1 Hn2 Hoc Hocb st1.
  destruct (onerror_recovers st Hsrc Hc) as (H1 & H2 & H3 & H4 & H5).
  fold st1 in H1, H2, H3, H4, H5.
  assert (onError (callbacks st1) = true) as Hcb1 by congruence.
  destruct (iter_reports n st1 H1 Hcb1) as (Hi & _ & _).
  repeat split; try assumption.
  - rewrite onerror_without_crossOrigin by congruence. now rewrite Hcb1.
  - unfold playRejected.
    destruct (String.eqb_spec name "NotAllowedError"); [easy|].
    destruct (String.eqb_spec name "AbortError"); [easy|].
    cbn. now rewrite Hcb1.
  - unfold count. rewrite Hi, H5, !List.filter_app, !length_app.
    replace (List.filter is_Play (repeat CallOnError n)) with (@nil Effect).
    + cbn. lia.
    + clear. induction n; [reflexivity|assumption].
  - rewrite onerror_without_crossOrigin by assumption. now rewrite Hocb.
Qed.

Definition all_callbacks : AudioCallbacks :=
  {| onTimeUpdate := true; onDurationChange := true; onPlay := true;
     onPause := true; onEnded := true; onVolumeChange := true;
     onError := true |}.

(** How a browser reports the sources of the examples: an origin
    without a path gets its final slash, the other URLs are in resolved
    form already. *)
Definition resolved (url : string) : string :=
  if String.eqb url "https://radio.example" then "https://radio.example/"
  else url.

(** A browser in which nothing fails, adding small numbers. *)
Definition sound_platform : Platform :=
  {| hasAudioCtor := true; contextSuspended := false;
     createSourceThrows := false; seekBeforeMetadataThrows := false;
     frequencyData := []; resolveUrl := resolved;
     fadd := fun x y => Finite (x + y) |}.

(** A deck playing a network stream, and one playing a local file. *)
Definition streaming : State :=
  run sound_platform
      [OpSetCallbacks all_callbacks;
       OpPlay "https://radio.example/live.mp3" None] constructor.

Definition local_file : State :=
  run sound_platform
      [OpSetCallbacks all_callbacks; OpPlay "blob:4f2a" None] constructor.

Lemma cors_recovery_once_witness :
  effects (onerror (onerror streaming))
  = effects (onerror streaming) ++ [CallOnError]
  /\ count is_Play (Nat.iter 3 onerror (onerror streaming))
     = S (count is_Play streaming).
Proof.
  assert (src (audioElement streaming) <> ""%string) as H1
    by (vm_compute; discriminate).
  assert (crossOrigin (audioElement streaming) = Some "anonymous"%string)
    as H2 by reflexivity.
  assert (onError (callbacks streaming) = true) as H3 by reflexivity.
  assert ("NotSupportedError"%string <> "NotAllowedError"%string) as H4
    by discriminate.
  assert ("NotSupportedError"%string <> "AbortError"%string) as H5
    by discriminate.
  assert (crossOrigin (audioElement local_file) <> Some "anonymous"%string)
    as H6 by (vm_compute; discriminate).
  assert (onError (callbacks local_file) = true) as H7 by reflexivity.
  pose proof (cors_recovery_once streaming local_file "NotSupportedError" 3
                H1 H2 H3 H4 H5 H6 H7) as (_ & Ha & _ & _ & Hb & _).
  split; [exact Ha|exact Hb].
Defined.

(** *** The restriction flag *)

Lemma init_keeps_flag pf st :
  isCorsRestricted st = true -> isCorsRestricted (init pf st) = true.
Proof.
  intros Hf. unfold init.
  repeat match goal with
         | |- context [if ?b then _ else _] => destruct b eqn:?
         end; cbn in *; try assumption; try reflexivity;
    rewrite ?Hf, ?andb_false_r in *; cbn in *; congruence.
Qed.

Lemma assign_currentTime_flag pf t st :
  isCorsRestricted (state_of (assign_currentTime pf t st)) = isCorsRestricted st.
Proof.
  unfold assign_currentTime.
  destruct t; try reflexivity.
  repeat match goal with
         | |- context [if ?b then _ else _] => destruct b
         end; reflexivity.
Qed.

Lemma seek_flag pf t st :
  isCorsRestricted (state_of (seek pf t st)) = isCorsRestricted st.
Proof.
  unfold seek.
  destruct (isFinite t); [|reflexivity]. cbn [negb].
  pose proof (assign_currentTime_flag pf t st) as Ha.
  destruct (0 <? readyState (audioElement st))%nat; [assumption|].
  destruct (assign_currentTime pf t st); assumption.
Qed.

(** The one call that clears the flag: [play] of a source that is not a
    local blob reference. *)
Definition clears_flag (op : Op) : bool :=
  match op with
  | OpPlay url _ => negb (String.eqb url "") && negb (String.prefix "blob:" url)
  | _ => false
  end.

(** The state of [play] once the cross-origin policy is chosen. *)
Definition after_policy (url : string) (st : State) : State :=
  if String.prefix "blob:" url
  then with_element (set_crossOrigin None) st
  else with_isCorsRestricted false
         (with_element (set_crossOrigin (Some "anonymous"%string)) st).

Lemma play_flag pf url startTime st :
  String.eqb url "" = false ->
  isCorsRestricted (state_of (play pf url startTime st)) =
  isCorsRestricted (init pf (after_policy url st)).
Proof.
  intros Hu. unfold play. rewrite Hu. fold (after_policy url st).
  set (st2 := init pf (after_policy url st)).
  set (st3 := if negb (String.eqb (src (audioElement st2)) url)
              then emit Load (emit (SetSrc url)
                                   (with_element (set_src (resolveUrl pf url)) st2))
              else st2).
  assert (isCorsRestricted st3 = isCorsRestricted st2) as H3
    by (subst st3; destruct (negb _); reflexivity).
  match goal with
  | |- context [if ?b then _ else _] => destruct b
  end.
  - pose proof (assign_currentTime_flag pf (default NaN startTime) st3) as Ha.
    destruct (assign_currentTime pf (default NaN startTime) st3);
      cbn in *; congruence.
  - cbn. assumption.
Qed.

Lemma init_leaves_flag_clear pf st :
  createSourceThrows pf = false -> isCorsRestricted st = false ->
  isCorsRestricted (init pf st) = false.
Proof.
  intros Hpf Hf. unfold init. rewrite Hpf.
  repeat match goal with
         | |- context [if ?b then _ else _] => destruct b eqn:?
         end; cbn in *; assumption.
Qed.

(** [play] of a network source clears the flag, unless connecting the
    analyser then fails. *)
Lemma play_clears_flag pf url startTime st :
  clears_flag (OpPlay url startTime) = true ->
  createSourceThrows pf = false ->
  isCorsRestricted (step pf (OpPlay url startTime) st) = false.
Proof.
  cbn [clears_flag step]. intros Hc Hpf.
  apply andb_prop in Hc as [Hu Hb].
  apply negb_true_iff in Hu, Hb.
  rewrite play_flag by assumption.
  apply init_leaves_flag_clear; [assumption|].
  unfold after_policy. now rewrite Hb.
Qed.

(** C8 as stated: whatever the deck has been through, no call or event
    makes a set flag unset. *)
Definition flag_never_reset : Prop :=
  forall (pf : Platform) (history : list Op) (op : Op),
    isCorsRestricted (run pf history constructor) = true ->
    isCorsRestricted (step pf op (run pf history constructor)) = true.

(** C8 fails as stated: the flag set by the recovery on one stream is
    cleared by [play] of the next. *)
Lemma flag_reset_by_play : ~ flag_never_reset.
Proof.
  intros Hnever.
  specialize (Hnever sound_platform
                [OpPlay "https://radio.example/live.mp3" None; EvError]
                (OpPlay "https://radio.example/next.mp3" None)
                eq_refl).
  vm_compute in Hnever. discriminate.
Qed.

(** A set flag stays set through every call and event except [play] of
    a source that is not a local blob reference. *)
Lemma flag_kept (pf : Platform) (op : Op) (st : State) :
  isCorsRestricted st = true ->
  clears_flag op = false ->
  isCorsRestricted (step pf op st) = true.
Proof.
  intros Hf Hop. destruct op; cbn [step].
  - now apply init_keeps_flag.
  - cbn [clears_flag] in Hop.
    destruct (String.eqb url "") eqn:Hu.
    + unfold play. now rewrite Hu.
    + rewrite play_flag by assumption. apply init_keeps_flag.
      cbn in Hop. apply negb_false_iff in Hop.
      unfold after_policy. now rewrite Hop.
  - unfold togglePlay. destruct (paused (audioElement st)).
    + cbn. now apply init_keeps_flag.
    + assumption.
  - now rewrite seek_flag.
  - unfold skip. now rewrite seek_flag.
  - destruct val; assumption.
  - unfold setCallbacks.
    repeat match goal with
           | |- context [if ?b then _ else _] => destruct b
           end; assumption.
  - unfold onerror.
    repeat match goal with
           | |- context [if ?b then _ else _] => destruct b
           end; try assumption; reflexivity.
  - unfold playRejected.
    repeat match goal with
           | |- context [if ?b then _ else _] => destruct b
           end; assumption.
Qed.

(** Whether [init] finds, or makes, the context and the analyser. *)
Definition graph_ready (pf : Platform) (st : State) : bool :=
  if negb (audioContext st) && hasAudioCtor pf then true
  else audioContext st && analyser st.

(** The calls that run [init]. *)
Definition runs_init (op : Op) (st : State) : bool :=
  match op with
  | OpInit => true
  | OpPlay url _ => negb (String.eqb url "")
  | OpTogglePlay => paused (audioElement st)
  | _ => false
  end.

(** [init], run by the call, gets to connect the element to the analyser
    and the platform raises. *)
Definition connection_raises (pf : Platform) (op : Op) (st : State) : bool :=
  runs_init op st && negb (source st) && graph_ready pf st
    && createSourceThrows pf.

(** The error event runs the recovery. *)
Definition recovers (op : Op) (st : State) : bool :=
  match op with
  | EvError =>
      negb (String.eqb (src (audioElement st)) "")
      && match crossOrigin (audioElement st) with
         | Some c => String.eqb c "anonymous"
         | None => false
         end
  | _ => false
  end.

(** What [init] does to the flag. *)
Lemma init_flag (pf : Platform) (st : State) :
  isCorsRestricted (init pf st) =
  isCorsRestricted st
  || (negb (source st) && graph_ready pf st && createSourceThrows pf).
Proof.
  destruct st as [ctx an so el cb fl ef].
  destruct pf as [ctor susp throws legacy fd res add].
  unfold init, graph_ready.
  cbn [audioContext analyser source isCorsRestricted hasAudioCtor
       contextSuspended createSourceThrows with_graph].
  destruct ctx, an, so, fl, ctor, susp, throws; reflexivity.
Qed.

Lemma after_policy_graph (pf : Platform) (url : string) (st : State) :
  source (after_policy url st) = source st
  /\ graph_ready pf (after_policy url st) = graph_ready pf st
  /\ isCorsRestricted (after_policy url st)
     = isCorsRestricted st && String.prefix "blob:" url.
Proof.
  unfold after_policy, graph_ready.
  destruct (String.prefix "blob:" url); cbn;
    rewrite ?andb_true_r, ?andb_false_r; repeat split.
Qed.

(** The flag after any call or event. *)
Lemma flag_after (pf : Platform) (op : Op) (st : State) :
  isCorsRestricted (step pf op st) =
  (isCorsRestricted st && negb (clears_flag op))
  || recovers op st || connection_raises pf op st.
Proof.
  unfold connection_raises.
  destruct op; cbn [step clears_flag recovers runs_init negb andb].
  - rewrite init_flag, andb_true_r, orb_false_r. reflexivity.
  - destruct (String.eqb url "") eqn:Hu; cbn [negb andb].
    + unfold play. rewrite Hu. cbn [state_of].
      now rewrite andb_true_r, !orb_false_r.
    + rewrite play_flag by assumption. rewrite init_flag.
      destruct (after_policy_graph pf url st) as (-> & -> & ->).
      rewrite negb_involutive, orb_false_r. reflexivity.
  - unfold togglePlay. destruct (paused (audioElement st)); cbn [andb].
    + change (isCorsRestricted (safePlay (init pf st)))
        with (isCorsRestricted (init pf st)).
      rewrite init_flag, andb_true_r, orb_false_r. reflexivity.
    + cbn. now rewrite andb_true_r, !orb_false_r.
  - rewrite seek_flag. now rewrite andb_true_r, !orb_false_r.
  - unfold skip. rewrite seek_flag. now rewrite andb_true_r, !orb_false_r.
  - rewrite andb_true_r, !orb_false_r. now destruct val.
  - rewrite andb_true_r, !orb_false_r. unfold setCallbacks.
    repeat match goal with
           | |- context [if ?b then _ else _] => destruct b
           end; reflexivity.
  - rewrite andb_true_r, orb_false_r. unfold onerror.
    destruct (negb (String.eqb (src (audioElement st)) "")
              && match crossOrigin (audioElement st) with
                 | Some c => String.eqb c "anonymous"
                 | None => false
                 end).
    + now rewrite orb_true_r.
    + rewrite orb_false_r.
      destruct (onError (callbacks st)); reflexivity.
  - rewrite andb_true_r, !orb_false_r. unfold playRejected.
    repeat match goal with
           | |- context [if ?b then _ else _] => destruct b
           end; reflexivity.
Qed.

(** C8, amended: a set flag stays set through every call and event
    except [play] of a source that is not a local blob reference, which
    clears it (it stays clear unless connecting the analyser then fails);
    a clear flag is set by the recovery on an error event, by [init] when
    it gets to connect the element to the analyser and the platform
    raises, and by nothing else; [init] does set it then. *)
Theorem flag_persists_except_play (pf : Platform) (op : Op) (st : State) :
  (isCorsRestricted st = true -> clears_flag op = false ->
   isCorsRestricted (step pf op st) = true)
  /\ (clears_flag op = true -> createSourceThrows pf = false ->
      isCorsRestricted (step pf op st) = false)
  /\ (isCorsRestricted st = false ->
      (isCorsRestricted (step pf op st) = true <->
       recovers op st = true \/ connection_raises pf op st = true))
  /\ (isCorsRestricted st = false -> isCorsRestricted (step pf op st) = true ->
      op = EvError \/ createSourceThrows pf = true)
  /\ (source st = false -> isCorsRestricted st = false ->
      graph_ready pf st = true -> createSourceThrows pf = true ->
      isCorsRestricted (init pf st) = true
      /\ isCorsRestricted (step pf OpInit st) = true)
  /\ isCorsRestricted (step pf op st) =
     (isCorsRestricted st && negb (clears_flag op))
     || recovers op st || connection_raises pf op st.
Proof.
  assert (isCorsRestricted st = false ->
          (isCorsRestricted (step pf op st) = true <->
           recovers op st = true \/ connection_raises pf op st = true))
    as Hset.
  { intros Hf. rewrite flag_after, Hf. cbn [andb orb].
    rewrite orb_true_iff. reflexivity. }
  split; [apply flag_kept|]. split.
  { destruct op; try discriminate. apply play_clears_flag. }
  split; [exact Hset|]. split.
  { intros Hf Hs. apply (proj1 (Hset Hf)) in Hs as [Hr|Hc].
    - left. destruct op; try discriminate. reflexivity.
    - right. unfold connection_raises in Hc.
      now apply andb_prop in Hc as [_ Hc]. }
  split; [|apply flag_after].
  intros Hso Hf Hg Hthrows. cbn [step].
  rewrite init_flag, Hso, Hf, Hg, Hthrows. split; reflexivity.
Qed.

(** A browser that refuses to connect the element to the analyser. *)
Definition refusing_platform : Platform :=
  {| hasAudioCtor := true; contextSuspended := false;
     createSourceThrows := true; seekBeforeMetadataThrows := false;
     frequencyData := []; resolveUrl := resolved;
     fadd := fun x y => Finite (x + y) |}.

Lemma flag_persists_except_play_witness :
  isCorsRestricted (onerror streaming) = true
  /\ isCorsRestricted
       (step sound_platform (OpPlay "blob:4f2a" None) (onerror streaming)) = true
  /\ isCorsRestricted
       (step sound_platform (OpPlay "https://radio.example/next.mp3" None)
             (onerror streaming)) = false
  /\ isCorsRestricted (step refusing_platform OpInit constructor) = true.
Proof.
  split; [reflexivity|]. split; [|split].
  - apply (proj1 (flag_persists_except_play sound_platform
                    (OpPlay "blob:4f2a" None) (onerror streaming)));
      reflexivity.
  - apply (proj1 (proj2 (flag_persists_except_play sound_platform
                           (OpPlay "https://radio.example/next.mp3" None)
                           (onerror streaming))));
      reflexivity.
  - exact (proj2 (proj1 (proj2 (proj2 (proj2 (proj2
             (flag_persists_except_play refusing_platform OpInit
                constructor)))))
             eq_refl eq_refl eq_refl eq_refl)).
Defined.

(** *** Seeking *)

(** C10: [seek] of a value that is not finite returns at once with the
    deck as it was, and [seek] returns, never raises, whatever number it
    is given: before metadata a failed assignment is caught. *)
Theorem seek_never_throws (pf : Platform) (time : JSNumber) (st : State) :
  seek pf NaN st = Returned st
  /\ seek pf PosInfinity st = Returned st
  /\ seek pf NegInfinity st = Returned st
  /\ exists st', seek pf time st = Returned st'.
Proof.
  repeat split.
  unfold seek, assign_currentTime.
  destruct time as [q| | |]; cbn [isFinite negb]; eauto.
  destruct (0 <? readyState (audioElement st))%nat; [eauto|].
  destruct (seekBeforeMetadataThrows pf); eauto.
Qed.

(** Where the platform refuses a position before metadata, the deck is
    left as it was. *)
Lemma seek_before_metadata_discarded (pf : Platform) (q : Q) (st : State) :
  readyState (audioElement st) = 0%nat ->
  seekBeforeMetadataThrows pf = true ->
  seek pf (Finite q) st = Returned st.
Proof.
  intros Hr Hpf. unfold seek, assign_currentTime.
  cbn [isFinite negb]. now rewrite Hr, Hpf.
Qed.

End AudioServiceFacts.

(** ** The streaming session *)

Module LiveVoiceAgentFacts.

Import LiveVoiceAgent.

Lemma plan_app (l1 l2 : list Effect) : plan (l1 ++ l2) = plan l1 ++ plan l2.
Proof. apply flat_map_app. Qed.

(** *** Scheduling *)

Definition accumulator (w : World) : Q := nextStartTimeRef (refs w).

Lemma scheduleBuffer_log clock buffer w :
  log (scheduleBuffer clock buffer w) =
  log w ++ [SourceStart (fresh w) buffer (Qmax (accumulator w) clock);
            AIResponse "Speaking..."].
Proof. unfold scheduleBuffer. cbn. now rewrite <- app_assoc. Qed.

Lemma scheduleBuffer_accumulator clock buffer w :
  accumulator (scheduleBuffer clock buffer w) =
  (Qmax (accumulator w) clock + Codec.duration buffer)%Q.
Proof. reflexivity. Qed.

Lemma scheduleBuffer_plan clock buffer w :
  plan (log (scheduleBuffer clock buffer w)) =
  plan (log w) ++ [(Qmax (accumulator w) clock,
                    (Qmax (accumulator w) clock + Codec.duration buffer)%Q)].
Proof. now rewrite scheduleBuffer_log, plan_app. Qed.

(** Buffers enqueued one after the other, each at its own reading of the
    clock. *)
Definition enqueue_all (frames : list (Q * Codec.AudioBuffer)) (w : World)
  : World :=
  fold_left (fun w f => scheduleBuffer (fst f) (snd f) w) frames w.

(** The plan that the accumulator dictates. *)
Fixpoint placed (acc : Q) (frames : list (Q * Codec.AudioBuffer))
  : list (Q * Q) :=
  match frames with
  | [] => []
  | (clock, buffer) :: rest =>
      let start := Qmax acc clock in
      (start, start + Codec.duration buffer)%Q
        :: placed (start + Codec.duration buffer) rest
  end.

Lemma enqueue_all_plan frames w :
  plan (log (enqueue_all frames w)) =
  plan (log w) ++ placed (accumulator w) frames.
Proof.
  revert w. induction frames as [|[clock buffer] rest IH]; intros w.
  - cbn. now rewrite app_nil_r.
  - cbn [enqueue_all fold_left fst snd placed].
    change (fold_left _ rest ?x) with (enqueue_all rest x).
    rewrite IH, scheduleBuffer_plan, scheduleBuffer_accumulator.
    now rewrite <- app_assoc.
Qed.

Lemma placed_length acc frames :
  List.length (placed acc frames) = List.length frames.
Proof.
  revert acc. induction frames as [|[clock buffer] rest IH]; intros acc.
  - reflexivity.
  - cbn. now rewrite IH.
Qed.


Lemma placed_lookup frames : forall acc w k clock buffer,
  accumulator w = acc ->
  frames !! k = Some (clock, buffer) ->
  placed acc frames !! k =
  Some (Qmax (accumulator (enqueue_all (take k frames) w)) clock,
        (Qmax (accumulator (enqueue_all (take k frames) w)) clock
         + Codec.duration buffer)%Q).
Proof.
  induction frames as [|[c b] rest IH]; intros acc w k clock buffer Hacc Hk.
  - discriminate.
  - destruct k as [|k].
    + injection Hk as -> ->. cbn. now rewrite Hacc.
    + cbn in Hk. cbn [placed take enqueue_all fold_left fst snd].
      change (fold_left _ (take k rest) ?x) with (enqueue_all (take k rest) x).
      rewrite <- Hacc.
      apply (IH _ (scheduleBuffer c b w) k clock buffer); [|assumption].
      apply scheduleBuffer_accumulator.
Qed.


Definition silence (frames : nat) : Codec.AudioBuffer :=
  {| Codec.numberOfChannels := 1; Codec.frames := frames;
     Codec.sampleRate := 24000;
     Codec.channelData := [repeat 0%Q frames] |}.

(** The handler of a caller that answers nothing. *)
Definition mute (name : string) (args : JSValue) (h : unit)
  : option JSValue * unit := (Some VUndefined, h).

Definition speech_message (audio : string) : LiveServerMessage :=
  {| inputTranscription := None; audioData := Some audio;
     interrupted := false; toolCall := None |}.

Definition interruption_message : LiveServerMessage :=
  {| inputTranscription := None; audioData := None;
     interrupted := true; toolCall := None |}.

(** Over a whole session, whatever happens in it: each buffer is planned
    to start no earlier than the end planned for the buffer started
    before it, be that one stopped since or not. *)
Definition never_overlapping : Prop :=
  forall (events : list Event) (k : nat) (a b : Q * Q),
    let w := fst (run mute events (initial, tt)) in
    plan (log w) !! k = Some a -> plan (log w) !! S k = Some b ->
    (snd a <= fst b)%Q.

(** A payload of [3 * groups] zero bytes. *)
Definition silent_payload (groups : nat) : string :=
  string_of_list_ascii (repeat "A"%char (4 * groups)).

(** One session: a tenth of a second of speech arrives at clock 1, the
    model is interrupted at 1.02, and speech arrives again at 1.05. *)
Definition interrupted_session : list Event :=
  [Render true NIGHT_BRAIN true; UserMediaResolved 1%nat false false;
   Opened 5%nat;
   Message 5%nat (speech_message (silent_payload 1600)) 1;
   Message 5%nat interruption_message (102 # 100);
   Message 5%nat (speech_message (silent_payload 1600)) (105 # 100)].

Lemma interrupted_session_plan :
  plan (log (fst (run mute interrupted_session (initial, tt)))) =
  [(1, 1 + (2400 # 1) / 24000); (105 # 100, (105 # 100) + (2400 # 1) / 24000)]%Q.
Proof. vm_compute. reflexivity. Qed.

(** An interruption starts the plan anew.  A buffer of 2400 frames is
    planned at clock 1, to end at 1.1; the model is interrupted, which
    stops the buffer and resets the accumulator; the next buffer is planned
    at its clock reading, 1.05, before the end that was planned for the
    buffer that has been stopped. *)
Lemma interruption_restarts_the_plan : ~ never_overlapping.
Proof.
  intros Hnever.
  specialize (Hnever interrupted_session 0%nat
                (1, 1 + (2400 # 1) / 24000)%Q
                (105 # 100, (105 # 100) + (2400 # 1) / 24000)%Q).
  cbv zeta in Hnever. rewrite interrupted_session_plan in Hnever.
  specialize (Hnever eq_refl eq_refl).
  vm_compute in Hnever. now apply Hnever.
Qed.



(** A message that only carries speech is scheduled, when the session is
    mounted, the output context is there and the payload decodes. *)
Lemma onmessage_speech {H : Type}
    (onToolCall : string -> JSValue -> H -> option JSValue * H)
    session c ctx audio rawBytes buffer clock w h :
  sessions w !! session = Some c ->
  is_mounted (c_run c) w = true ->
  outputContextRef (refs w) = Some ctx ->
  audio <> ""%string ->
  Codec.decode audio = Some rawBytes ->
  Codec.decodeAudioData rawBytes 24000 1 = Some buffer ->
  onmessage onToolCall session (speech_message audio) clock w h
  = (scheduleBuffer clock buffer w, h).
Proof.
  intros Hs Hm Hctx Hne Hd Hb. unfold onmessage, speech_message, speech.
  cbn [inputTranscription audioData interrupted toolCall].
  rewrite Hs, Hm. cbn [negb].
  destruct (String.eqb_spec audio "") as [|_]; [contradiction|].
  now rewrite Hctx, Hd, Hb.
Qed.

(** A message that only carries the interruption signal runs the
    interruption branch. *)
Lemma onmessage_interrupted {H : Type}
    (onToolCall : string -> JSValue -> H -> option JSValue * H)
    session c clock w h :
  sessions w !! session = Some c ->
  is_mounted (c_run c) w = true ->
  onmessage onToolCall session interruption_message clock w h
  = (interruption w, h).
Proof. intros Hs Hm. unfold onmessage. now rewrite Hs, Hm. Qed.

(** *** Teardown *)

Lemma sources_stopped_app l1 l2 :
  sources_stopped (l1 ++ l2) = sources_stopped l1 ++ sources_stopped l2.
Proof. apply flat_map_app. Qed.

Lemma sources_stopped_stops (q : list id) :
  sources_stopped (map SourceStop q) = q.
Proof. induction q as [|s q IH]; cbn; [reflexivity|f_equal; exact IH]. Qed.

Definition held (o : option id) (e : id -> Effect) : list Effect :=
  match o with Some x => [e x] | None => [] end.

(** What [cleanup] releases itself: whatever the refs hold but the
    session, and the queue. *)
Lemma cleanup_log (run : id) (w : World) :
  log (cleanup run w) =
  log w ++ held (streamRef (refs w)) TrackStop
        ++ held (processorRef (refs w)) ProcessorDisconnect
        ++ held (inputContextRef (refs w)) ContextClose
        ++ held (outputContextRef (refs w)) ContextClose
        ++ map SourceStop (audioQueueRef (refs w)).
Proof.
  unfold cleanup, then_. destruct w as [r m c t s fu re mi f l].
  destruct r as [st se ic inp out str pr nx q].
  destruct se as [se|]; [cbn; destruct (existsb (Nat.eqb se) fu)|];
    destruct str, pr, inp, out; cbn; rewrite <- ?app_assoc; reflexivity.
Qed.

(** The closing of the session is left to its promise. *)
Lemma cleanup_jobs (run : id) (w : World) :
  microtasks (cleanup run w) =
    match sessionRef (refs w) with
    | Some s => if mem s (fulfilled w)
                then microtasks w ++ [SessionClose s] else microtasks w
    | None => microtasks w
    end
  /\ reactions (cleanup run w) =
       match sessionRef (refs w) with
       | Some s => if mem s (fulfilled w) then reactions w
                   else reactions w ++ [(s, SessionClose s)]
       | None => reactions w
       end.
Proof.
  unfold cleanup, then_. destruct w as [r m c t s fu re mi f l].
  destruct r as [st se ic inp out str pr nx q].
  destruct se as [se|]; [cbn; destruct (existsb (Nat.eqb se) fu)|];
    destruct str, pr, inp, out; split; reflexivity.
Qed.

Lemma cleanup_refs (run : id) (w : World) :
  refs (cleanup run w) =
  {| status := idle; sessionRef := None; isConnectingRef := false;
     inputContextRef := None; outputContextRef := None; streamRef := None;
     processorRef := None; nextStartTimeRef := nextStartTimeRef (refs w);
     audioQueueRef := [] |}.
Proof.
  unfold cleanup, then_. destruct w as [r m c t s fu re mi f l].
  destruct r as [st se ic inp out str pr nx q].
  destruct se as [se|]; [cbn; destruct (existsb (Nat.eqb se) fu)|];
    destruct str, pr, inp, out; reflexivity.
Qed.

Lemma cleanup_unmounts (run : id) (w : World) :
  is_mounted run (cleanup run w) = false.
Proof.
  unfold cleanup, then_. destruct w as [r m c t s fu re mi f l].
  destruct r as [st se ic inp out str pr nx q].
  unfold is_mounted.
  destruct se as [se|]; [cbn; destruct (existsb (Nat.eqb se) fu)|];
    destruct str, pr, inp, out; cbn; now rewrite lookup_insert_eq.
Qed.

Lemma cleanup_keeps (run : id) (w : World) :
  sessions (cleanup run w) = sessions w
  /\ tasks (cleanup run w) = tasks w
  /\ fulfilled (cleanup run w) = fulfilled w
  /\ fresh (cleanup run w) = fresh w.
Proof.
  unfold cleanup, then_. destruct w as [r m c t s fu re mi f l].
  destruct r as [st se ic inp out str pr nx q].
  destruct se as [se|]; [cbn; destruct (existsb (Nat.eqb se) fu)|];
    destruct str, pr, inp, out; repeat split.
Qed.

(** A second teardown finds the refs empty: it releases nothing, asks
    for nothing, and raises nothing. *)
Lemma cleanup_twice (run run' : id) (w : World) :
  log (cleanup run' (cleanup run w)) = log (cleanup run w)
  /\ refs (cleanup run' (cleanup run w)) = refs (cleanup run w)
  /\ microtasks (cleanup run' (cleanup run w)) = microtasks (cleanup run w)
  /\ reactions (cleanup run' (cleanup run w)) = reactions (cleanup run w).
Proof.
  destruct (cleanup_jobs run' (cleanup run w)) as [Hm Hr].
  rewrite cleanup_refs in Hm, Hr. cbn [sessionRef] in Hm, Hr.
  split; [|split; [|split; assumption]].
  - rewrite (cleanup_log run' (cleanup run w)), cleanup_refs. cbn.
    now rewrite app_nil_r.
  - now rewrite (cleanup_refs run' (cleanup run w)), !cleanup_refs.
Qed.

(** A session that has played one frame of speech at clock 5 and is then
    torn down. *)
Definition spoken_then_torn_down : World :=
  fst (run mute
         [Render true NIGHT_BRAIN true; UserMediaResolved 1%nat false false;
          Opened 5%nat; Message 5%nat (speech_message "AAA=") 5; Unmount]
         (initial, tt)).

(** C5, at the failing input: [cleanup] releases what the refs hold and
    returns the status to idle, but it never writes the scheduling
    clock; after a session that has spoken, the clock keeps its value,
    here 5 + 1/24000, where the interruption branch resets it to 0. *)
Theorem cleanup_keeps_the_clock :
  (forall run w,
      nextStartTimeRef (refs (cleanup run w)) = nextStartTimeRef (refs w))
  /\ status (refs spoken_then_torn_down) = idle
  /\ audioQueueRef (refs spoken_then_torn_down) = []
  /\ live_sessions spoken_then_torn_down = []
  /\ (nextStartTimeRef (refs spoken_then_torn_down) == 5 + (1 # 24000))%Q
  /\ ~ (nextStartTimeRef (refs spoken_then_torn_down) == 0)%Q.
Proof.
  split; [intros; now rewrite cleanup_refs|].
  repeat split. intros H. vm_compute in H. discriminate.
Qed.

(** *** The parts of a message *)

(** The handler once the transcription and the speech of a message are
    dealt with; [None] when decoding raises, which ends the handler. *)
Definition heard (msg : LiveServerMessage) (clock : Q) (w : World)
  : option World :=
  let w1 := match inputTranscription msg with
            | Some text => emit [UserTranscript text] w
            | None => w
            end in
  match audioData msg with
  | Some audio => speech audio clock w1
  | None => Some w1
  end.

Lemma heard_keeps msg clock w w2 :
  heard msg clock w = Some w2 ->
  sessions w2 = sessions w /\ mounted w2 = mounted w
  /\ fulfilled w2 = fulfilled w /\ reactions w2 = reactions w
  /\ microtasks w2 = microtasks w
  /\ sources_stopped (log w2) = sources_stopped (log w)
  /\ releases (log w2) = releases (log w)
  /\ (audioData msg = None -> refs w2 = refs w).
Proof.
  unfold heard, speech. intros Hh.
  set (w1 := match inputTranscription msg with
             | Some text => emit [UserTranscript text] w
             | None => w
             end) in *.
  assert (sessions w1 = sessions w /\ mounted w1 = mounted w
          /\ fulfilled w1 = fulfilled w /\ reactions w1 = reactions w
          /\ microtasks w1 = microtasks w
          /\ sources_stopped (log w1) = sources_stopped (log w)
          /\ releases (log w1) = releases (log w)
          /\ refs w1 = refs w) as (H1 & H2 & H3 & H4 & H5 & H6 & H7 & H8).
  { subst w1. destruct (inputTranscription msg); cbn; repeat split.
    - rewrite sources_stopped_app. cbn. now rewrite app_nil_r.
    - unfold releases. rewrite List.filter_app. cbn. now rewrite app_nil_r. }
  clearbody w1.
  assert (forall buffer,
             sources_stopped (log (scheduleBuffer clock buffer w1))
             = sources_stopped (log w1)
             /\ releases (log (scheduleBuffer clock buffer w1))
                = releases (log w1)) as Hsb.
  { intros buffer. rewrite scheduleBuffer_log. split.
    - rewrite sources_stopped_app. cbn. now rewrite app_nil_r.
    - unfold releases. rewrite List.filter_app. cbn. now rewrite app_nil_r. }
  destruct (audioData msg) as [audio|].
  - destruct (String.eqb audio "");
      [injection Hh as <-; repeat split; try assumption; discriminate|].
    destruct (outputContextRef (refs w1));
      [|injection Hh as <-; repeat split; try assumption; discriminate].
    destruct (Codec.decode audio) as [rawBytes|]; [|discriminate].
    destruct (Codec.decodeAudioData rawBytes 24000 1) as [buffer|];
      [|discriminate].
    injection Hh as <-. destruct (Hsb buffer) as [Hs1 Hs2].
    rewrite Hs1, Hs2. repeat split; try assumption. discriminate.
  - injection Hh as <-. repeat split; auto.
Qed.

Lemma interruption_keeps (w : World) :
  sessions (interruption w) = sessions w
  /\ mounted (interruption w) = mounted w
  /\ fulfilled (interruption w) = fulfilled w
  /\ reactions (interruption w) = reactions w
  /\ microtasks (interruption w) = microtasks w
  /\ refs (interruption w)
     = set_nextStartTimeRef 0 (set_audioQueueRef [] (refs w))
  /\ log (interruption w)
     = log w ++ map SourceStop (audioQueueRef (refs w))
             ++ [AIResponse "Listening..."].
Proof.
  unfold interruption. cbn. rewrite <- app_assoc. repeat split.
Qed.

(** *** Tool calls *)

Definition invoked (l : list Effect) : list (string * JSValue) :=
  flat_map (fun e => match e with ToolCall n a => [(n, a)] | _ => [] end) l.

Definition responded (l : list Effect) : list (id * string * string * JSValue) :=
  flat_map (fun e => match e with
                     | SendToolResponse s c n r => [(s, c, n, r)]
                     | _ => []
                     end) l.

Definition errors_logged (l : list Effect) : nat :=
  List.length (List.filter (fun e => match e with ConsoleError => true | _ => false end) l).

Lemma invoked_app l1 l2 : invoked (l1 ++ l2) = invoked l1 ++ invoked l2.
Proof. apply flat_map_app. Qed.

Lemma responded_app l1 l2 : responded (l1 ++ l2) = responded l1 ++ responded l2.
Proof. apply flat_map_app. Qed.

Lemma errors_logged_app l1 l2 :
  errors_logged (l1 ++ l2) = (errors_logged l1 + errors_logged l2)%nat.
Proof. unfold errors_logged. now rewrite List.filter_app, length_app. Qed.

(** What the loop may do: announce, call the handler, answer, log. *)
Definition of_the_loop (e : Effect) : Prop :=
  match e with
  | AIResponse _ | ToolCall _ _ | SendToolResponse _ _ _ _
  | ConsoleError => True
  | _ => False
  end.

Lemma of_the_loop_quiet (l : list Effect) :
  Forall of_the_loop l -> sources_stopped l = [] /\ releases l = [].
Proof.
  induction 1 as [|e l He _ [IH1 IH2]]; [now split|].
  unfold releases in *. destruct e; try contradiction; cbn; now split.
Qed.

Section Dispatch.

Context {H : Type}.
Variable onToolCall : string -> JSValue -> H -> option JSValue * H.

(** What the handler answers to each call, one after the other. *)
Fixpoint settle (calls : list FunctionCall) (h : H)
  : list (FunctionCall * option JSValue) :=
  match calls with
  | [] => []
  | fc :: rest =>
      (fc, fst (onToolCall (fc_name fc) (fc_args fc) h))
        :: settle rest (snd (onToolCall (fc_name fc) (fc_args fc) h))
  end.

(** The handler's state after the calls. *)
Fixpoint after_calls (calls : list FunctionCall) (h : H) : H :=
  match calls with
  | [] => h
  | fc :: rest =>
      after_calls rest (snd (onToolCall (fc_name fc) (fc_args fc) h))
  end.

(** The response owed to a settled call. *)
Definition response (session : id) (s : FunctionCall * option JSValue)
  : list (id * string * string * JSValue) :=
  match snd s with
  | Some v => [(session, fc_id (fst s), fc_name (fst s),
                if truthy v then v else VString "done")]
  | None => []
  end.

Definition failed (s : FunctionCall * option JSValue) : bool :=
  match snd s with Some _ => false | None => true end.

(** The loop announces a call and hands it to the handler; while it
    waits for the answer the jobs queued so far run. *)
Lemma await_call (es : list Effect) (w : World) :
  log (drain (emit es w)) = log w ++ es ++ microtasks w
  /\ microtasks (drain (emit es w)) = []
  /\ refs (drain (emit es w)) = refs w
  /\ sessions (drain (emit es w)) = sessions w
  /\ mounted (drain (emit es w)) = mounted w
  /\ fulfilled (drain (emit es w)) = fulfilled w.
Proof. unfold drain. cbn. rewrite <- app_assoc. repeat split. Qed.

(** A job that sends a response. *)
Definition is_response (e : Effect) : Prop :=
  match e with SendToolResponse _ _ _ _ => True | _ => False end.

Lemma responses_only (l : list Effect) :
  Forall is_response l ->
  Forall of_the_loop l /\ invoked l = [] /\ errors_logged l = 0%nat.
Proof.
  induction 1 as [|e l He _ (IH1 & IH2 & IH3)]; [repeat split; constructor|].
  destruct e; try contradiction. cbn. repeat split; try assumption.
  constructor; [exact I|assumption].
Qed.

(** The loop, and the jobs it leaves when it ends. *)
Lemma dispatch_drained (session : id) (calls : list FunctionCall) :
  forall (w : World) (h : H),
    Forall is_response (microtasks w) ->
    let w' := drain (fst (dispatch onToolCall session calls w h)) in
    exists new,
      log w' = log w ++ new
      /\ Forall of_the_loop new
      /\ invoked new = map (fun fc => (fc_name fc, fc_args fc)) calls
      /\ errors_logged new
         = List.length (List.filter failed (settle calls h))
      /\ (mem session (fulfilled w) = true ->
          responded new
          = responded (microtasks w)
            ++ flat_map (response session) (settle calls h))
      /\ refs w' = refs w
      /\ sessions w' = sessions w
      /\ mounted w' = mounted w
      /\ fulfilled w' = fulfilled w
      /\ microtasks w' = []
      /\ snd (dispatch onToolCall session calls w h) = after_calls calls h.
Proof.
  induction calls as [|fc rest IH]; intros w h Hq w'.
  - destruct (responses_only _ Hq) as (Hq1 & Hq2 & Hq3).
    exists (microtasks w). subst w'. cbn.
    rewrite !app_nil_r. repeat split; assumption.
  - destruct (responses_only _ Hq) as (Hq1 & Hq2 & Hq3).
    subst w'. cbn [dispatch settle after_calls].
    destruct (onToolCall (fc_name fc) (fc_args fc) h) as [result h1] eqn:Hc.
    cbn [fst snd].
    set (es := [AIResponse ("Running: " ++ fc_name fc);
                ToolCall (fc_name fc) (fc_args fc)]).
    destruct (await_call es w) as (Hl & Hm & Hr & Hs & Hmo & Hf).
    set (w2 := drain (emit es w)) in *. clearbody w2.
    assert (Forall of_the_loop es) as Hes
      by (subst es; repeat constructor).
    assert (invoked es = [(fc_name fc, fc_args fc)]) as Hies by reflexivity.
    assert (errors_logged es = 0%nat) as Hees by reflexivity.
    assert (responded es = []) as Hres by reflexivity.
    clearbody es.
    destruct result as [v|].
    + set (job := SendToolResponse session (fc_id fc) (fc_name fc)
                    (if truthy v then v else VString "done")).
      assert (exists w3,
                 then_ session job w2 = w3
                 /\ log w3 = log w2 /\ refs w3 = refs w2
                 /\ sessions w3 = sessions w2 /\ mounted w3 = mounted w2
                 /\ fulfilled w3 = fulfilled w2
                 /\ microtasks w3
                    = (if mem session (fulfilled w2) then [job] else []))
        as (w3 & -> & Hl3 & Hr3 & Hs3 & Hmo3 & Hf3 & Hm3).
      { eexists. split; [reflexivity|]. unfold then_.
        destruct (mem session (fulfilled w2)); cbn; rewrite ?Hm; repeat split. }
      assert (Forall is_response (microtasks w3)) as Hq'.
      { rewrite Hm3. destruct (mem session (fulfilled w2)); repeat constructor. }
      destruct (IH w3 h1 Hq')
        as (new & Hln & Hfn & Hin & Hen & Hrn & Hrefs & Hss & Hms & Hfs
            & Hmi & Hh).
      exists (es ++ microtasks w ++ new).
      rewrite Hln, Hrefs, Hss, Hms, Hfs, Hl3, Hr3, Hs3, Hmo3, Hf3, Hl, Hr, Hs,
        Hmo, Hf.
      rewrite <- !app_assoc. split; [reflexivity|].
      split; [repeat (apply Forall_app; split); assumption|].
      rewrite !invoked_app, !errors_logged_app, Hin, Hen, Hies, Hees, Hq2, Hq3.
      split; [reflexivity|]. split; [reflexivity|].
      split.
      { intros Hful. rewrite !responded_app, Hrn by now rewrite Hf3, Hf.
        rewrite Hres, Hm3, Hf, Hful. reflexivity. }
      repeat split; assumption.
    + assert (Forall is_response (microtasks (emit [ConsoleError] w2))) as Hq'
        by (cbn; rewrite Hm; constructor).
      destruct (IH (emit [ConsoleError] w2) h1 Hq')
        as (new & Hln & Hfn & Hin & Hen & Hrn & Hrefs & Hss & Hms & Hfs
            & Hmi & Hh).
      exists (es ++ microtasks w ++ [ConsoleError] ++ new).
      rewrite Hln, Hrefs, Hss, Hms, Hfs.
      cbn [log refs sessions mounted fulfilled microtasks emit] in *.
      rewrite Hl, Hr, Hs, Hmo, Hf, Hm in *.
      rewrite <- !app_assoc. split; [reflexivity|].
      split.
      { repeat (apply Forall_app; split); try assumption.
        repeat constructor. }
      rewrite !invoked_app, !errors_logged_app, Hin, Hen, Hies, Hees, Hq2, Hq3.
      split; [reflexivity|]. split; [reflexivity|].
      split.
      { intros Hful. rewrite !responded_app, (Hrn Hful), Hres.
        cbn. reflexivity. }
      repeat split; assumption.
Qed.

(** A mounted session handles a message whose speech, if any, decodes:
    the interruption flag is looked at, then the tool calls. *)
Lemma onmessage_heard session c msg clock w w2 h :
  sessions w !! session = Some c ->
  is_mounted (c_run c) w = true ->
  heard msg clock w = Some w2 ->
  onmessage onToolCall session msg clock w h =
  match toolCall msg with
  | Some calls =>
      dispatch onToolCall session calls
        (if interrupted msg then interruption w2 else w2) h
  | None => (if interrupted msg then interruption w2 else w2, h)
  end.
Proof.
  intros Hs Hm Hh. unfold onmessage. rewrite Hs, Hm. cbn [negb].
  unfold heard in Hh. cbv zeta in Hh. now rewrite Hh.
Qed.

(** C7: a mounted session, whose connection is open, handles a message
    with tool calls whose speech part, if there is one, decodes.  The
    calls reach the handler one after the other in the order of arrival,
    each after the one before has settled; every call that the handler
    answers gets a response carrying the call's id and name and the
    result, or ["done"] when the result is falsy, in the same order; every
    call that fails is logged, and the calls after it are dispatched all
    the same; by the end of the task every response is sent, and the
    session is left as it was. *)
Theorem tool_calls_dispatched_in_order
    (session : id) (c : Closure) (msg : LiveServerMessage)
    (calls : list FunctionCall) (clock : Q) (w w2 : World) (h : H) :
  sessions w !! session = Some c ->
  is_mounted (c_run c) w = true ->
  mem session (fulfilled w) = true ->
  microtasks w = [] ->
  heard msg clock w = Some w2 ->
  toolCall msg = Some calls ->
  let w3 := if interrupted msg then interruption w2 else w2 in
  let w' := fst (step onToolCall (Message session msg clock) (w, h)) in
  exists new,
    log w' = log w3 ++ new
    /\ invoked new = map (fun fc => (fc_name fc, fc_args fc)) calls
    /\ responded new = flat_map (response session) (settle calls h)
    /\ errors_logged new = List.length (List.filter failed (settle calls h))
    /\ Forall of_the_loop new
    /\ refs w' = refs w3
    /\ sessions w' = sessions w
    /\ mounted w' = mounted w
    /\ microtasks w' = []
    /\ snd (step onToolCall (Message session msg clock) (w, h))
       = after_calls calls h.
Proof.
  intros Hs Hm Hful Hq Hh Hcalls w3 w'.
  destruct (heard_keeps msg clock w w2 Hh)
    as (Hs2 & Hm2 & Hf2 & _ & Hq2 & _).
  assert (sessions w3 = sessions w /\ mounted w3 = mounted w
          /\ fulfilled w3 = fulfilled w /\ microtasks w3 = [])
    as (Hs3 & Hm3 & Hf3 & Hq3).
  { subst w3. destruct (interrupted msg).
    - destruct (interruption_keeps w2) as (-> & -> & -> & _ & -> & _).
      now rewrite Hs2, Hm2, Hf2, Hq2, Hq.
    - now rewrite Hs2, Hm2, Hf2, Hq2, Hq. }
  assert (step onToolCall (Message session msg clock) (w, h)
          = (drain (fst (dispatch onToolCall session calls w3 h)),
             snd (dispatch onToolCall session calls w3 h))) as Hstep.
  { unfold step. cbn [handle].
    rewrite (onmessage_heard session c msg clock w w2 h Hs Hm Hh), Hcalls.
    fold w3. now destruct (dispatch onToolCall session calls w3 h). }
  subst w'. rewrite Hstep. cbn [fst snd].
  destruct (dispatch_drained session calls w3 h)
    as (new & Hl & Hfn & Hin & Hen & Hrn & Hrefs & Hss & Hms & _ & Hmi & Hh');
    [rewrite Hq3; constructor|].
  exists new. rewrite Hq3 in Hrn. cbn in Hrn.
  rewrite Hss, Hms, Hs3, Hm3.
  repeat split; try assumption.
  apply Hrn. now rewrite Hf3.
Qed.

(** C4: a mounted session handles a message that carries the
    interruption signal and whose speech part, if there is one, decodes.
    Every buffer of the active set is stopped, each once, in the order of
    the set, the one the message itself has brought included; the set is
    emptied and the accumulator reset to 0.  A second signal in a row
    stops nothing and leaves the refs as they are: the set is still empty
    and the accumulator still 0. *)
Theorem interruption_flushes
    (session : id) (c : Closure) (msg : LiveServerMessage) (clock clock' : Q)
    (w w2 : World) (h : H) :
  sessions w !! session = Some c ->
  is_mounted (c_run c) w = true ->
  microtasks w = [] ->
  interrupted msg = true ->
  heard msg clock w = Some w2 ->
  let wh1 := step onToolCall (Message session msg clock) (w, h) in
  let wh2 := step onToolCall (Message session interruption_message clock') wh1 in
  audioQueueRef (refs (fst wh1)) = []
  /\ nextStartTimeRef (refs (fst wh1)) = 0%Q
  /\ sources_stopped (log (fst wh1))
     = sources_stopped (log w) ++ audioQueueRef (refs w2)
  /\ (audioData msg = None -> audioQueueRef (refs w2) = audioQueueRef (refs w))
  /\ refs (fst wh2) = refs (fst wh1)
  /\ audioQueueRef (refs (fst wh2)) = []
  /\ nextStartTimeRef (refs (fst wh2)) = 0%Q
  /\ sources_stopped (log (fst wh2)) = sources_stopped (log (fst wh1))
  /\ releases (log (fst wh2)) = releases (log (fst wh1)).
Proof.
  intros Hs Hm Hq Hint Hh wh1 wh2.
  destruct (heard_keeps msg clock w w2 Hh)
    as (Hs2 & Hm2 & Hf2 & _ & Hq2 & Hst2 & _ & Hpure).
  destruct (interruption_keeps w2) as (Hs3 & Hm3 & Hf3 & _ & Hq3 & Hr3 & Hl3).
  (* the first signal *)
  assert (exists new,
             log (fst wh1) = log (interruption w2) ++ new
             /\ Forall of_the_loop new
             /\ refs (fst wh1) = refs (interruption w2)
             /\ sessions (fst wh1) = sessions w
             /\ mounted (fst wh1) = mounted w
             /\ microtasks (fst wh1) = [])
    as (new & Hl1 & Hfn & Hr1 & Hs1 & Hm1 & Hq1).
  { subst wh1. unfold step. cbn [handle].
    rewrite (onmessage_heard session c msg clock w w2 h Hs Hm Hh), Hint.
    destruct (toolCall msg) as [calls|].
    - destruct (dispatch_drained session calls (interruption w2) h)
        as (new & Hl & Hfn & _ & _ & _ & Hrefs & Hss & Hms & _ & Hmi & _);
        [rewrite Hq3, Hq2, Hq; constructor|].
      exists new.
      destruct (dispatch onToolCall session calls (interruption w2) h).
      cbn [fst] in *. rewrite Hss, Hms, Hs3, Hm3, Hs2, Hm2.
      repeat split; assumption.
    - exists []. unfold drain. cbn [fst log emit set_microtasks refs sessions
                                     mounted microtasks].
      rewrite Hq3, Hq2, Hq, Hs3, Hm3, Hs2, Hm2. repeat split. constructor. }
  destruct (of_the_loop_quiet new Hfn) as [Hsn Hrn].
  (* the second signal *)
  assert (fst wh2 = drain (interruption (fst wh1))) as H2.
  { subst wh2. destruct wh1 as [w1 h1]. cbn [fst] in *.
    unfold step. cbn [handle].
    rewrite (onmessage_interrupted onToolCall session c clock' w1 h1)
      by (rewrite ?Hs1, ?Hm1; unfold is_mounted in *; rewrite ?Hm1;
          assumption).
    reflexivity. }
  assert (refs (fst wh1)
          = set_nextStartTimeRef 0 (set_audioQueueRef [] (refs w2))) as Hr1'
    by now rewrite Hr1, Hr3.
  destruct (interruption_keeps (fst wh1)) as (_ & _ & _ & _ & Hq4 & Hr4 & Hl4).
  assert (log (fst wh2) = log (fst wh1) ++ [AIResponse "Listening..."]) as Hl2.
  { rewrite H2. unfold drain. cbn [log emit set_microtasks microtasks].
    rewrite Hq4, Hq1, Hl4, Hr1'. cbn. now rewrite app_nil_r. }
  assert (refs (fst wh2) = refs (fst wh1)) as Hr2.
  { rewrite H2. unfold drain. cbn [refs emit set_microtasks].
    rewrite Hr4, Hr1'. reflexivity. }
  split; [now rewrite Hr1'|]. split; [now rewrite Hr1'|].
  split.
  { rewrite Hl1, Hl3, !sources_stopped_app, sources_stopped_stops, Hsn, Hst2.
    cbn. now rewrite !app_nil_r. }
  split; [intros Hnone; now rewrite (Hpure Hnone)|].
  split; [exact Hr2|].
  split; [now rewrite Hr2, Hr1'|]. split; [now rewrite Hr2, Hr1'|].
  split.
  - rewrite Hl2, sources_stopped_app. cbn. now rewrite app_nil_r.
  - unfold releases. rewrite Hl2, List.filter_app. cbn. now rewrite app_nil_r.
Qed.

End Dispatch.

(** A handler that fails on [seek_audio] and answers nothing on
    [set_volume]; it counts its calls. *)
Definition picky (name : string) (args : JSValue) (h : nat)
  : option JSValue * nat :=
  if String.eqb name "seek_audio" then (None, S h)
  else if String.eqb name "set_volume" then (Some VUndefined, S h)
  else (Some (VString "Done"), S h).

Definition call (i n : string) : FunctionCall :=
  {| fc_id := i; fc_name := n; fc_args := VObject |}.

(** A session whose connection has opened. *)
Definition open_session : World :=
  fst (run mute
         [Render true NIGHT_BRAIN true; UserMediaResolved 1%nat false false;
          Opened 5%nat] (initial, tt)).

Definition three_calls : LiveServerMessage :=
  {| inputTranscription := None; audioData := None; interrupted := false;
     toolCall := Some [call "A" "control_playback"; call "B" "seek_audio";
                       call "C" "set_volume"] |}.

(** The response to a call is sent while the loop waits for the answer
    to the next call, or at the end of the task. *)
Example failure_of_B_does_not_stop_C :
  let '(w, h) := step picky (Message 5%nat three_calls 0) (open_session, 0%nat) in
  log w = log open_session ++
          [AIResponse "Running: control_playback";
           ToolCall "control_playback" VObject;
           AIResponse "Running: seek_audio";
           ToolCall "seek_audio" VObject;
           SendToolResponse 5%nat "A" "control_playback" (VString "Done");
           ConsoleError;
           AIResponse "Running: set_volume";
           ToolCall "set_volume" VObject;
           SendToolResponse 5%nat "C" "set_volume" (VString "done")]
  /\ h = 3%nat.
Proof. vm_compute. split; reflexivity. Qed.

Lemma tool_calls_dispatched_in_order_witness :
  exists new,
    log (fst (step picky (Message 5%nat three_calls 0) (open_session, 0%nat)))
    = log open_session ++ new
    /\ invoked new = [("control_playback"%string, VObject);
                      ("seek_audio"%string, VObject);
                      ("set_volume"%string, VObject)]
    /\ responded new
       = [(5%nat, "A"%string, "control_playback"%string, VString "Done");
          (5%nat, "C"%string, "set_volume"%string, VString "done")]
    /\ errors_logged new = 1%nat.
Proof.
  assert (sessions open_session !! 5%nat
          = Some {| c_run := 0%nat; c_stream := 2%nat; c_inputCtx := 3%nat |})
    as H1 by (vm_compute; reflexivity).
  assert (is_mounted 0%nat open_session = true) as H2
    by (vm_compute; reflexivity).
  assert (mem 5%nat (fulfilled open_session) = true) as H3
    by (vm_compute; reflexivity).
  assert (microtasks open_session = []) as H4 by (vm_compute; reflexivity).
  assert (heard three_calls 0 open_session = Some open_session) as H5
    by reflexivity.
  destruct (tool_calls_dispatched_in_order picky 5%nat _ three_calls _ 0
              open_session open_session 0%nat H1 H2 H3 H4 H5 eq_refl)
    as (new & Hl & Hi & Hr & He & _).
  exists new. split; [exact Hl|]. split; [exact Hi|]. split; [exact Hr|].
  exact He.
Defined.

(** One frame of speech is playing when the interruption arrives. *)
Definition speaking_session : World :=
  fst (run mute [Message 5%nat (speech_message "AAA=") 1] (open_session, tt)).

Lemma interruption_flushes_witness :
  audioQueueRef (refs speaking_session) = [7%nat]
  /\ sources_stopped
       (log (fst (step mute (Message 5%nat interruption_message 2)
                       (speaking_session, tt))))
     = [7%nat]
  /\ audioQueueRef
       (refs (fst (step mute (Message 5%nat interruption_message 2)
                        (speaking_session, tt)))) = [].
Proof.
  assert (sessions speaking_session !! 5%nat
          = Some {| c_run := 0%nat; c_stream := 2%nat; c_inputCtx := 3%nat |})
    as H1 by (vm_compute; reflexivity).
  assert (is_mounted 0%nat speaking_session = true) as H2
    by (vm_compute; reflexivity).
  assert (microtasks speaking_session = []) as H3 by (vm_compute; reflexivity).
  assert (heard interruption_message 2 speaking_session
          = Some speaking_session) as H4 by reflexivity.
  assert (audioQueueRef (refs speaking_session) = [7%nat]) as H5
    by (vm_compute; reflexivity).
  assert (sources_stopped (log speaking_session) = []) as H6
    by (vm_compute; reflexivity).
  destruct (interruption_flushes mute 5%nat _ interruption_message 2 3
              speaking_session speaking_session tt H1 H2 H3 eq_refl H4)
    as (Hq & _ & Hst & _).
  split; [exact H5|]. split; [|exact Hq].
  rewrite Hst, H6, H5. reflexivity.
Defined.

(** A message that only carries tool calls reaches the loop when the
    session is mounted. *)
Lemma onmessage_tool_calls {H : Type}
    (onToolCall : string -> JSValue -> H -> option JSValue * H)
    session c calls clock w h :
  sessions w !! session = Some c ->
  is_mounted (c_run c) w = true ->
  onmessage onToolCall session
    {| inputTranscription := None; audioData := None; interrupted := false;
       toolCall := Some calls |} clock w h
  = dispatch onToolCall session calls w h.
Proof. intros Hs Hm. unfold onmessage. now rewrite Hs, Hm. Qed.

(** *** Activation *)

(** While the flag is set, a call of [startSession] does nothing. *)
Lemma startSession_guard (run : id) (mode : ListeningMode) (w : World) :
  isConnectingRef (refs w) = true -> startSession run mode true w = w.
Proof. intros Hc. unfold startSession. now rewrite Hc. Qed.

(** The flag is cleared as soon as the connection is requested, while
    the status is still [connecting]. *)
Lemma flag_cleared_before_handshake :
  let w := fst (run mute
                  [Render true NIGHT_BRAIN true;
                   UserMediaResolved 1%nat false false] (initial, tt)) in
  status (refs w) = connecting /\ isConnectingRef (refs w) = false.
Proof. split; reflexivity. Qed.

(** The mode changes while the first activation waits for the
    microphone; then both microphone requests are granted. *)
Definition two_activations : list Event :=
  [Render true NIGHT_BRAIN true;
   Render true SUN_DAY true;
   UserMediaResolved 1%nat false false;
   UserMediaResolved 3%nat false false].

(** C9, at the failing input: the second activation arrives while the
    first waits for the microphone.  React has run the first cleanup,
    which clears [isConnectingRef], so the second [startSession] is not
    ignored; the first one resumes without looking at [mounted].  Two
    sessions are connected, two streams and four contexts are open; the
    refs hold the second set only, so a teardown, once both connections
    have opened or while they are opening, leaves the first session,
    stream and pair of contexts open. *)
Theorem second_activation_not_ignored :
  let w := fst (run mute two_activations (initial, tt)) in
  let later := fst (run mute [Opened 7%nat; Opened 11%nat; Unmount] (w, tt)) in
  let sooner := fst (run mute [Unmount; Opened 7%nat; Opened 11%nat] (w, tt)) in
  live_sessions w = [7; 11]%nat
  /\ live_streams w = [4; 8]%nat
  /\ live_contexts w = [5; 6; 9; 10]%nat
  /\ status (refs w) = connecting
  /\ live_sessions later = [7]%nat
  /\ live_streams later = [4]%nat
  /\ live_contexts later = [5; 6]%nat
  /\ live_sessions sooner = [7]%nat
  /\ live_streams sooner = [4]%nat
  /\ live_contexts sooner = [5; 6]%nat.
Proof. vm_compute. repeat split. Qed.

(** The same happens when the microphone button is tapped off and on
    while the first request is pending. *)
Example toggle_off_and_on :
  let w := fst (run mute
                  [Render true NIGHT_BRAIN true; Render false NIGHT_BRAIN true;
                   Render true NIGHT_BRAIN true;
                   UserMediaResolved 1%nat false false;
                   UserMediaResolved 4%nat false false] (initial, tt)) in
  live_sessions w = [8; 12]%nat /\ live_streams w = [5; 9]%nat.
Proof. vm_compute. split; reflexivity. Qed.

End LiveVoiceAgentFacts.

Example btoa_Man : Base64.btoa "Man" = "TWFu"%string.
Proof. reflexivity. Qed.

Example btoa_Ma : Base64.btoa "Ma" = "TWE="%string.
Proof. reflexivity. Qed.

Example atob_TQ : Base64.atob "TQ==" = Some "M"%string.
Proof. vm_compute. reflexivity. Qed.

Example createBlob_half :
  Codec.createBlob [1 # 2; - (1 # 2); 0; 9 # 10]%Q =
  {| Codec.data := "AEAAwAAAM3M="; Codec.mimeType := "audio/pcm;rate=16000" |}.
Proof. vm_compute. reflexivity. Qed.

Example roundtrip_one :
  match Codec.decode (Codec.data (Codec.createBlob [1; 1 # 2]%Q)) with
  | Some bytes => option_map Codec.channelData (Codec.decodeAudioData bytes 16000 1)
  | None => None
  end = Some [[ (-32768) # 32768; 16384 # 32768 ]%Q].
Proof. vm_compute. reflexivity. Qed.

(** * Further properties *)

(** ** More on the codec *)

Module CodecMore.

Import Codec CodecFacts.

Lemma sextets_length (l : list N) :
  (List.length (Base64.sextets_of_octets l)
   + List.length (Base64.padding (List.length l))
   = 4 * ((List.length l + 2) / 3))%nat.
Proof.
  unfold Base64.padding.
  destruct (Base64Facts.sextets_shape l) as [k [[Hk Hs]|[[Hk Hs]|[Hk Hs]]]];
    rewrite Hk, Hs.
  - rewrite (Base64Facts.mod_of_shape k 0 3) by lia. cbn [List.length].
    replace (3 * k + 0 + 2)%nat with (2 + k * 3)%nat by lia.
    rewrite Nat.div_add by lia. cbn. lia.
  - rewrite (Base64Facts.mod_of_shape k 1 3) by lia. cbn [List.length].
    replace (3 * k + 1 + 2)%nat with (3 + k * 3)%nat by lia.
    rewrite Nat.div_add by lia. cbn. lia.
  - rewrite (Base64Facts.mod_of_shape k 2 3) by lia. cbn [List.length].
    replace (3 * k + 2 + 2)%nat with (4 + k * 3)%nat by lia.
    rewrite Nat.div_add by lia. cbn. lia.
Qed.

Lemma length_string_of_list (l : list ascii) :
  String.length (string_of_list_ascii l) = List.length l.
Proof. induction l as [|c l IH]; cbn; [reflexivity|now rewrite IH]. Qed.

(** X1: [decode] undoes [encode] on every byte array, the empty one
    included, and the text that [encode] produces has four characters for
    every three bytes, the last group padded. *)
Theorem encode_decode_roundtrip (bytes : list byte) :
  decode (encode bytes) = Some bytes
  /\ String.length (encode bytes) = (4 * ((List.length bytes + 2) / 3))%nat.
Proof.
  split.
  - unfold decode, encode. rewrite Base64Facts.atob_btoa.
    rewrite list_ascii_of_string_of_list_ascii, map_map.
    rewrite (map_ext _ (fun b => b)) by apply byte_of_ascii_of_byte.
    now rewrite map_id.
  - unfold encode, Base64.btoa.
    rewrite length_string_of_list, list_ascii_of_string_of_list_ascii.
    rewrite length_app, !length_map.
    pose proof (sextets_length (map N_of_ascii (map ascii_of_byte bytes))) as Hl.
    now rewrite !length_map in Hl.
Qed.

Lemma int16_of_bytes_range (lo hi : byte) : int16_range (int16_of_bytes lo hi).
Proof.
  unfold int16_range, int16_of_bytes.
  pose proof (Byte.to_N_bounded lo). pose proof (Byte.to_N_bounded hi).
  destruct (Z.ltb_spec (Z.of_N (Byte.to_N lo) + 256 * Z.of_N (Byte.to_N hi)) 32768);
    lia.
Qed.

Lemma list_ind2 {A} (P : list A -> Prop) :
  P [] -> (forall a, P [a]) -> (forall a b l, P l -> P (a :: b :: l)) ->
  forall l, P l.
Proof.
  intros H0 H1 H2.
  assert (forall l, P l /\ forall a, P (a :: l)) as Hall.
  { induction l as [|x l [IH0 IH1]]; split; auto. }
  intros l. apply Hall.
Qed.

Lemma int16_of_buffer_some (bytes : list byte) : forall l,
  int16_of_buffer bytes = Some l ->
  List.length bytes = (2 * List.length l)%nat /\ Forall int16_range l.
Proof.
  induction bytes as [|a|a b rest IH] using list_ind2; intros l Hl.
  - injection Hl as <-. split; [reflexivity|constructor].
  - discriminate.
  - cbn [int16_of_buffer] in Hl.
    destruct (int16_of_buffer rest) as [l'|] eqn:Hr; [|discriminate].
    injection Hl as <-.
    destruct (IH _ eq_refl) as [Hlen Hall].
    split.
    + cbn [List.length] in *. lia.
    + constructor; [apply int16_of_bytes_range|assumption].
Qed.

Lemma int16_of_buffer_odd (bytes : list byte) :
  Nat.Odd (List.length bytes) -> int16_of_buffer bytes = None.
Proof.
  intros Hodd.
  destruct (int16_of_buffer bytes) as [l|] eqn:Hl; [|reflexivity].
  apply int16_of_buffer_some in Hl as [Hlen _].
  destruct Hodd as [k Hk]. lia.
Qed.

Lemma supported_low (rate : Q) : (8000 <= rate)%Q -> (3000 <= rate)%Q.
Proof. intros H. eapply Qle_trans; [|exact H]. discriminate. Qed.

Lemma supported_high (rate : Q) : (rate <= 96000)%Q -> (rate <= 768000)%Q.
Proof. intros H. eapply Qle_trans; [exact H|]. discriminate. Qed.

(** X2: below full scale the audio round trip loses less than one
    quantum.  A block of samples in [-1, 1), packed by [createBlob] and
    unpacked by [decode] and [decodeAudioData] as one channel, at a rate
    that every audio context supports (8000 to 96000 Hz, the two rates of
    the program among them), comes back with as many frames as it had
    samples, each within 1/32768 of the original. *)
Theorem capture_roundtrip_below_full_scale (samples : list Q) (rate : Q) :
  samples <> [] -> (8000 <= rate)%Q -> (rate <= 96000)%Q ->
  Forall half_open_range samples ->
  exists bytes buffer decoded,
    decode (data (createBlob samples)) = Some bytes
    /\ decodeAudioData bytes rate 1 = Some buffer
    /\ channelData buffer = [decoded]
    /\ frames buffer = List.length samples
    /\ Forall2 (fun s r => (Qabs (r - s) < 1 # 32768)%Q) samples decoded.
Proof.
  intros Hne Hlow Hhigh Hall.
  destruct (decode_createBlob samples rate Hne (supported_low rate Hlow)
              (supported_high rate Hhigh))
    as (bytes & buffer & Hd & Hb & Hc & Hf).
  exists bytes, buffer, (map (fun s => toInt16 (s * 32768) # 32768) samples).
  repeat split; try assumption.
  clear Hne Hd Hb Hc Hf. induction Hall as [|s l Hs _ IH]; simpl.
  - constructor.
  - constructor; [now apply quantum_error|assumption].
Qed.

Lemma capture_roundtrip_below_full_scale_witness :
  exists bytes buffer decoded,
    decode (data (createBlob [(3 # 4)%Q; (-1)%Q; (1 # 3)%Q])) = Some bytes
    /\ decodeAudioData bytes 16000 1 = Some buffer
    /\ channelData buffer = [decoded]
    /\ frames buffer = 3%nat
    /\ Forall2 (fun s r => (Qabs (r - s) < 1 # 32768)%Q)
               [(3 # 4)%Q; (-1)%Q; (1 # 3)%Q] decoded.
Proof.
  apply (capture_roundtrip_below_full_scale
           [(3 # 4)%Q; (-1)%Q; (1 # 3)%Q] 16000).
  - discriminate.
  - discriminate.
  - discriminate.
  - repeat constructor; discriminate.
Defined.

Lemma toInt16_of_grid (k : Z) :
  int16_range k -> toInt16 ((k # 32768) * 32768) = k.
Proof.
  unfold int16_range, toInt16, trunc, Qmult. cbn [Qnum Qden]. intros Hk.
  change (Z.pos (32768 * 1)) with 32768.
  rewrite Z.quot_mul by lia.
  destruct (Z.ltb_spec (k mod 65536) 32768);
    Z.to_euclidean_division_equations; lia.
Qed.

(** X3: samples that already lie on the 16-bit grid, [k / 32768] for a
    16-bit [k], survive the round trip unchanged, at every rate that
    every audio context supports (8000 to 96000 Hz): encoding decoded
    audio again loses nothing. *)
Theorem grid_samples_roundtrip_exactly (int16 : list Z) (rate : Q) :
  int16 <> [] -> (8000 <= rate)%Q -> (rate <= 96000)%Q ->
  Forall int16_range int16 ->
  let samples := map (fun k => k # 32768) int16 in
  exists bytes buffer,
    decode (data (createBlob samples)) = Some bytes
    /\ int16_of_buffer bytes = Some int16
    /\ decodeAudioData bytes rate 1 = Some buffer
    /\ channelData buffer = [samples].
Proof.
  intros Hne Hlow Hhigh Hall samples.
  assert (samples <> []) as Hne' by (subst samples; now destruct int16).
  destruct (decode_createBlob samples rate Hne' (supported_low rate Hlow)
              (supported_high rate Hhigh))
    as (bytes & buffer & Hd & Hb & Hc & _).
  assert (map (fun s => toInt16 (s * 32768)) samples = int16) as Hq.
  { subst samples. rewrite map_map. rewrite <- (map_id int16) at 2.
    apply map_ext_in. intros k Hk.
    rewrite Forall_forall in Hall. apply list_elem_of_In in Hk.
    now apply toInt16_of_grid, Hall. }
  exists bytes, buffer. repeat split; try assumption.
  - unfold createBlob in Hd. cbn [data] in Hd. rewrite Hq in Hd.
    rewrite decode_encode in Hd. injection Hd as <-.
    now apply int16_of_buffer_of_int16.
  - rewrite Hc. f_equal.
    rewrite <- (map_id samples) at 2. apply map_ext_in. intros s Hs.
    subst samples. apply in_map_iff in Hs as (k & <- & Hk).
    rewrite Forall_forall in Hall. apply list_elem_of_In in Hk.
    now rewrite (toInt16_of_grid k (Hall k Hk)).
Qed.

Lemma grid_samples_roundtrip_exactly_witness :
  exists bytes buffer,
    decode (data (createBlob [(-32768 # 32768)%Q; (0 # 32768)%Q; (32767 # 32768)%Q]))
    = Some bytes
    /\ decodeAudioData bytes 24000 1 = Some buffer
    /\ channelData buffer
       = [[(-32768 # 32768)%Q; (0 # 32768)%Q; (32767 # 32768)%Q]].
Proof.
  destruct (grid_samples_roundtrip_exactly [-32768; 0; 32767] 24000)
    as (bytes & buffer & Hd & _ & Hb & Hc).
  - discriminate.
  - discriminate.
  - discriminate.
  - repeat constructor; discriminate.
  - exists bytes, buffer. repeat split; assumption.
Defined.

Lemma grid_half_open (v : Z) : int16_range v -> half_open_range (v # 32768).
Proof.
  unfold int16_range, half_open_range, Qle, Qlt. cbn [Qnum Qden]. lia.
Qed.

Lemma decodeAudioData_some (bytes : list byte) (rate : Q)
    (numChannels : nat) (buffer : AudioBuffer) :
  decodeAudioData bytes rate numChannels = Some buffer ->
  Nat.Even (List.length bytes)
  /\ numberOfChannels buffer = numChannels
  /\ frames buffer = (List.length bytes / 2 / numChannels)%nat
  /\ (0 < frames buffer)%nat
  /\ List.length (channelData buffer) = numChannels
  /\ Forall (fun channel =>
               List.length channel = frames buffer
               /\ Forall half_open_range channel) (channelData buffer)
  /\ (0 < duration buffer)%Q.
Proof.
  unfold decodeAudioData. intros Hdec.
  destruct (int16_of_buffer bytes) as [l|] eqn:Hl; [|discriminate].
  destruct (int16_of_buffer_some bytes l Hl) as [Hlen Hrange].
  destruct (createBuffer_ok numChannels (List.length l / numChannels) rate)
    eqn:Hok; [|discriminate].
  injection Hdec as <-.
  unfold createBuffer_ok in Hok.
  apply andb_prop in Hok as [Hok _]. apply andb_prop in Hok as [Hok Hrate].
  apply andb_prop in Hok as [Hok Hfr]. apply andb_prop in Hok as [Hnc _].
  apply negb_true_iff in Hnc, Hfr.
  apply Nat.eqb_neq in Hnc, Hfr.
  assert (0 < rate)%Q as Hpos.
  { apply Qle_bool_iff in Hrate. eapply Qlt_le_trans; [|exact Hrate].
    reflexivity. }
  assert ((List.length bytes / 2 = List.length l)%nat) as Hhalf.
  { rewrite Hlen, Nat.mul_comm. apply Nat.div_mul. lia. }
  cbn [numberOfChannels frames channelData].
  split; [exists (List.length l); lia|].
  split; [reflexivity|]. split; [now rewrite Hhalf|]. split; [lia|].
  split; [now rewrite length_map, length_seq|].
  split.
  - apply Forall_map, Forall_forall. intros channel _.
    split; [now rewrite length_map, length_seq|].
    apply Forall_map, Forall_forall. intros i _.
    apply grid_half_open.
    destruct (nth_in_or_default (i * numChannels + channel) l 0) as [Hin| ->].
    + rewrite Forall_forall in Hrange. apply Hrange.
      now apply list_elem_of_In.
    + unfold int16_range. lia.
  - unfold duration. cbn [frames sampleRate].
    apply Qlt_shift_div_l; [assumption|].
    rewrite Qmult_0_l. unfold Qlt. cbn. lia.
Qed.

(** X4: what [decodeAudioData] returns when it returns: the byte length
    was even, there is at least one whole frame, the buffer has the
    channels asked for, each channel has one sample for each whole frame,
    every sample lies in [-1, 1), and the duration is positive. *)
Theorem decodeAudioData_shape (bytes : list byte) (rate : Q)
    (numChannels : nat) (buffer : AudioBuffer) :
  decodeAudioData bytes rate numChannels = Some buffer ->
  Nat.Even (List.length bytes)
  /\ numberOfChannels buffer = numChannels
  /\ frames buffer = (List.length bytes / 2 / numChannels)%nat
  /\ (0 < frames buffer)%nat
  /\ List.length (channelData buffer) = numChannels
  /\ Forall (fun channel =>
               List.length channel = frames buffer
               /\ Forall half_open_range channel) (channelData buffer)
  /\ (0 < duration buffer)%Q.
Proof. apply decodeAudioData_some. Qed.

Lemma decodeAudioData_shape_witness :
  exists buffer,
    decodeAudioData [x00; x80; xff; x7f; x01; x00; x00; x40] 24000 2
    = Some buffer
    /\ frames buffer = 2%nat
    /\ Forall (fun channel =>
                 List.length channel = frames buffer
                 /\ Forall half_open_range channel) (channelData buffer).
Proof.
  destruct (decodeAudioData [x00; x80; xff; x7f; x01; x00; x00; x40] 24000 2)
    as [buffer|] eqn:Hdec; [|vm_compute in Hdec; discriminate].
  exists buffer.
  destruct (decodeAudioData_shape _ _ _ _ Hdec) as (_ & _ & Hf & _ & _ & Hall & _).
  split; [reflexivity|]. split; [exact Hf|exact Hall].
Defined.

(** X5: what [decodeAudioData] refuses: a payload with an odd number of
    bytes, a payload with fewer samples than channels, the empty one
    among them, and a call with no channel. *)
Theorem decodeAudioData_rejects (bytes : list byte) (rate : Q)
    (numChannels : nat) :
  Nat.Odd (List.length bytes)
  \/ (List.length bytes / 2 < numChannels)%nat
  \/ numChannels = 0%nat ->
  decodeAudioData bytes rate numChannels = None.
Proof.
  intros Hbad.
  destruct (decodeAudioData bytes rate numChannels) as [buffer|] eqn:Hdec;
    [|reflexivity].
  destruct (decodeAudioData_some bytes rate numChannels buffer Hdec)
    as (Heven & _ & Hfr & Hpos & _).
  exfalso. destruct Hbad as [[k Hk]|[Hlt| ->]].
  - destruct Heven as [m Hm]. lia.
  - rewrite (Nat.div_small _ _ Hlt) in Hfr. lia.
  - cbn in Hfr. lia.
Qed.

Lemma decodeAudioData_rejects_witness :
  decodeAudioData [x00; x01; x02] 24000 1 = None
  /\ decodeAudioData [] 24000 1 = None.
Proof.
  split; apply decodeAudioData_rejects.
  - left. exists 1%nat. reflexivity.
  - right. left. cbn. lia.
Defined.

Lemma trunc_monotone (x y : Q) : (x <= y)%Q -> trunc x <= trunc y.
Proof.
  destruct x as [a b], y as [c d]. unfold Qle, trunc. cbn [Qnum Qden].
  intros Hle.
  rewrite <- (Z.quot_mul_cancel_r a (Z.pos b) (Z.pos d)) by lia.
  rewrite <- (Z.quot_mul_cancel_r c (Z.pos d) (Z.pos b)) by lia.
  rewrite (Z.mul_comm (Z.pos d) (Z.pos b)).
  apply Z.quot_le_mono; lia.
Qed.

(** X6: below full scale the quantizer of [createBlob] keeps the order of
    the samples: a louder sample never gets a smaller integer. *)
Theorem quantizer_monotone (s t : Q) :
  half_open_range s -> half_open_range t -> (s <= t)%Q ->
  toInt16 (s * 32768) <= toInt16 (t * 32768).
Proof.
  intros [Hs1 Hs2] [Ht1 Ht2] Hle.
  rewrite !toInt16_in_range by assumption.
  apply trunc_monotone. apply Qmult_le_compat_r; [assumption|].
  unfold Qle. cbn. lia.
Qed.

Lemma quantizer_monotone_witness :
  toInt16 ((-1 # 3) * 32768) <= toInt16 ((1 # 5) * 32768).
Proof.
  apply quantizer_monotone.
  - split; [discriminate|reflexivity].
  - split; [discriminate|reflexivity].
  - discriminate.
Defined.

End CodecMore.

(** ** More on the playback deck *)

Module AudioServiceMore.

Import AudioService AudioServiceFacts.

Lemma clamp_bounds (lo hi x : Q) : (lo <= hi)%Q ->
  (lo <= clamp lo hi x)%Q /\ (clamp lo hi x <= hi)%Q.
Proof.
  intros Hle. unfold clamp. split.
  - apply Q.le_max_l.
  - apply Q.max_lub; [assumption|apply Q.le_min_l].
Qed.

Lemma clamp_inside (lo hi x : Q) :
  (lo <= x)%Q -> (x <= hi)%Q -> (clamp lo hi x == x)%Q.
Proof.
  intros H1 H2. unfold clamp.
  assert (Qmin hi x == x)%Q as Hmin by now apply Q.min_r.
  rewrite Q.max_r; [assumption|]. now rewrite Hmin.
Qed.

(** X7: [setVolume] stores a volume between 0 and 1 whatever finite
    number it is given: the number itself when it lies in that range, 0
    below it and 1 above it; plus and minus infinity give 1 and 0; [NaN]
    makes the call raise and leaves the deck as it was.  Nothing but the
    volume changes. *)
Theorem setVolume_clamps (q : Q) (st : State) :
  (exists st',
      setVolume (Finite q) st = Returned st'
      /\ (0 <= volume (audioElement st'))%Q
      /\ (volume (audioElement st') <= 1)%Q
      /\ ((0 <= q)%Q -> (q <= 1)%Q -> (volume (audioElement st') == q)%Q)
      /\ ((q <= 0)%Q -> (volume (audioElement st') == 0)%Q)
      /\ ((1 <= q)%Q -> (volume (audioElement st') == 1)%Q)
      /\ set_volume (volume (audioElement st)) (audioElement st')
         = audioElement st
      /\ isCorsRestricted st' = isCorsRestricted st
      /\ effects st' = effects st)
  /\ volume (audioElement (state_of (setVolume PosInfinity st))) = 1%Q
  /\ volume (audioElement (state_of (setVolume NegInfinity st))) = 0%Q
  /\ setVolume NaN st = Threw st.
Proof.
  split; [|repeat split].
  eexists. split; [reflexivity|].
  cbn [with_element audioElement set_volume volume isCorsRestricted effects].
  destruct (clamp_bounds 0 1 q) as [Hlo Hhi]; [discriminate|].
  repeat split; try assumption.
  - intros H0 H1. now apply clamp_inside.
  - intros H0. unfold clamp.
    apply Qle_antisym; [|apply Q.le_max_l].
    apply Q.max_lub; [apply Qle_refl|].
    eapply Qle_trans; [apply Q.le_min_r|assumption].
  - intros H1. unfold clamp.
    assert (Qmin 1 q == 1)%Q as Hmin by now apply Q.min_l.
    rewrite Q.max_r; [assumption|]. rewrite Hmin. discriminate.
  - now destruct (audioElement st).
Qed.

Lemma setVolume_clamps_witness :
  exists st',
    setVolume (Finite (17 # 10)) streaming = Returned st'
    /\ (volume (audioElement st') == 1)%Q.
Proof.
  destruct (setVolume_clamps (17 # 10) streaming)
    as [(st' & Hs & _ & _ & _ & _ & H1 & _) _].
  exists st'. split; [exact Hs|]. apply H1. discriminate.
Defined.

(** *** Loading *)

Definition is_reload (e : Effect) : bool :=
  match e with SetSrc _ | Load => true | _ => false end.

Lemma count_emit f e st :
  count f (emit e st) = (count f st + if f e then 1 else 0)%nat.
Proof.
  unfold count, emit. cbn [effects].
  rewrite List.filter_app, length_app. cbn. now destruct (f e).
Qed.

Lemma count_with_element f g st : count f (with_element g st) = count f st.
Proof. reflexivity. Qed.

(** [init] leaves the element alone and neither loads nor plays. *)
Lemma init_quiet pf st :
  audioElement (init pf st) = audioElement st
  /\ count is_reload (init pf st) = count is_reload st
  /\ count is_Play (init pf st) = count is_Play st.
Proof.
  unfold init.
  repeat match goal with
         | |- context [if ?b then _ else _] => destruct b
         end;
    repeat split; cbn [audioElement with_graph with_isCorsRestricted];
    rewrite ?count_emit; cbn; try reflexivity; try lia;
    unfold count; cbn; rewrite ?List.filter_app, ?length_app; cbn; lia.
Qed.

(** X8: [play] without a start time.  An empty URL changes nothing.
    Otherwise the element asks for anonymous cross-origin access unless
    the URL is a local blob reference, and is started once.  When the
    element already reports the very URL it is given, it is not reloaded
    and keeps its source, position and ready state; otherwise it is
    reloaded (one assignment of [src], one [load()]) and reports the URL
    in resolved form, so that a URL the browser does not report as it was
    written is reloaded again by the next [play] of it. *)
Theorem play_reloads_only_new_sources (pf : Platform) (url : string)
    (st : State) :
  play pf "" None st = Returned st
  /\ (url <> ""%string ->
      exists st',
        play pf url None st = Returned st'
        /\ crossOrigin (audioElement st')
           = (if String.prefix "blob:" url then None
              else Some "anonymous"%string)
        /\ count is_Play st' = S (count is_Play st)
        /\ (src (audioElement st) = url ->
            src (audioElement st') = url
            /\ count is_reload st' = count is_reload st
            /\ currentTime (audioElement st') = currentTime (audioElement st)
            /\ readyState (audioElement st') = readyState (audioElement st))
        /\ (src (audioElement st) <> url ->
            src (audioElement st') = resolveUrl pf url
            /\ count is_reload st' = (2 + count is_reload st)%nat
            /\ readyState (audioElement st') = 0%nat)).
Proof.
  split; [reflexivity|].
  intros Hurl. unfold play.
  destruct (String.eqb_spec url "") as [|_]; [contradiction|].
  fold (after_policy url st).
  destruct (init_quiet pf (after_policy url st)) as (Hel & Hre & Hpl).
  set (st2 := init pf (after_policy url st)) in *.
  assert (src (audioElement st2) = src (audioElement st)
          /\ crossOrigin (audioElement st2)
             = (if String.prefix "blob:" url then None
                else Some "anonymous"%string)
          /\ currentTime (audioElement st2) = currentTime (audioElement st)
          /\ readyState (audioElement st2) = readyState (audioElement st)
          /\ count is_reload st2 = count is_reload st
          /\ count is_Play st2 = count is_Play st)
    as (Hsrc & Hco & Hct & Hrs & Hre' & Hpl').
  { rewrite Hel, Hre, Hpl. unfold after_policy.
    destruct (String.prefix "blob:" url); repeat split. }
  eexists. split; [reflexivity|].
  destruct (String.eqb_spec (src (audioElement st2)) url) as [Heq|Hne];
    cbn [negb].
  - unfold safePlay. rewrite !count_emit, !count_with_element.
    cbn [audioElement with_element emit src crossOrigin set_paused
         currentTime readyState is_Play is_reload].
    repeat split; intros; try congruence; try lia.
  - unfold safePlay.
    repeat (rewrite ?count_emit, ?count_with_element).
    cbn [audioElement with_element emit src crossOrigin set_paused set_src
         currentTime readyState is_Play is_reload].
    repeat split; intros; try congruence; try lia.
Qed.

(** Two plays in a row of an origin written without its final slash: the
    second reloads the stream that is playing.  Two plays of a URL in
    resolved form: the second does not. *)
Lemma play_reloads_only_new_sources_witness :
  (exists st',
      play sound_platform "https://radio.example/live.mp3" None streaming
      = Returned st'
      /\ count is_reload st' = count is_reload streaming)
  /\ (exists st1 st2,
        play sound_platform "https://radio.example" None constructor
        = Returned st1
        /\ play sound_platform "https://radio.example" None st1 = Returned st2
        /\ src (audioElement st1) = "https://radio.example/"%string
        /\ count is_reload st2 = (2 + count is_reload st1)%nat).
Proof.
  split.
  - destruct (proj2 (play_reloads_only_new_sources sound_platform
                       "https://radio.example/live.mp3" streaming))
      as (st' & Hp & _ & _ & Hsame & _); [discriminate|].
    exists st'. split; [exact Hp|]. now apply Hsame.
  - destruct (proj2 (play_reloads_only_new_sources sound_platform
                       "https://radio.example" constructor))
      as (st1 & Hp1 & _ & _ & _ & Hnew1); [discriminate|].
    destruct Hnew1 as (Hsrc1 & _); [discriminate|].
    destruct (proj2 (play_reloads_only_new_sources sound_platform
                       "https://radio.example" st1))
      as (st2 & Hp2 & _ & _ & _ & Hnew2); [discriminate|].
    destruct Hnew2 as (_ & Hre2 & _);
      [rewrite Hsrc1; discriminate|].
    exists st1, st2. repeat split; assumption.
Defined.

(** *** The analyser *)

Lemma init_connected pf st :
  source st = true ->
  source (init pf st) = true
  /\ isCorsRestricted (init pf st) = isCorsRestricted st.
Proof.
  destruct st as [ctx an so el cb fl ef]. cbn [source]. intros ->.
  destruct pf as [ctor susp throws legacy fd res add]. unfold init.
  cbn [audioContext analyser source isCorsRestricted hasAudioCtor
       contextSuspended createSourceThrows with_graph].
  destruct ctx, an, ctor, susp; cbn; split; reflexivity.
Qed.

Lemma assign_currentTime_source pf t st :
  source (state_of (assign_currentTime pf t st)) = source st.
Proof.
  unfold assign_currentTime.
  destruct t; try reflexivity.
  repeat match goal with
         | |- context [if ?b then _ else _] => destruct b
         end; reflexivity.
Qed.

Lemma seek_source pf t st : source (state_of (seek pf t st)) = source st.
Proof.
  unfold seek.
  destruct (isFinite t); [|reflexivity]. cbn [negb].
  pose proof (assign_currentTime_source pf t st) as Ha.
  destruct (0 <? readyState (audioElement st))%nat; [assumption|].
  destruct (assign_currentTime pf t st); assumption.
Qed.

Lemma play_source pf url startTime st :
  String.eqb url "" = false ->
  source (state_of (play pf url startTime st)) =
  source (init pf (after_policy url st)).
Proof.
  intros Hu. unfold play. rewrite Hu. fold (after_policy url st).
  set (st2 := init pf (after_policy url st)).
  set (st3 := if negb (String.eqb (src (audioElement st2)) url)
              then emit Load (emit (SetSrc url)
                                   (with_element (set_src (resolveUrl pf url)) st2))
              else st2).
  assert (source st3 = source st2) as H3
    by (subst st3; destruct (negb _); reflexivity).
  match goal with
  | |- context [if ?b then _ else _] => destruct b
  end.
  - pose proof (assign_currentTime_source pf (default NaN startTime) st3) as Ha.
    destruct (assign_currentTime pf (default NaN startTime) st3);
      cbn in *; congruence.
  - cbn. assumption.
Qed.

Lemma step_keeps_source pf op st :
  source st = true -> source (step pf op st) = true.
Proof.
  intros Hs. destruct op; cbn [step].
  - now apply init_connected.
  - destruct (String.eqb url "") eqn:Hu.
    + unfold play. now rewrite Hu.
    + rewrite play_source by assumption. apply init_connected.
      unfold after_policy. now destruct (String.prefix "blob:" url).
  - unfold togglePlay. destruct (paused (audioElement st)).
    + cbn. now apply init_connected.
    + assumption.
  - now rewrite seek_source.
  - unfold skip. now rewrite seek_source.
  - destruct val; assumption.
  - unfold setCallbacks.
    repeat match goal with
           | |- context [if ?b then _ else _] => destruct b
           end; assumption.
  - unfold onerror.
    repeat match goal with
           | |- context [if ?b then _ else _] => destruct b
           end; assumption.
  - unfold playRejected.
    repeat match goal with
           | |- context [if ?b then _ else _] => destruct b
           end; assumption.
Qed.

(** X9: the element is wired to the analyser at most once.  Once the
    media source node exists it exists after every sequence of calls and
    events, and [init] then neither creates another nor touches the
    restriction flag. *)
Theorem analyser_wired_once (pf : Platform) (ops : list Op) (st : State) :
  source st = true ->
  source (run pf ops st) = true
  /\ source (init pf (run pf ops st)) = true
  /\ isCorsRestricted (init pf (run pf ops st))
     = isCorsRestricted (run pf ops st).
Proof.
  intros Hs.
  assert (source (run pf ops st) = true) as Hrun.
  { revert st Hs. unfold run.
    induction ops as [|op ops IH]; intros st Hs; [assumption|].
    cbn [fold_left]. apply IH. now apply step_keeps_source. }
  split; [assumption|]. now apply init_connected.
Qed.

Lemma analyser_wired_once_witness :
  source (run sound_platform
              [EvError; OpPlay "https://radio.example/next.mp3" None; OpInit]
              streaming) = true.
Proof.
  assert (source streaming = true) as Hs by reflexivity.
  exact (proj1 (analyser_wired_once sound_platform
                  [EvError; OpPlay "https://radio.example/next.mp3" None;
                   OpInit] streaming Hs)).
Defined.

(** X10: in the degraded mode the visualizer gets nothing.  After the
    recovery, and for as long as no network source is played again,
    [getFrequencyData] returns the empty array, whatever the analyser
    holds. *)
Theorem no_frequency_data_while_restricted (pf : Platform) (ops : list Op)
    (st : State) :
  isCorsRestricted st = true ->
  Forall (fun op => clears_flag op = false) ops ->
  getFrequencyData pf (run pf ops st) = [].
Proof.
  intros Hf Hops.
  assert (isCorsRestricted (run pf ops st) = true) as Hrun.
  { revert st Hf. unfold run.
    induction Hops as [|op ops Hop _ IH]; intros st Hf; [assumption|].
    cbn [fold_left]. apply IH. now apply flag_kept. }
  unfold getFrequencyData. rewrite Hrun. now rewrite orb_true_r.
Qed.

Definition noisy_platform : Platform :=
  {| hasAudioCtor := true; contextSuspended := false;
     createSourceThrows := false; seekBeforeMetadataThrows := false;
     frequencyData := [x10; x20; x30]; resolveUrl := resolved;
     fadd := fun x y => Finite (x + y) |}.

Lemma no_frequency_data_while_restricted_witness :
  getFrequencyData noisy_platform streaming = [x10; x20; x30]
  /\ getFrequencyData noisy_platform
       (run noisy_platform [OpTogglePlay; OpPlay "blob:4f2a" None; OpInit]
            (onerror streaming)) = [].
Proof.
  split; [reflexivity|].
  assert (isCorsRestricted (onerror streaming) = true) as Hf by reflexivity.
  assert (Forall (fun op => clears_flag op = false)
                 [OpTogglePlay; OpPlay "blob:4f2a" None; OpInit]) as Hops
    by (repeat constructor).
  exact (no_frequency_data_while_restricted noisy_platform _ _ Hf Hops).
Defined.

(** *** Skipping *)

Lemma seek_returns pf time st :
  exists st', seek pf time st = Returned st'
              /\ (isFinite time = false -> st' = st).
Proof.
  unfold seek, assign_currentTime.
  destruct time as [q| | |]; cbn [isFinite negb]; eauto.
  destruct (0 <? readyState (audioElement st))%nat;
    [eexists; split; [reflexivity|discriminate]|].
  destruct (seekBeforeMetadataThrows pf);
    eexists; (split; [reflexivity|discriminate]).
Qed.

(** X11: [skip] never raises.  An amount that is not finite leaves the
    deck as it was; a finite amount is a [seek] to the sum of the current
    position and that amount as the machine computes it, and a sum that
    has overflowed leaves the deck as it was too. *)
Theorem skip_is_safe (pf : Platform) (seconds : JSNumber) (st : State) :
  (exists st', skip pf seconds st = Returned st'
               /\ (isFinite seconds = false -> st' = st))
  /\ (forall q, seconds = Finite q ->
                skip pf seconds st
                = seek pf (fadd pf (currentTime (audioElement st)) q) st
                /\ (isFinite (fadd pf (currentTime (audioElement st)) q)
                    = false ->
                    skip pf seconds st = Returned st)).
Proof.
  split.
  - unfold skip.
    destruct (seek_returns pf
                (jsadd pf (Finite (currentTime (audioElement st))) seconds) st)
      as (st' & Hs & Hu).
    exists st'. split; [assumption|].
    intros Hnf. apply Hu. now destruct seconds.
  - intros q ->. split; [reflexivity|].
    intros Hover. unfold skip, seek. cbn [jsadd]. now rewrite Hover.
Qed.

(** A browser whose numbers overflow past a million. *)
Definition small_platform : Platform :=
  {| hasAudioCtor := true; contextSuspended := false;
     createSourceThrows := false; seekBeforeMetadataThrows := false;
     frequencyData := []; resolveUrl := resolved;
     fadd := fun x y => if Qle_bool (x + y) 1000000 then Finite (x + y)
                        else PosInfinity |}.

Lemma skip_is_safe_witness :
  skip small_platform (Finite 2000000) streaming = Returned streaming
  /\ skip small_platform PosInfinity streaming = Returned streaming.
Proof.
  split.
  - apply (proj2 (skip_is_safe small_platform (Finite 2000000) streaming)
             2000000%Q eq_refl).
    reflexivity.
  - destruct (proj1 (skip_is_safe small_platform PosInfinity streaming))
      as (st' & Hs & Hu).
    rewrite Hs. f_equal. now apply Hu.
Defined.

End AudioServiceMore.

(** ** More on the streaming session *)

Module LiveVoiceAgentMore.

Import LiveVoiceAgent LiveVoiceAgentFacts.

(** *** Teardown *)

Lemma cleanup_sessions run w : sessions (cleanup run w) = sessions w.
Proof. apply cleanup_keeps. Qed.

(** A teardown while the connection is still opening. *)
Definition torn_down_early : World :=
  fst (run mute
         [Render true NIGHT_BRAIN true; UserMediaResolved 1%nat false false;
          Unmount] (initial, tt)).

Section Teardown.

Context {H : Type}.
Variable onToolCall : string -> JSValue -> H -> option JSValue * H.

(** X12: [cleanup] releases what the refs hold and nothing else.  The
    stream, the processor, the two contexts and every queued source are
    released at once, each once and in that order.  The session is closed
    through its promise: after everything else, when the connection has
    opened already; when it opens, if it does, otherwise.  Afterwards
    every ref is empty, the status is idle, the guard flag is clear and
    the effect run is unmounted.  A second [cleanup], from this run or
    another, releases nothing, asks for nothing and changes no ref. *)
Theorem cleanup_releases_once (run run' : id) (w : World) (h : H) :
  log (cleanup run w) =
  log w ++ held (streamRef (refs w)) TrackStop
        ++ held (processorRef (refs w)) ProcessorDisconnect
        ++ held (inputContextRef (refs w)) ContextClose
        ++ held (outputContextRef (refs w)) ContextClose
        ++ map SourceStop (audioQueueRef (refs w))
  /\ microtasks (cleanup run w) =
       match sessionRef (refs w) with
       | Some s => if mem s (fulfilled w)
                   then microtasks w ++ [SessionClose s] else microtasks w
       | None => microtasks w
       end
  /\ reactions (cleanup run w) =
       match sessionRef (refs w) with
       | Some s => if mem s (fulfilled w) then reactions w
                   else reactions w ++ [(s, SessionClose s)]
       | None => reactions w
       end
  /\ refs (cleanup run w) =
     {| status := idle; sessionRef := None; isConnectingRef := false;
        inputContextRef := None; outputContextRef := None; streamRef := None;
        processorRef := None; nextStartTimeRef := nextStartTimeRef (refs w);
        audioQueueRef := [] |}
  /\ is_mounted run (cleanup run w) = false
  /\ log (cleanup run' (cleanup run w)) = log (cleanup run w)
  /\ refs (cleanup run' (cleanup run w)) = refs (cleanup run w)
  /\ microtasks (cleanup run' (cleanup run w)) = microtasks (cleanup run w)
  /\ reactions (cleanup run' (cleanup run w)) = reactions (cleanup run w)
  /\ (current w = Some run -> microtasks w = [] ->
      log (fst (step onToolCall Unmount (w, h))) =
      log (cleanup run w)
      ++ match sessionRef (refs w) with
         | Some s => if mem s (fulfilled w) then [SessionClose s] else []
         | None => []
         end).
Proof.
  destruct (cleanup_jobs run w) as [Hm Hr].
  destruct (cleanup_twice run run' w) as (H1 & H2 & H3 & H4).
  split; [apply cleanup_log|]. split; [exact Hm|]. split; [exact Hr|].
  split; [apply cleanup_refs|]. split; [apply cleanup_unmounts|].
  split; [exact H1|]. split; [exact H2|]. split; [exact H3|].
  split; [exact H4|].
  intros Hc Hq. unfold step, handle, unmount. rewrite Hc.
  unfold drain. cbn [fst log emit set_microtasks set_current microtasks].
  rewrite Hm, Hq. reflexivity.
Qed.

End Teardown.

(** Torn down once the connection has opened, the session is closed
    last; torn down before, it is closed when the connection opens. *)
Lemma cleanup_releases_once_witness :
  log (fst (step mute Unmount (open_session, tt)))
  = log open_session
    ++ [TrackStop 2%nat; ProcessorDisconnect 6%nat; ContextClose 3%nat;
        ContextClose 4%nat; SessionClose 5%nat]
  /\ sessions_closed (log torn_down_early) = []
  /\ reactions torn_down_early = [(5%nat, SessionClose 5%nat)]
  /\ sessions_closed (log (fst (step mute (Opened 5%nat) (torn_down_early, tt))))
     = [5%nat].
Proof.
  assert (current open_session = Some 0%nat) as Hc by (vm_compute; reflexivity).
  assert (microtasks open_session = []) as Hq by (vm_compute; reflexivity).
  pose proof (proj2 (proj2 (proj2 (proj2 (proj2 (proj2 (proj2 (proj2 (proj2
                (cleanup_releases_once mute 0%nat 0%nat open_session tt)))))))))
                Hc Hq) as Hstep.
  split.
  - rewrite Hstep. vm_compute. reflexivity.
  - vm_compute. repeat split.
Defined.

(** X13: once an effect run is cleaned up, the callbacks of its session
    do nothing: a late open, capture block, message, close or error of
    that session leaves the component as it is, and calls no handler. *)
Theorem callbacks_ignored_after_cleanup {H : Type}
    (onToolCall : string -> JSValue -> H -> option JSValue * H)
    (session : id) (c : Closure) (msg : LiveServerMessage) (clock : Q)
    (inputData : list Q) (w : World) (h : H) :
  sessions w !! session = Some c ->
  let w' := cleanup (c_run c) w in
  onopen session w' = w'
  /\ onaudioprocess session inputData w' = w'
  /\ onmessage onToolCall session msg clock w' h = (w', h)
  /\ onclose session w' = w'
  /\ onerror session w' = w'.
Proof.
  intros Hs w'.
  assert (sessions w' !! session = Some c) as Hs'
    by (subst w'; now rewrite cleanup_sessions).
  assert (is_mounted (c_run c) w' = false) as Hm
    by (subst w'; apply cleanup_unmounts).
  unfold onopen, onaudioprocess, onmessage, onclose, onerror.
  rewrite Hs', Hm. repeat split.
Qed.

Lemma callbacks_ignored_after_cleanup_witness :
  let w := fst (run mute
                  [Render true NIGHT_BRAIN true;
                   UserMediaResolved 1%nat false false; Opened 5%nat]
                  (initial, tt)) in
  sessions w !! 5%nat
  = Some {| c_run := 0%nat; c_stream := 2%nat; c_inputCtx := 3%nat |}
  /\ onmessage mute 5%nat (speech_message "AAA=") 1 (cleanup 0%nat w) tt
     = (cleanup 0%nat w, tt).
Proof.
  intros w.
  assert (sessions w !! 5%nat
          = Some {| c_run := 0%nat; c_stream := 2%nat; c_inputCtx := 3%nat |})
    as Hs by (vm_compute; reflexivity).
  split; [exact Hs|].
  exact (proj1 (proj2 (proj2
           (callbacks_ignored_after_cleanup mute 5%nat
              {| c_run := 0%nat; c_stream := 2%nat; c_inputCtx := 3%nat |}
              (speech_message "AAA=") 1 [] w tt Hs)))).
Defined.

(** *** Messages *)

(** X14: a message whose speech payload does not decode is dropped as a
    whole.  When [atob] refuses the text, or the bytes make no buffer (an
    odd count, or none), the handler ends there: the transcription has
    been forwarded, nothing is scheduled, and the interruption flag and
    the tool calls of the same message are never looked at. *)
Theorem undecodable_speech_drops_message {H : Type}
    (onToolCall : string -> JSValue -> H -> option JSValue * H)
    (session : id) (c : Closure) (ctx : id) (msg : LiveServerMessage)
    (audio : string) (clock : Q) (w : World) (h : H) :
  sessions w !! session = Some c ->
  is_mounted (c_run c) w = true ->
  outputContextRef (refs w) = Some ctx ->
  audioData msg = Some audio ->
  audio <> ""%string ->
  match Codec.decode audio with
  | Some rawBytes => Codec.decodeAudioData rawBytes 24000 1 = None
  | None => True
  end ->
  onmessage onToolCall session msg clock w h
  = (match inputTranscription msg with
     | Some text => emit [UserTranscript text] w
     | None => w
     end, h).
Proof.
  intros Hs Hm Hctx Ha Hne Hbad. unfold onmessage.
  rewrite Hs, Hm, Ha. cbn [negb].
  unfold speech. cbn [refs emit].
  destruct (String.eqb_spec audio "") as [|_]; [contradiction|].
  assert (outputContextRef
            (refs match inputTranscription msg with
                  | Some text => emit [UserTranscript text] w
                  | None => w
                  end) = Some ctx) as ->
    by (destruct (inputTranscription msg); assumption).
  destruct (Codec.decode audio) as [rawBytes|]; [|reflexivity].
  now rewrite Hbad.
Qed.

Definition connected_world : World :=
  fst (run mute
         [Render true NIGHT_BRAIN true; UserMediaResolved 1%nat false false;
          Opened 5%nat] (initial, tt)).

Definition garbled_message : LiveServerMessage :=
  {| inputTranscription := Some "stop"%string; audioData := Some "AAAA"%string;
     interrupted := true;
     toolCall := Some [call "A" "control_playback"] |}.

Lemma undecodable_speech_drops_message_witness :
  onmessage picky 5%nat garbled_message 1 connected_world 0%nat
  = (emit [UserTranscript "stop"] connected_world, 0%nat).
Proof.
  assert (sessions connected_world !! 5%nat
          = Some {| c_run := 0%nat; c_stream := 2%nat; c_inputCtx := 3%nat |})
    as H1 by (vm_compute; reflexivity).
  assert (is_mounted 0%nat connected_world = true) as H2
    by (vm_compute; reflexivity).
  assert (outputContextRef (refs connected_world) = Some 4%nat) as H3
    by (vm_compute; reflexivity).
  assert ("AAAA"%string <> ""%string) as H5 by discriminate.
  assert (match Codec.decode "AAAA" with
          | Some rawBytes => Codec.decodeAudioData rawBytes 24000 1 = None
          | None => True
          end) as H6 by (vm_compute; reflexivity).
  exact (undecodable_speech_drops_message picky 5%nat _ 4%nat garbled_message
           "AAAA" 1 connected_world 0%nat H1 H2 H3 eq_refl H5 H6).
Defined.

(** X15: a source that has ended is not stopped afterwards.  When
    [onended] has taken a source out of the queue, the next interruption
    stops the others, in their order, and not that one. *)
Theorem ended_sources_are_not_stopped (source : id) (w : World) :
  let w' := interruption (onended source w) in
  sources_stopped (log w') =
  sources_stopped (log w)
  ++ List.filter (fun s => negb (s =? source)%nat) (audioQueueRef (refs w))
  /\ ~ In source (List.filter (fun s => negb (s =? source)%nat)
                              (audioQueueRef (refs w)))
  /\ audioQueueRef (refs w') = [].
Proof.
  intros w'. split; [|split].
  - subst w'. unfold interruption, onended. cbn [log emit with_refs refs
      audioQueueRef set_audioQueueRef set_nextStartTimeRef].
    rewrite <- app_assoc, !sources_stopped_app, sources_stopped_stops.
    cbn. now rewrite app_nil_r.
  - intros Hin. apply List.filter_In in Hin as [_ Hne].
    now rewrite Nat.eqb_refl in Hne.
  - reflexivity.
Qed.

(** *** Scheduling *)

Lemma Qmax_on_time (acc clock : Q) : (clock <= acc)%Q -> Qmax acc clock = acc.
Proof.
  intros Hle. unfold Qmax, GenericMinMax.gmax.
  destruct (Qcompare acc clock) eqn:Hc; try reflexivity.
  apply Qlt_alt in Hc. exfalso. now apply (Qlt_not_le _ _ Hc).
Qed.

(** Each buffer arrives before the audio planned so far has run out. *)
Definition on_time (frames : list (Q * Codec.AudioBuffer)) (w : World) : Prop :=
  forall k clock buffer,
    frames !! k = Some (clock, buffer) ->
    (clock <= accumulator (enqueue_all (take k frames) w))%Q.

Lemma placed_on_time frames : forall w,
  on_time frames w ->
  (forall a, placed (accumulator w) frames !! 0%nat = Some a ->
             fst a = accumulator w)
  /\ (forall k a b, placed (accumulator w) frames !! k = Some a ->
                    placed (accumulator w) frames !! S k = Some b ->
                    fst b = snd a).
Proof.
  induction frames as [|[clock buffer] rest IH]; intros w Hall.
  - split; intros; discriminate.
  - assert (clock <= accumulator w)%Q as Hclock
      by exact (Hall 0%nat clock buffer eq_refl).
    assert (on_time rest (scheduleBuffer clock buffer w)) as Hrest.
    { intros k c b Hk. exact (Hall (S k) c b Hk). }
    destruct (IH _ Hrest) as [IH0 IHk].
    rewrite scheduleBuffer_accumulator in IH0, IHk.
    cbn [placed]. rewrite (Qmax_on_time _ _ Hclock) in *.
    split.
    + intros a Ha. cbn in Ha. now injection Ha as <-.
    + intros [|k] a b Ha Hb.
      * cbn in Ha. injection Ha as <-. cbn [snd].
        change ((?x :: ?l) !! 1%nat) with (l !! 0%nat) in Hb.
        now apply IH0.
      * change ((?x :: ?l) !! S ?n) with (l !! n) in Ha, Hb.
        exact (IHk k a b Ha Hb).
Qed.

(** X16: speech that arrives on time plays without a gap.  When every
    buffer of a run is enqueued while the clock has not passed the
    accumulator (the audio planned before it has not run out), the first
    buffer starts exactly at the accumulator and each following buffer
    starts exactly at the planned end of the one before. *)
Theorem on_time_speech_has_no_gap
    (frames : list (Q * Codec.AudioBuffer)) (w : World) :
  on_time frames w ->
  exists p : list (Q * Q),
    plan (log (enqueue_all frames w)) = plan (log w) ++ p
    /\ List.length p = List.length frames
    /\ (forall a, p !! 0%nat = Some a -> fst a = accumulator w)
    /\ (forall k a b, p !! k = Some a -> p !! S k = Some b -> fst b = snd a).
Proof.
  intros Hall. exists (placed (accumulator w) frames).
  split; [apply enqueue_all_plan|]. split; [apply placed_length|].
  now apply placed_on_time.
Qed.

Lemma on_time_speech_has_no_gap_witness :
  exists p : list (Q * Q),
    plan (log (enqueue_all [(0%Q, silence 2400); ((5 # 100)%Q, silence 2400)]
                           initial)) = p
    /\ forall a b, p !! 0%nat = Some a -> p !! 1%nat = Some b -> fst b = snd a.
Proof.
  assert (on_time [(0%Q, silence 2400); ((5 # 100)%Q, silence 2400)] initial)
    as Hall.
  { intros [|[|k]] clock buffer Hk; cbn in Hk; [| |discriminate];
      injection Hk as <- <-; vm_compute; discriminate. }
  destruct (on_time_speech_has_no_gap _ initial Hall) as (p & Hp & _ & _ & Hk).
  exists p. split; [exact Hp|]. intros a b. apply Hk.
Defined.

(** X17: nothing is scheduled in the past.  Whatever the state of the
    session, each buffer of a run of enqueues is planned to start at or
    after the clock reading at which it was scheduled, and to end one
    buffer duration later. *)
Theorem never_scheduled_in_the_past
    (frames : list (Q * Codec.AudioBuffer)) (w : World) :
  exists p : list (Q * Q),
    plan (log (enqueue_all frames w)) = plan (log w) ++ p
    /\ forall k clock buffer,
         frames !! k = Some (clock, buffer) ->
         exists a, p !! k = Some a
                   /\ (clock <= fst a)%Q
                   /\ snd a = (fst a + Codec.duration buffer)%Q.
Proof.
  exists (placed (accumulator w) frames).
  split; [apply enqueue_all_plan|].
  intros k clock buffer Hk.
  pose proof (placed_lookup frames (accumulator w) w k clock buffer
                eq_refl Hk) as Hp.
  eexists. split; [exact Hp|].
  split; [apply Q.le_max_r|reflexivity].
Qed.

(** *** Nothing is released twice *)

(** The object that an effect releases. *)
Definition released_id (e : Effect) : list id :=
  match e with
  | SessionClose x | TrackStop x | ProcessorDisconnect x | ContextClose x
  | SourceStop x => [x]
  | _ => []
  end.

Definition released (l : list Effect) : list id := flat_map released_id l.

Definition ref_ids (o : option id) : list id :=
  match o with Some x => [x] | None => [] end.

(** The objects that the refs hold. *)
Definition held_ids (r : Refs) : list id :=
  ref_ids (sessionRef r) ++ ref_ids (streamRef r) ++ ref_ids (processorRef r)
  ++ ref_ids (inputContextRef r) ++ ref_ids (outputContextRef r)
  ++ audioQueueRef r.

(** What has been released, what the queued jobs and the callbacks that
    wait for a connection will release, and what the refs hold. *)
Definition tracked (w : World) : list id :=
  released (log w) ++ released (microtasks w)
  ++ released (map snd (reactions w)) ++ held_ids (refs w).

Definition occ (x : id) (l : list id) : nat := count_occ Nat.eq_dec l x.

(** No object is tracked twice, and every tracked object has been
    allocated. *)
Definition tidy (w : World) : Prop :=
  forall x, (occ x (tracked w) <= 1)%nat
            /\ ((fresh w <= x)%nat -> occ x (tracked w) = 0%nat).

Lemma occ_app x l1 l2 : occ x (l1 ++ l2) = (occ x l1 + occ x l2)%nat.
Proof. apply count_occ_app. Qed.

Lemma occ_nil x : occ x [] = 0%nat.
Proof. reflexivity. Qed.

Lemma occ_cons x y l :
  occ x (y :: l) = ((if (y =? x)%nat then 1 else 0) + occ x l)%nat.
Proof.
  unfold occ. cbn. destruct (Nat.eq_dec y x) as [->|Hne].
  - now rewrite Nat.eqb_refl.
  - apply Nat.eqb_neq in Hne. now rewrite Hne.
Qed.

Lemma occ_filter x (f : nat -> bool) (l : list nat) :
  (occ x (List.filter f l) <= occ x l)%nat.
Proof.
  induction l as [|y l IH]; [reflexivity|].
  cbn [List.filter]. destruct (f y); rewrite ?occ_cons; lia.
Qed.

Lemma released_app l1 l2 : released (l1 ++ l2) = released l1 ++ released l2.
Proof. apply flat_map_app. Qed.

Lemma released_stops q : released (map SourceStop q) = q.
Proof. induction q as [|s q IH]; cbn; [reflexivity|f_equal; exact IH]. Qed.

(** The callbacks of one promise and those of the others. *)
Lemma occ_reactions x (p : nat * Effect -> bool) (l : list (nat * Effect)) :
  (occ x (released (map snd (List.filter p l)))
   + occ x (released (map snd (List.filter (fun r => negb (p r)) l))))%nat
  = occ x (released (map snd l)).
Proof.
  induction l as [|r l IH]; [reflexivity|].
  cbn [List.filter map]. destruct (p r); cbn [negb map];
    change (released (snd r :: ?t)) with (released_id (snd r) ++ released t);
    rewrite !occ_app; lia.
Qed.

Ltac occ_norm :=
  unfold tracked, held_ids in *;
  cbn [refs log fresh fulfilled reactions microtasks
       with_refs emit alloc set_mounted set_current set_tasks
       set_sessions set_fulfilled set_reactions set_microtasks
       set_status set_sessionRef set_isConnectingRef
       set_inputContextRef set_outputContextRef set_streamRef
       set_processorRef set_nextStartTimeRef set_audioQueueRef
       status sessionRef isConnectingRef inputContextRef outputContextRef
       streamRef processorRef nextStartTimeRef audioQueueRef
       ref_ids fst snd] in *;
  repeat rewrite ?List.map_app, ?released_app, ?released_stops, ?occ_app,
    ?occ_cons, ?occ_nil in *;
  cbn [released flat_map released_id app map snd] in *;
  repeat rewrite ?occ_app, ?occ_cons, ?occ_nil in *.

Ltac occ_cases :=
  repeat match goal with
         | |- context [(?a =? ?b)%nat] => destruct (Nat.eqb_spec a b)
         | H : context [(?a =? ?b)%nat] |- _ => destruct (Nat.eqb_spec a b)
         end;
  try lia.

Ltac split_matches :=
  repeat match goal with
         | |- context [match ?e with _ => _ end] =>
             lazymatch e with
             | (_ =? _)%nat => fail
             | _ => destruct e eqn:?
             end
         end.

Ltac tidy_tac :=
  let x := fresh "x" in
  let Hw := fresh "Hw" in
  intros Hw x; specialize (Hw x);
  cbn [alloc fst snd];
  split_matches; occ_norm; split_matches; occ_norm; occ_cases.

Lemma tidy_cleanup run w : tidy w -> tidy (cleanup run w).
Proof.
  intros Hw x. specialize (Hw x). unfold cleanup, release, then_.
  destruct w as [r m c t s fu re mi f l].
  destruct r as [st se ic inp out str pr nx q].
  destruct se as [se|];
    [cbn [refs sessionRef fulfilled set_mounted with_refs set_isConnectingRef];
     destruct (mem se fu)|];
    destruct str, pr, inp, out; occ_norm; occ_cases.
Qed.

(** A job that releases nothing. *)
Lemma tidy_then_quiet session job w :
  released_id job = [] -> tidy w -> tidy (then_ session job w).
Proof.
  intros Hj Hw x. specialize (Hw x). unfold then_.
  destruct (mem session (fulfilled w)); occ_norm;
    unfold released in *; cbn [flat_map]; rewrite Hj; occ_norm; lia.
Qed.

Lemma tidy_drain w : tidy w -> tidy (drain w).
Proof. intros Hw x. specialize (Hw x). unfold drain. occ_norm. lia. Qed.

Lemma tidy_fulfil session w : tidy w -> tidy (fulfil session w).
Proof.
  intros Hw x. specialize (Hw x). unfold fulfil.
  destruct (sessions w !! session); [|assumption].
  destruct (mem session (fulfilled w)); [assumption|].
  pose proof (occ_reactions x (fun r : nat * Effect => (fst r =? session)%nat)
                (reactions w)) as Hsplit.
  cbv beta in Hsplit. occ_norm. unfold LiveVoiceAgent.id in *. lia.
Qed.

Lemma tidy_startSession run mode apiKey w :
  tidy w -> tidy (startSession run mode apiKey w).
Proof. unfold startSession. tidy_tac. Qed.

Lemma tidy_connectSession task t stream inputCtx outputCtx w :
  tidy w -> tidy (connectSession task t stream inputCtx outputCtx w).
Proof. unfold connectSession. tidy_tac. Qed.

Lemma tidy_userMediaResolved task i o w :
  tidy w -> tidy (userMediaResolved task i o w).
Proof. unfold userMediaResolved, connectSession, suspend. tidy_tac. Qed.

Lemma tidy_resumeResolved task w : tidy w -> tidy (resumeResolved task w).
Proof. unfold resumeResolved, connectSession, suspend. tidy_tac. Qed.

Lemma tidy_setupRejected task w : tidy w -> tidy (setupRejected task w).
Proof. unfold setupRejected. tidy_tac. Qed.

Lemma tidy_mount run w :
  tidy w -> tidy (set_current (Some run) (set_mounted run true w)).
Proof. tidy_tac. Qed.

Lemma tidy_alloc w : tidy w -> tidy (snd (alloc w)).
Proof. tidy_tac. Qed.

Lemma tidy_runEffect isActive mode apiKey w :
  tidy w -> tidy (runEffect isActive mode apiKey w).
Proof.
  intros Hw. unfold runEffect.
  set (w1 := match current w with Some old => cleanup old w | None => w end).
  assert (tidy w1) as H1
    by (subst w1; destruct (current w); [now apply tidy_cleanup|assumption]).
  clearbody w1. cbn [alloc].
  pose proof (tidy_mount (fresh w1) _ (tidy_alloc w1 H1)) as H2.
  cbn [alloc snd] in H2.
  destruct isActive; [now apply tidy_startSession|now apply tidy_cleanup].
Qed.

Lemma tidy_unmount w : tidy w -> tidy (unmount w).
Proof.
  intros Hw. unfold unmount. destruct (current w) as [old|]; [|assumption].
  pose proof (tidy_cleanup old w Hw) as H1. revert H1.
  generalize (cleanup old w). clear. intros w. tidy_tac.
Qed.

Lemma tidy_onopen session w : tidy w -> tidy (onopen session w).
Proof. unfold onopen. tidy_tac. Qed.

Lemma tidy_onaudioprocess session inputData w :
  tidy w -> tidy (onaudioprocess session inputData w).
Proof.
  intros Hw. unfold onaudioprocess.
  destruct (sessions w !! session) as [c|]; [|assumption].
  destruct (negb (is_mounted (c_run c) w)); [assumption|].
  now apply tidy_then_quiet.
Qed.

Lemma tidy_onclose session w : tidy w -> tidy (onclose session w).
Proof. unfold onclose. tidy_tac. Qed.

Lemma tidy_onerror session w : tidy w -> tidy (onerror session w).
Proof. unfold onerror. tidy_tac. Qed.

Lemma tidy_onended source w : tidy w -> tidy (onended source w).
Proof.
  unfold onended. intros Hw x. specialize (Hw x).
  pose proof (occ_filter x (fun s : nat => negb (s =? source)%nat)
                (audioQueueRef (refs w))).
  occ_norm. lia.
Qed.

Lemma tidy_scheduleBuffer clock buffer w :
  tidy w -> tidy (scheduleBuffer clock buffer w).
Proof. unfold scheduleBuffer. tidy_tac. Qed.

Lemma tidy_interruption w : tidy w -> tidy (interruption w).
Proof. unfold interruption. tidy_tac. Qed.

Lemma tidy_emit_quiet es w :
  released es = [] -> tidy w -> tidy (emit es w).
Proof.
  intros Hes Hw x. specialize (Hw x). occ_norm. rewrite Hes. occ_norm. lia.
Qed.

Lemma tidy_initial : tidy initial.
Proof. intros x. cbn. split; [lia|reflexivity]. Qed.

Section Runs.

Context {H : Type}.
Variable onToolCall : string -> JSValue -> H -> option JSValue * H.

Lemma tidy_dispatch session calls : forall w h,
  tidy w -> tidy (fst (dispatch onToolCall session calls w h)).
Proof.
  induction calls as [|fc rest IH]; intros w h Hw; [assumption|].
  cbn [dispatch].
  destruct (onToolCall (fc_name fc) (fc_args fc) h) as [[v|] h1];
    apply IH.
  - apply tidy_then_quiet; [reflexivity|].
    apply tidy_drain. now apply tidy_emit_quiet.
  - apply tidy_emit_quiet; [reflexivity|].
    apply tidy_drain. now apply tidy_emit_quiet.
Qed.

Lemma tidy_speech audio clock w w' :
  tidy w -> speech audio clock w = Some w' -> tidy w'.
Proof.
  unfold speech. intros Hw Hs.
  destruct (String.eqb audio ""); [now injection Hs as <-|].
  destruct (outputContextRef (refs w)); [|now injection Hs as <-].
  destruct (Codec.decode audio) as [rawBytes|]; [|discriminate].
  destruct (Codec.decodeAudioData rawBytes 24000 1) as [buffer|];
    [|discriminate].
  injection Hs as <-. now apply tidy_scheduleBuffer.
Qed.

Lemma tidy_onmessage session msg clock w h :
  tidy w -> tidy (fst (onmessage onToolCall session msg clock w h)).
Proof.
  intros Hw. unfold onmessage.
  destruct (sessions w !! session) as [c|]; [|assumption].
  destruct (is_mounted (c_run c) w); cbn [negb]; [|assumption].
  set (w1 := match inputTranscription msg with
             | Some text => emit [UserTranscript text] w
             | None => w
             end).
  assert (tidy w1) as H1.
  { subst w1. destruct (inputTranscription msg); [|assumption].
    now apply tidy_emit_quiet. }
  clearbody w1.
  destruct (match audioData msg with
            | Some audio => speech audio clock w1
            | None => Some w1
            end) as [w2|] eqn:Hsp; [|assumption].
  assert (tidy w2) as H2.
  { destruct (audioData msg) as [audio|].
    - now apply (tidy_speech audio clock w1).
    - now injection Hsp as <-. }
  set (w3 := if interrupted msg then interruption w2 else w2).
  assert (tidy w3) as H3
    by (subst w3; destruct (interrupted msg);
        [now apply tidy_interruption|assumption]).
  clearbody w3.
  destruct (toolCall msg) as [calls|]; [|assumption].
  now apply tidy_dispatch.
Qed.

Lemma tidy_handle ev wh : tidy (fst wh) -> tidy (fst (handle onToolCall ev wh)).
Proof.
  destruct wh as [w h]. cbn [fst]. intros Hw.
  destruct ev; cbn [handle fst].
  - now apply tidy_runEffect.
  - now apply tidy_unmount.
  - now apply tidy_userMediaResolved.
  - now apply tidy_resumeResolved.
  - now apply tidy_setupRejected.
  - now apply tidy_fulfil, tidy_onopen.
  - now apply tidy_onaudioprocess.
  - now apply tidy_onmessage.
  - now apply tidy_onclose.
  - now apply tidy_onerror.
  - now apply tidy_onended.
Qed.

Lemma tidy_step ev wh : tidy (fst wh) -> tidy (fst (step onToolCall ev wh)).
Proof.
  intros Hw. unfold step.
  pose proof (tidy_handle ev wh Hw) as Hh.
  destruct (handle onToolCall ev wh) as [w1 h1]. cbn [fst] in *.
  now apply tidy_drain.
Qed.

Lemma tidy_run events : forall wh,
  tidy (fst wh) -> tidy (fst (run onToolCall events wh)).
Proof.
  unfold run. induction events as [|ev events IH]; intros wh Hw; [assumption|].
  cbn [fold_left]. apply IH. now apply tidy_step.
Qed.

Definition release_id (e : Effect) : id :=
  match e with
  | SessionClose x | TrackStop x | ProcessorDisconnect x | ContextClose x
  | SourceStop x => x
  | _ => 0%nat
  end.

Lemma released_of_releases l : released l = map release_id (releases l).
Proof.
  unfold released, releases. induction l as [|e l IH]; [reflexivity|].
  cbn [flat_map List.filter]. rewrite IH. now destruct e.
Qed.

(** X18: nothing is released twice.  Whatever the component goes through
    from its first render (renders, unmounts, microphone grants and
    refusals, session events, messages, handler answers, in any order),
    no session is closed twice, no stream, processor, context or source is
    stopped, disconnected or closed twice, and nothing that a ref still
    holds has been released. *)
Theorem nothing_released_twice (events : list Event) (h : H) :
  let w := fst (run onToolCall events (initial, h)) in
  NoDup (released (log w))
  /\ NoDup (releases (log w))
  /\ (forall x, In x (held_ids (refs w)) -> ~ In x (released (log w))).
Proof.
  intros w.
  assert (tidy w) as Hw by (apply tidy_run, tidy_initial).
  assert (forall x, (occ x (released (log w)) <= 1)%nat) as Hrel1.
  { intros x. destruct (Hw x) as [Hx _]. unfold tracked in Hx.
    rewrite occ_app in Hx.
    exact (Nat.le_trans _ _ _ (Nat.le_add_r _ _) Hx). }
  assert (List.NoDup (released (log w))) as Hrel
    by (apply (NoDup_count_occ Nat.eq_dec); exact Hrel1).
  split; [now apply NoDup_ListNoDup|]. split.
  - apply NoDup_ListNoDup.
    apply (List.NoDup_map_inv release_id). now rewrite <- released_of_releases.
  - intros x Hheld Hrel'.
    destruct (Hw x) as [Hx _]. unfold tracked, occ in Hx.
    rewrite !count_occ_app in Hx.
    apply (count_occ_In Nat.eq_dec) in Hheld, Hrel'.
    unfold gt, lt in Hheld, Hrel'.
    pose proof (Nat.add_le_mono _ _ _ _ Hrel' Hheld) as Hsum.
    refine (Nat.nle_succ_diag_l 1 (Nat.le_trans _ _ _ Hsum _)).
    eapply Nat.le_trans; [|exact Hx].
    apply Nat.add_le_mono_l.
    eapply Nat.le_trans; [|apply Nat.le_add_l].
    apply Nat.le_add_l.
Qed.

End Runs.

(** *** Without an API key *)

Definition keyless (ev : Event) : bool :=
  match ev with Render _ _ apiKey => negb apiKey | _ => true end.

(** What a render without a key tells the caller. *)
Definition refusal (ev : Event) : list Effect :=
  match ev with
  | Render true _ _ => [AIResponse "Error: No API Key"; Deactivate]
  | _ => []
  end.

Definition dormant (w : World) : Prop :=
  refs w = initial_refs /\ tasks w = ∅ /\ sessions w = ∅
  /\ reactions w = [] /\ microtasks w = [].

Lemma cleanup_dormant run w :
  dormant w -> dormant (cleanup run w) /\ log (cleanup run w) = log w.
Proof.
  intros (Hr & Ht & Hs & Hre & Hmi). unfold dormant.
  destruct (cleanup_keeps run w) as (Hs' & Ht' & _).
  destruct (cleanup_jobs run w) as [Hm' Hr'].
  rewrite cleanup_refs, Ht', Hs', cleanup_log, Hm', Hr', Hr.
  cbn. now rewrite app_nil_r.
Qed.

Lemma runEffect_dormant isActive mode w :
  dormant w ->
  dormant (runEffect isActive mode false w)
  /\ log (runEffect isActive mode false w)
     = log w ++ refusal (Render isActive mode false).
Proof.
  intros Hw. unfold runEffect.
  set (w1 := match current w with Some old => cleanup old w | None => w end).
  assert (dormant w1 /\ log w1 = log w) as [H1 Hl].
  { subst w1. destruct (current w); [now apply cleanup_dormant|now split]. }
  clearbody w1. cbn [alloc].
  match goal with
  | |- context [set_current ?c (set_mounted ?r ?b ?x)] =>
      set (w2 := set_current c (set_mounted r b x))
  end.
  assert (dormant w2 /\ log w2 = log w) as [H2 Hl2]
    by (subst w2; destruct w1; cbn in *; split; assumption).
  clearbody w2.
  destruct isActive; cbn [refusal].
  - unfold startSession. cbn [negb]. destruct w2; cbn in *. now rewrite Hl2.
  - destruct (cleanup_dormant (fresh w1) w2 H2) as [H3 Hl3].
    split; [assumption|]. now rewrite Hl3, Hl2, app_nil_r.
Qed.

Section Keyless.

Context {H : Type}.
Variable onToolCall : string -> JSValue -> H -> option JSValue * H.

Lemma handle_dormant ev w h :
  keyless ev = true -> dormant w ->
  dormant (fst (handle onToolCall ev (w, h)))
  /\ log (fst (handle onToolCall ev (w, h))) = log w ++ refusal ev
  /\ snd (handle onToolCall ev (w, h)) = h.
Proof.
  intros Hk Hw.
  assert (log w = log w ++ []) as Hnil by now rewrite app_nil_r.
  assert (forall g : World * H,
            g = (w, h) ->
            dormant (fst g) /\ log (fst g) = log w ++ [] /\ snd g = h)
    as Hsame by (intros g ->; cbn [fst snd]; now rewrite <- Hnil).
  destruct ev; cbn [handle keyless refusal] in *.
  - apply negb_true_iff in Hk. subst apiKey. cbn [fst snd].
    destruct (runEffect_dormant isActive mode w Hw) as [Hd Hl].
    split; [exact Hd|]. split; [exact Hl|reflexivity].
  - unfold unmount. destruct (current w) as [old|];
      [|now apply Hsame].
    destruct (cleanup_dormant old w Hw) as [H1 Hl]. cbn [fst snd].
    split; [exact H1|]. split; [|reflexivity].
    change (log (cleanup old w) = log w ++ []). now rewrite Hl.
  - apply Hsame. unfold userMediaResolved. destruct Hw as (Hr & Ht & Hs & _).
    now rewrite Ht, lookup_empty.
  - apply Hsame. unfold resumeResolved. destruct Hw as (Hr & Ht & Hs & _).
    now rewrite Ht, lookup_empty.
  - apply Hsame. unfold setupRejected. destruct Hw as (Hr & Ht & Hs & _).
    now rewrite Ht, lookup_empty.
  - apply Hsame. unfold onopen, fulfil. destruct Hw as (Hr & Ht & Hs & _).
    rewrite Hs, lookup_empty. cbv iota. now rewrite Hs, lookup_empty.
  - apply Hsame. unfold onaudioprocess. destruct Hw as (Hr & Ht & Hs & _).
    now rewrite Hs, lookup_empty.
  - apply Hsame. unfold onmessage. destruct Hw as (Hr & Ht & Hs & _).
    now rewrite Hs, lookup_empty.
  - apply Hsame. unfold onclose. destruct Hw as (Hr & Ht & Hs & _).
    now rewrite Hs, lookup_empty.
  - apply Hsame. unfold onerror. destruct Hw as (Hr & Ht & Hs & _).
    now rewrite Hs, lookup_empty.
  - apply Hsame. unfold onended. destruct Hw as (Hr & Ht & Hs & _).
    destruct w as [r m c t s fu re mi f l]. cbn in *. now subst r.
Qed.

Lemma step_dormant ev w h :
  keyless ev = true -> dormant w ->
  dormant (fst (step onToolCall ev (w, h)))
  /\ log (fst (step onToolCall ev (w, h))) = log w ++ refusal ev
  /\ snd (step onToolCall ev (w, h)) = h.
Proof.
  intros Hk Hw. unfold step.
  destruct (handle_dormant ev w h Hk Hw) as ((Hr & Ht & Hs & Hre & Hmi) & Hl & Hh).
  destruct (handle onToolCall ev (w, h)) as [w1 h1]. cbn [fst snd] in *.
  unfold drain, dormant. cbn. rewrite Hmi, app_nil_r. repeat split; assumption.
Qed.

Lemma run_dormant events : forall w h,
  forallb keyless events = true -> dormant w ->
  dormant (fst (run onToolCall events (w, h)))
  /\ log (fst (run onToolCall events (w, h)))
     = log w ++ flat_map refusal events
  /\ snd (run onToolCall events (w, h)) = h.
Proof.
  unfold run. induction events as [|ev events IH]; intros w h Hk Hw.
  - cbn. now rewrite app_nil_r.
  - cbn [forallb] in Hk. apply andb_true_iff in Hk as [Hev Hk].
    cbn [fold_left flat_map].
    destruct (step_dormant ev w h Hev Hw) as (H1 & Hl & Hh).
    destruct (step onToolCall ev (w, h)) as [w1 h1]. cbn [fst snd] in *.
    subst h1. destruct (IH w1 h Hk H1) as (H2 & Hl2 & Hh2).
    repeat split; try apply H2; try assumption.
    now rewrite Hl2, Hl, <- app_assoc.
Qed.

(** X19: without an API key nothing is ever acquired.  Whatever happens
    to a component that is only rendered without a key, no microphone is
    asked for, no audio context, session or source is created and no ref
    is written: each activating render answers "Error: No API Key" and asks
    to be deactivated, and that is all the component does; the caller's
    handler is never run. *)
Theorem without_api_key_nothing_is_acquired (events : list Event) (h : H) :
  forallb keyless events = true ->
  let wh := run onToolCall events (initial, h) in
  refs (fst wh) = initial_refs
  /\ log (fst wh) = flat_map refusal events
  /\ snd wh = h.
Proof.
  intros Hk wh.
  destruct (run_dormant events initial h Hk) as ((Hr & _) & Hl & Hh);
    [now repeat split|].
  repeat split; assumption.
Qed.

End Keyless.

Definition silent_message : LiveServerMessage :=
  {| inputTranscription := None; audioData := Some "AAA="%string;
     interrupted := true; toolCall := None |}.

Definition keyless_day : list Event :=
  [Render true NIGHT_BRAIN false; UserMediaResolved 0%nat false false;
   Message 1%nat silent_message 5%Q; Render false SUN_DAY false;
   Render true SUN_DAY false; Unmount].

Lemma without_api_key_nothing_is_acquired_witness :
  forallb keyless keyless_day = true
  /\ log (fst (run (fun _ _ (h : unit) => (None, h)) keyless_day
                  (initial, tt)))
     = [AIResponse "Error: No API Key"; Deactivate;
        AIResponse "Error: No API Key"; Deactivate].
Proof.
  assert (forallb keyless keyless_day = true) as Hk by reflexivity.
  split; [exact Hk|].
  exact (proj1 (proj2 (without_api_key_nothing_is_acquired
                         (fun _ _ (h : unit) => (None, h))
                         keyless_day tt Hk))).
Defined.

End LiveVoiceAgentMore.

(** ** The handlers of [App] *)

Module AppFacts.

Import App.

Section Navigation.

Context {Track : Type}.

Lemma at_index_inside (tracks : list Track) (i : Z) :
  0 <= i < Z.of_nat (List.length tracks) ->
  exists t, at_index tracks i = Some t.
Proof.
  intros [Hlo Hhi]. unfold at_index.
  destruct (Z.ltb_spec i 0) as [Hneg|_]; [lia|].
  destruct (nth_error tracks (Z.to_nat i)) as [t|] eqn:Hn; [now exists t|].
  apply nth_error_None in Hn. lia.
Qed.

Lemma nonempty_length (tracks : list Track) :
  tracks <> [] -> (List.length tracks =? 0)%nat = false.
Proof. destruct tracks; [congruence|reflexivity]. Qed.

Lemma handleNextBtn_inside (tracks : list Track) (st : State Track) :
  currentPlaylist st = Some tracks -> tracks <> [] ->
  handleNextBtn st =
  emit [ShowToast NextTrackToast;
        PlayTrack (at_index tracks
                     (Z.rem (currentTrackIndex st + 1)
                            (Z.of_nat (List.length tracks))))]
       (setCurrentTrackIndex
          (Z.rem (currentTrackIndex st + 1) (Z.of_nat (List.length tracks)))
          st).
Proof.
  intros Hpl Hne. unfold handleNextBtn. cbn [emit currentPlaylist].
  rewrite Hpl, (nonempty_length tracks Hne).
  unfold emit, setCurrentTrackIndex. cbn. now rewrite <- app_assoc.
Qed.

Lemma handlePrevBtn_inside (tracks : list Track) (st : State Track) :
  currentPlaylist st = Some tracks -> tracks <> [] ->
  handlePrevBtn st =
  emit [ShowToast PreviousTrackToast;
        PlayTrack (at_index tracks
                     (Z.rem (currentTrackIndex st - 1
                             + Z.of_nat (List.length tracks))
                            (Z.of_nat (List.length tracks))))]
       (setCurrentTrackIndex
          (Z.rem (currentTrackIndex st - 1 + Z.of_nat (List.length tracks))
                 (Z.of_nat (List.length tracks)))
          st).
Proof.
  intros Hpl Hne. unfold handlePrevBtn. cbn [emit currentPlaylist].
  rewrite Hpl, (nonempty_length tracks Hne).
  unfold emit, setCurrentTrackIndex. cbn. now rewrite <- app_assoc.
Qed.

Lemma rem_next (i n : Z) :
  0 <= i < n -> Z.rem (i + 1) n = if i + 1 =? n then 0 else i + 1.
Proof.
  intros Hi. destruct (Z.eqb_spec (i + 1) n) as [->|Hne].
  - apply Z.rem_same. lia.
  - apply Z.rem_small. lia.
Qed.

Lemma rem_prev (i n : Z) :
  0 <= i < n -> Z.rem (i - 1 + n) n = if i =? 0 then n - 1 else i - 1.
Proof.
  intros Hi. destruct (Z.eqb_spec i 0) as [->|Hne].
  - replace (0 - 1 + n) with (n - 1) by lia. apply Z.rem_small. lia.
  - rewrite Z.rem_mod_nonneg by lia.
    replace (i - 1 + n) with (i - 1 + 1 * n) by lia.
    rewrite Z.mod_add by lia. apply Z.mod_small. lia.
Qed.

(** X20: the next and previous buttons stay inside the playlist.  With a
    playlist that has tracks and an index that is not negative (even one
    past the end, as a restored session can have), each button selects an
    index of the playlist and plays the track found there, never
    [undefined]; from an index inside the playlist, next goes one up and
    wraps to the first track after the last, previous goes one down and
    wraps to the last track before the first, and each undoes the other. *)
Theorem navigation_stays_in_the_playlist (tracks : list Track)
    (st : State Track) :
  currentPlaylist st = Some tracks -> tracks <> [] ->
  0 <= currentTrackIndex st ->
  let n := Z.of_nat (List.length tracks) in
  let i := currentTrackIndex st in
  (0 <= currentTrackIndex (handleNextBtn st) < n
   /\ exists t, at_index tracks (currentTrackIndex (handleNextBtn st)) = Some t
        /\ log (handleNextBtn st)
           = log st ++ [ShowToast NextTrackToast; PlayTrack (Some t)])
  /\ (0 <= currentTrackIndex (handlePrevBtn st) < n
      /\ exists t,
           at_index tracks (currentTrackIndex (handlePrevBtn st)) = Some t
           /\ log (handlePrevBtn st)
              = log st ++ [ShowToast PreviousTrackToast; PlayTrack (Some t)])
  /\ (i < n ->
      currentTrackIndex (handleNextBtn st) = (if i + 1 =? n then 0 else i + 1)
      /\ currentTrackIndex (handlePrevBtn st)
         = (if i =? 0 then n - 1 else i - 1)
      /\ currentTrackIndex (handlePrevBtn (handleNextBtn st)) = i
      /\ currentTrackIndex (handleNextBtn (handlePrevBtn st)) = i).
Proof.
  intros Hpl Hne Hi n i.
  assert (0 < n) as Hn by (subst n; destruct tracks; [congruence|cbn; lia]).
  pose proof (handleNextBtn_inside tracks st Hpl Hne) as Hnext.
  pose proof (handlePrevBtn_inside tracks st Hpl Hne) as Hprev.
  fold n i in Hnext, Hprev.
  assert (0 <= Z.rem (i + 1) n < n) as Hrn
    by (apply Z.rem_bound_pos; lia).
  assert (0 <= Z.rem (i - 1 + n) n < n) as Hrp
    by (apply Z.rem_bound_pos; lia).
  split; [|split].
  - rewrite Hnext. cbn [emit setCurrentTrackIndex currentTrackIndex log].
    split; [exact Hrn|].
    destruct (at_index_inside tracks (Z.rem (i + 1) n) Hrn) as [t Ht].
    exists t. now rewrite Ht.
  - rewrite Hprev. cbn [emit setCurrentTrackIndex currentTrackIndex log].
    split; [exact Hrp|].
    destruct (at_index_inside tracks (Z.rem (i - 1 + n) n) Hrp) as [t Ht].
    exists t. now rewrite Ht.
  - intros Hin.
    assert (currentTrackIndex (handleNextBtn st)
            = if i + 1 =? n then 0 else i + 1) as Hn1.
    { rewrite Hnext. cbn [emit setCurrentTrackIndex currentTrackIndex].
      apply rem_next. lia. }
    assert (currentTrackIndex (handlePrevBtn st)
            = if i =? 0 then n - 1 else i - 1) as Hp1.
    { rewrite Hprev. cbn [emit setCurrentTrackIndex currentTrackIndex].
      apply rem_prev. lia. }
    split; [exact Hn1|]. split; [exact Hp1|]. split.
    + rewrite (handlePrevBtn_inside tracks (handleNextBtn st));
        [|now rewrite Hnext|assumption].
      cbn [emit setCurrentTrackIndex currentTrackIndex]. fold n.
      rewrite Hn1. rewrite rem_prev.
      * destruct (Z.eqb_spec (i + 1) n); cbn; [lia|].
        destruct (Z.eqb_spec (i + 1) 0); lia.
      * destruct (Z.eqb_spec (i + 1) n); lia.
    + rewrite (handleNextBtn_inside tracks (handlePrevBtn st));
        [|now rewrite Hprev|assumption].
      cbn [emit setCurrentTrackIndex currentTrackIndex]. fold n.
      rewrite Hp1. rewrite rem_next.
      * destruct (Z.eqb_spec i 0).
        -- destruct (Z.eqb_spec (n - 1 + 1) n); lia.
        -- destruct (Z.eqb_spec (i - 1 + 1) n); lia.
      * destruct (Z.eqb_spec i 0); lia.
Qed.

End Navigation.

Lemma navigation_stays_in_the_playlist_witness :
  let st := {| currentPlaylist := Some ["a"; "b"; "c"]%string;
               currentTrackIndex := 2; volume := 1;
               touchStartRef := None; retryCountRef := 0; log := [] |} in
  currentTrackIndex (handleNextBtn st) = 0
  /\ currentTrackIndex (handlePrevBtn (handleNextBtn st)) = 2.
Proof.
  intros st.
  assert (currentPlaylist st = Some ["a"; "b"; "c"]%string) as Hpl
    by reflexivity.
  assert (["a"; "b"; "c"]%string <> []) as Hne by discriminate.
  assert (0 <= currentTrackIndex st) as Hi by (cbn; lia).
  assert (currentTrackIndex st < Z.of_nat 3) as Hin by (cbn; lia).
  pose proof (proj2 (proj2 (navigation_stays_in_the_playlist
                              ["a"; "b"; "c"]%string st Hpl Hne Hi)) Hin)
    as (Hnext & _ & Hback & _).
  split; [exact Hnext|exact Hback].
Defined.

Section Gestures.

Context {Track : Type}.

Definition is_play (e : Effect Track) : bool :=
  match e with PlayTrack _ => true | _ => false end.

Definition is_volume (e : Effect Track) : bool :=
  match e with AudioSetVolume _ => true | _ => false end.

(** How many times a log changes track or volume. *)
Definition actions (l : list (Effect Track)) : nat :=
  List.length (List.filter (fun e => is_play e || is_volume e) l).

Lemma button_once (st : State Track) :
  (exists es, log (handleNextBtn st) = log st ++ es
              /\ (actions es <= 1)%nat
              /\ forall v, ~ In (AudioSetVolume v) es)
  /\ volume (handleNextBtn st) = volume st
  /\ (exists es, log (handlePrevBtn st) = log st ++ es
                 /\ (actions es <= 1)%nat
                 /\ forall v, ~ In (AudioSetVolume v) es)
  /\ volume (handlePrevBtn st) = volume st.
Proof.
  assert (forall t : Toast,
            (actions [ShowToast t] <= 1)%nat
            /\ forall v, ~ In (AudioSetVolume v : Effect Track) [ShowToast t]) as Hone.
  { intros t. split; [cbn; lia|]. intros v [H|[]]. discriminate. }
  assert (forall (t : Toast) (p : option Track),
            (actions [ShowToast t; PlayTrack p] <= 1)%nat
            /\ forall v, ~ In (AudioSetVolume v : Effect Track) [ShowToast t; PlayTrack p])
    as Htwo.
  { intros t p. split; [cbn; lia|]. intros v [H|[H|[]]]; discriminate. }
  unfold handleNextBtn, handlePrevBtn. cbn [emit currentPlaylist].
  destruct (currentPlaylist st) as [tracks|].
  - destruct (List.length tracks =? 0)%nat.
    + repeat split; try (eexists; split; [reflexivity|apply Hone]).
    + cbn. rewrite <- !app_assoc.
      repeat split; try (eexists; split; [reflexivity|apply Htwo]).
  - repeat split; try (eexists; split; [reflexivity|apply Hone]).
Qed.

Lemma clamped (v : Q) :
  (0 <= Qmax 0 (Qmin 1 v))%Q /\ (Qmax 0 (Qmin 1 v) <= 1)%Q.
Proof.
  split; [apply Q.le_max_l|].
  apply Q.max_lub; [discriminate|apply Q.le_min_l].
Qed.

Lemma not_both (a b : Q) :
  gt a 50 && lt b 50 = true -> gt b 50 && lt a 50 = false.
Proof.
  unfold gt, lt. intros H.
  apply andb_true_iff in H as [Ha _].
  apply negb_true_iff in Ha.
  apply andb_false_iff. right. apply negb_false_iff.
  apply Qle_bool_iff. apply Qlt_le_weak, Qnot_le_lt.
  intros Hle. apply Qle_bool_iff in Hle. congruence.
Qed.

Variable fsub fadd : Q -> Q -> Q.

(** X21: a swipe does at most one thing.  Whatever the two touch points
    and however the machine rounds, the end of a touch changes the track
    or the volume at most once, never both; a volume it sets lies between 0
    and 1 and is the one the component keeps; the start point is forgotten,
    so that a second touch end without a new touch start does nothing; and
    nothing happens unless one axis has moved by more than 50 and the other
    by less than 50. *)
Theorem swipe_does_one_thing (x y : Q) (st : State Track) :
  let st' := handleTouchEnd fsub fadd x y st in
  touchStartRef st' = None
  /\ (forall x' y', handleTouchEnd fsub fadd x' y' st' = st')
  /\ (exists es, log st' = log st ++ es
        /\ (actions es <= 1)%nat
        /\ forall v, In (AudioSetVolume v) es ->
             (0 <= v)%Q /\ (v <= 1)%Q /\ volume st' = v)
  /\ (volume st' = volume st
      \/ ((0 <= volume st')%Q /\ (volume st' <= 1)%Q))
  /\ (forall x0 y0,
        touchStartRef st = Some (x0, y0) ->
        (gt (Qabs (fsub x x0)) 50 = false
         \/ lt (Qabs (fsub y y0)) 50 = false) ->
        (gt (Qabs (fsub y y0)) 50 = false
         \/ lt (Qabs (fsub x x0)) 50 = false) ->
        st' = set_touchStartRef None st).
Proof.
  intros st'. subst st'. unfold handleTouchEnd.
  destruct (touchStartRef st) as [[x0 y0]|] eqn:Hts.
  2:{ rewrite Hts. split; [reflexivity|]. split; [reflexivity|].
      split.
      { exists []. rewrite app_nil_r. split; [reflexivity|].
        split; [cbn; lia|intros v []]. }
      split; [now left|]. intros x1 y1 Hd. discriminate. }
  cbv zeta.
  set (dx := fsub x x0). set (dy := fsub y y0).
  destruct (button_once st)
    as ((en & Hen & Han & Hnv) & Hvn & (ep & Hep & Hap & Hpv) & Hvp).
  destruct (gt (Qabs dx) 50 && lt (Qabs dy) 50) eqn:Hh.
  - rewrite (not_both _ _ Hh).
    split; [reflexivity|]. split; [reflexivity|].
    split; [|split].
    + destruct (gt dx 0); cbn [set_touchStartRef log volume].
      * exists ep. split; [assumption|]. split; [assumption|].
        intros v Hv. now apply Hpv in Hv.
      * exists en. split; [assumption|]. split; [assumption|].
        intros v Hv. now apply Hnv in Hv.
    + left. destruct (gt dx 0); cbn [set_touchStartRef volume]; assumption.
    + intros x1 y1 [= <- <-] Hno _. fold dx dy in Hno.
      apply andb_true_iff in Hh as [H1 H2]. destruct Hno; congruence.
  - destruct (gt (Qabs dy) 50 && lt (Qabs dx) 50) eqn:Hv.
    + set (newVol := Qmax 0 (Qmin 1 (fadd (volume st)
                       (if gt dy 0 then (- (1 # 10))%Q else (1 # 10)%Q)))).
      destruct (clamped (fadd (volume st)
                  (if gt dy 0 then (- (1 # 10))%Q else (1 # 10)%Q)))
        as [Hlo Hhi]. fold newVol in Hlo, Hhi.
      split; [reflexivity|]. split; [reflexivity|].
      cbn [set_touchStartRef emit setVolume log volume].
      split; [|split].
      * eexists. split; [reflexivity|]. split; [cbn; lia|].
        intros v [[= <-]|[H|[]]]; [|discriminate]. now repeat split.
      * right. now split.
      * intros x1 y1 [= <- <-] _ Hno. fold dx dy in Hno.
        apply andb_true_iff in Hv as [H1 H2]. destruct Hno; congruence.
    + split; [reflexivity|]. split; [reflexivity|].
      cbn [set_touchStartRef log volume].
      split; [|split].
      * exists []. rewrite app_nil_r. split; [reflexivity|].
        split; [cbn; lia|intros v []].
      * now left.
      * reflexivity.
Qed.

End Gestures.

Section RetryPolicy.

Context {Track : Type}.

(** What the error callback answers to the [k]-th error in a row. *)
Definition answer (cur : option Track) (k : nat) : list (Effect Track) :=
  if (k mod 3 =? 2)%nat then [ShowToast SkippingToast; NextTrackLater]
  else [ShowToast RetryingToast; PlayTrack cur].

Definition errors (n : nat) (st : State Track) : State Track :=
  Nat.iter n onError st.

Lemma onError_keeps (st : State Track) :
  currentPlaylist (onError st) = currentPlaylist st
  /\ currentTrackIndex (onError st) = currentTrackIndex st
  /\ volume (onError st) = volume st
  /\ touchStartRef (onError st) = touchStartRef st.
Proof. unfold onError. destruct (retryCountRef st <? 2); now cbn. Qed.

Lemma onError_currentTrack (st : State Track) :
  currentTrack (onError st) = currentTrack st.
Proof.
  unfold currentTrack. destruct (onError_keeps st) as (-> & -> & _).
  reflexivity.
Qed.

Lemma errors_in_a_row (n : nat) (st : State Track) :
  retryCountRef st = 0 ->
  log (errors n st) = log st ++ flat_map (answer (currentTrack st)) (seq 0 n)
  /\ retryCountRef (errors n st) = Z.of_nat (n mod 3)
  /\ currentTrack (errors n st) = currentTrack st.
Proof.
  intros H0. unfold errors. induction n as [|n (Hl & Hc & Ht)].
  - cbn. now rewrite app_nil_r.
  - rewrite Nat.iter_succ, seq_S, flat_map_app.
    set (s := Nat.iter n onError st) in *. clearbody s.
    cbn [flat_map Nat.add].
    rewrite app_nil_r, app_assoc, <- Hl, onError_currentTrack, Ht.
    split; [|split; [|reflexivity]].
    + unfold onError, answer. rewrite Hc.
      destruct (Z.ltb_spec (Z.of_nat (n mod 3)) 2) as [Hlt|Hge].
      * destruct (Nat.eqb_spec (n mod 3) 2) as [He|_]; [lia|].
        cbn. unfold currentTrack in *. cbn. now rewrite Ht.
      * destruct (Nat.eqb_spec (n mod 3) 2) as [_|Hne].
        -- cbn. now rewrite <- app_assoc.
        -- pose proof (Nat.mod_upper_bound n 3). lia.
    + unfold onError. rewrite Hc.
      destruct (Z.ltb_spec (Z.of_nat (n mod 3)) 2) as [Hlt|Hge];
        cbn [retryCountRef emit set_retryCountRef].
      * rewrite !Nat2Z.inj_mod, Nat2Z.inj_succ in *.
        Z.to_euclidean_division_equations. lia.
      * rewrite !Nat2Z.inj_mod, Nat2Z.inj_succ in *.
        Z.to_euclidean_division_equations. lia.
Qed.

(** X22: a failing source is retried twice, then skipped.  Counting the
    errors reported in a row from a cleared counter (the page has just
    loaded, or playback has started since), the callback answers the first
    two with a retry of the current track and the third with a skip to the
    next track, and so on in threes; the counter is the number of errors
    modulo 3, and a start of playback clears it. *)
Theorem retried_twice_then_skipped (n : nat) (st : State Track) :
  retryCountRef st = 0 ->
  log (errors n st) = log st ++ flat_map (answer (currentTrack st)) (seq 0 n)
  /\ retryCountRef (errors n st) = Z.of_nat (n mod 3)
  /\ retryCountRef (onPlay (errors n st)) = 0.
Proof.
  intros H0. destruct (errors_in_a_row n st H0) as (Hl & Hc & _).
  split; [exact Hl|]. split; [exact Hc|reflexivity].
Qed.

End RetryPolicy.

Lemma retried_twice_then_skipped_witness :
  let st := onPlay {| currentPlaylist := Some ["a"; "b"]%string;
                      currentTrackIndex := 1; volume := 1;
                      touchStartRef := None; retryCountRef := 2;
                      log := [] |} in
  retryCountRef st = 0
  /\ log (errors 4 st)
     = [ShowToast RetryingToast; PlayTrack (Some "b"%string);
        ShowToast RetryingToast; PlayTrack (Some "b"%string);
        ShowToast SkippingToast; NextTrackLater;
        ShowToast RetryingToast; PlayTrack (Some "b"%string)].
Proof.
  intros st.
  assert (retryCountRef st = 0) as H0 by reflexivity.
  split; [exact H0|].
  exact (proj1 (retried_twice_then_skipped 4 st H0)).
Defined.

End AppFacts.
